(** * Cross-App Access fetch middleware: a shallow embedding

    The TypeScript sources embedded here are
    [cross-app-access-middleware/src/utils.ts], [.../src/types.ts] and the
    middleware class [CrossAppAccessMiddleware] (middleware.ts).

    Conventions.
    - A JavaScript string is a [string]; a value of type [T | undefined]
      (or [T | null]) is an [option T].
    - [Date.now()] and [expires_in] are integers, so the arithmetic on them
      is done in [Z] (all quantities are far below 2^53).
    - A field of a JSON body that the sender left out reads as
      [undefined]: every field of a parsed body is an option.
    - An [async] function is a computation in the monad [M]: it threads the
      mutable fields of the middleware and the log of outbound calls, and
      ends either with a value or with a thrown [Error].
    - A function of the platform that can throw returns a [Result]; the
      texts of the platform's errors are not fixed by the standard. *)

From Stdlib Require Import ZArith Lia Ascii String DecimalString.
From stdpp Require Import gmap strings list fin_maps.

Local Open Scope Z_scope.

(** ** Characters and strings *)

Module Chars.

Definition code (c : ascii) : nat := nat_of_ascii c.

Definition between (lo hi n : nat) : bool :=
  (Nat.leb lo n && Nat.leb n hi)%bool.

(** The regular-expression class [\w], that is [[A-Za-z0-9_]]. *)
Definition is_word (c : ascii) : bool :=
  let n := code c in
  (between 48 57 n || between 65 90 n || between 97 122 n || Nat.eqb n 95)%bool.

(** The class [\s] on the code units below 256: TAB, LF, VT, FF, CR,
    SPACE and NBSP. *)
Definition is_space (c : ascii) : bool :=
  let n := code c in
  (between 9 13 n || Nat.eqb n 32 || Nat.eqb n 160)%bool.

Definition dquote : ascii := ascii_of_nat 34.
Definition comma : ascii := ascii_of_nat 44.
Definition equals : ascii := ascii_of_nat 61.
Definition slash : ascii := ascii_of_nat 47.
Definition space : ascii := ascii_of_nat 32.

Definition is_dquote (c : ascii) : bool := Nat.eqb (code c) 34.
Definition is_comma (c : ascii) : bool := Nat.eqb (code c) 44.
Definition is_equals (c : ascii) : bool := Nat.eqb (code c) 61.
Definition is_slash (c : ascii) : bool := Nat.eqb (code c) 47.

(** The two negated classes of the parameter pattern: any character but
    the double quote, and any character but white space and comma. *)
Definition not_dquote (c : ascii) : bool := negb (is_dquote c).
Definition not_space_comma (c : ascii) : bool :=
  negb (is_space c || is_comma c)%bool.

(** ASCII lower-casing, as used for header names. *)
Definition lower (c : ascii) : ascii :=
  let n := code c in
  if between 65 90 n then ascii_of_nat (n + 32) else c.

End Chars.

Module Str.

Fixpoint all (p : ascii -> bool) (s : string) : bool :=
  match s with
  | EmptyString => true
  | String c t => (p c && all p t)%bool
  end.

(** Longest prefix whose characters satisfy [p], and the rest: what a
    greedy starred character class consumes. *)
Fixpoint span (p : ascii -> bool) (s : string) : string * string :=
  match s with
  | EmptyString => (EmptyString, EmptyString)
  | String c t =>
      if p c then let '(a, b) := span p t in (String c a, b)
      else (EmptyString, s)
  end.

Definition is_empty (s : string) : bool :=
  match s with EmptyString => true | _ => false end.

Fixpoint map (f : ascii -> ascii) (s : string) : string :=
  match s with
  | EmptyString => EmptyString
  | String c t => String (f c) (map f t)
  end.

Definition toLowerCase (s : string) : string := map Chars.lower s.

(** [s.replace(/\/$/, '')]: drop one final slash, if any. *)
Fixpoint strip_trailing_slash (s : string) : string :=
  match s with
  | EmptyString => EmptyString
  | String c t =>
      if (Chars.is_slash c && is_empty t)%bool then EmptyString
      else String c (strip_trailing_slash t)
  end.

Definition quote (s : string) : string :=
  String Chars.dquote (s +:+ String Chars.dquote EmptyString).

Fixpoint join (sep : string) (l : list string) : string :=
  match l with
  | [] => EmptyString
  | [x] => x
  | x :: r => x +:+ sep +:+ join sep r
  end.

(** Truthiness of a JavaScript string, and of [string | undefined]. *)
Definition truthy (s : string) : bool := negb (is_empty s).

Definition truthy_opt (o : option string) : bool :=
  match o with Some s => truthy s | None => false end.

(** [`${v}`] for a [string | undefined]. *)
Definition template (o : option string) : string :=
  match o with Some s => s | None => "undefined" end.

Definition of_Z (z : Z) : string := NilZero.string_of_int (Z.to_int z).

End Str.

(** ** utils.ts: [parseWwwAuthenticate] *)

(** [WwwAuthenticateChallenge] of types.ts. *)
Record WwwAuthenticateChallenge := {
  scheme : string;
  realm : option string;
  scope : option string;
  error : option string;
  error_description : option string;
  resource_metadata : option string;
}.

Module Parser.

(** One match of [paramRegex]: a key [\w+], the character [=], then
    either a double-quoted run of characters other than the double quote
    (group 2) or a run of characters other than white space and comma
    (group 3).  The record holds the three capture groups and the input
    after the match (from [lastIndex] on). *)
Record regex_match := {
  group1 : string;
  group2 : option string;
  group3 : option string;
  after : string;
}.

(** The quoted alternative at the head of [s]: the value and what
    follows the closing double quote. *)
Definition match_quoted (s : string) : option (string * string) :=
  match s with
  | String c t =>
      if Chars.is_dquote c then
        match Str.span Chars.not_dquote t with
        | (v, String _ rest) => Some (v, rest)
        | (_, EmptyString) => None
        end
      else None
  | EmptyString => None
  end.

(** The whole pattern anchored at the head of [s].  [\w+] is greedy and
    a shorter key cannot be followed by [=], so the key is the longest
    run of word characters.  The first alternative is tried first; the
    second never fails. *)
Definition match_here (s : string) : option regex_match :=
  match Str.span Chars.is_word s with
  | (EmptyString, _) => None
  | (key, String c r) =>
      if Chars.is_equals c then
        match match_quoted r with
        | Some (v, rest) =>
            Some {| group1 := key; group2 := Some v; group3 := None; after := rest |}
        | None =>
            let '(v, rest) := Str.span Chars.not_space_comma r in
            Some {| group1 := key; group2 := None; group3 := Some v; after := rest |}
        end
      else None
  | (_, EmptyString) => None
  end.

(** [paramRegex.exec]: the leftmost match in the remaining input. *)
Fixpoint exec (s : string) : option regex_match :=
  match match_here s with
  | Some m => Some m
  | None =>
      match s with
      | EmptyString => None
      | String _ t => exec t
      end
  end.

(** [match[2] || match[3]]: an empty or absent group 2 gives way to
    group 3, which is [undefined] when the quoted alternative matched. *)
Definition value_of (m : regex_match) : option string :=
  match group2 m with
  | Some v => if Str.truthy v then Some v else group3 m
  | None => group3 m
  end.

(** The [switch (key)] statement. *)
Definition assign (key : string) (value : option string)
    (c : WwwAuthenticateChallenge) : WwwAuthenticateChallenge :=
  if String.eqb key "realm" then
    {| scheme := scheme c; realm := value; scope := scope c; error := error c;
       error_description := error_description c;
       resource_metadata := resource_metadata c |}
  else if String.eqb key "scope" then
    {| scheme := scheme c; realm := realm c; scope := value; error := error c;
       error_description := error_description c;
       resource_metadata := resource_metadata c |}
  else if String.eqb key "error" then
    {| scheme := scheme c; realm := realm c; scope := scope c; error := value;
       error_description := error_description c;
       resource_metadata := resource_metadata c |}
  else if String.eqb key "error_description" then
    {| scheme := scheme c; realm := realm c; scope := scope c; error := error c;
       error_description := value;
       resource_metadata := resource_metadata c |}
  else if String.eqb key "resource_metadata" then
    {| scheme := scheme c; realm := realm c; scope := scope c; error := error c;
       error_description := error_description c;
       resource_metadata := value |}
  else c.

(** The [while ((match = paramRegex.exec(headerValue)) !== null)] loop.
    Every match consumes at least two characters, so [fuel] bounded by
    the length of the input is never exhausted ([ParserFacts.loop_fuel]). *)
Fixpoint loop (fuel : nat) (s : string) (c : WwwAuthenticateChallenge)
    : WwwAuthenticateChallenge :=
  match fuel with
  | O => c
  | S fuel' =>
      match exec s with
      | None => c
      | Some m => loop fuel' (after m) (assign (group1 m) (value_of m) c)
      end
  end.

(** [headerValue.match(/^(\w+)/)]. *)
Definition schemeMatch (headerValue : string) : option string :=
  match Str.span Chars.is_word headerValue with
  | (EmptyString, _) => None
  | (s, _) => Some s
  end.

End Parser.

Definition parseWwwAuthenticate (headerValue : string) : WwwAuthenticateChallenge :=
  let challenge :=
    {| scheme := EmptyString; realm := None; scope := None; error := None;
       error_description := None; resource_metadata := None |} in
  let challenge :=
    match Parser.schemeMatch headerValue with
    | Some s =>
        {| scheme := s; realm := realm challenge; scope := scope challenge;
           error := error challenge;
           error_description := error_description challenge;
           resource_metadata := resource_metadata challenge |}
    | None => challenge
    end in
  Parser.loop (String.length headerValue) headerValue challenge.

(** ** Requests, responses and JSON bodies *)

(** How a call ends: with a value, or with a thrown error and its
    message. *)
Inductive Result (A : Type) : Type :=
| Ok (a : A)
| Throw (msg : string).
Arguments Ok {A} a.
Arguments Throw {A} msg.

(** A [Headers] object.  Names are case-insensitive; the order of the
    entries is not observable through [get], so [set] may append. *)
Abbreviation Headers := (list (string * string)).

Module HeadersOps.

Definition same_name (n : string) (e : string * string) : bool :=
  String.eqb (Str.toLowerCase (fst e)) (Str.toLowerCase n).

Definition values (n : string) (h : Headers) : list string :=
  map snd (filter (fun e => same_name n e = true) h).

(** [headers.get(name)]: the values under [name] joined by comma and
    space, or [null]. *)
Definition get (n : string) (h : Headers) : option string :=
  match values n h with
  | [] => None
  | vs => Some (Str.join ", " vs)
  end.

(** HTTP white space: TAB, LF, CR and SPACE. *)
Definition is_http_whitespace (c : ascii) : bool :=
  let n := Chars.code c in
  (Nat.eqb n 9 || Nat.eqb n 10 || Nat.eqb n 13 || Nat.eqb n 32)%bool.

Fixpoint strip_leading (s : string) : string :=
  match s with
  | EmptyString => EmptyString
  | String c t => if is_http_whitespace c then strip_leading t else s
  end.

Fixpoint strip_trailing (s : string) : string :=
  match s with
  | EmptyString => EmptyString
  | String c t =>
      let t' := strip_trailing t in
      if (is_http_whitespace c && Str.is_empty t')%bool then EmptyString
      else String c t'
  end.

(** Normalizing a header value: the HTTP white space at both ends goes. *)
Definition normalize (v : string) : string := strip_trailing (strip_leading v).

(** A header value holds no NUL, LF or CR. *)
Definition value_char (c : ascii) : bool :=
  let n := Chars.code c in
  negb (Nat.eqb n 0 || Nat.eqb n 10 || Nat.eqb n 13)%bool.

(** A header name is a token: one character or more out of the letters,
    the digits and the fifteen marks of RFC 7230. *)
Definition name_char (c : ascii) : bool :=
  let n := Chars.code c in
  (Nat.eqb n 33 || Chars.between 35 39 n || Nat.eqb n 42 || Nat.eqb n 43
   || Nat.eqb n 45 || Nat.eqb n 46 || Chars.between 48 57 n
   || Chars.between 65 90 n || Chars.between 94 122 n
   || Nat.eqb n 124 || Nat.eqb n 126)%bool.

Definition valid (n v : string) : bool :=
  (Str.truthy n && Str.all name_char n && Str.all value_char v)%bool.

(** [headers.set(name, value)]: the value is normalized, then the pair
    is validated (a [TypeError] when it is refused), then it replaces
    every entry under the same name. *)
Definition set (n v : string) (h : Headers) : Result Headers :=
  let v' := normalize v in
  if valid n v' then Ok (filter (fun e => same_name n e = false) h ++ [(n, v')])
  else Throw "TypeError: invalid header name or value".

End HeadersOps.

Record Request := {
  url : string;
  method : string;
  headers : Headers;
  body : option string;
  referrer : string;
  referrerPolicy : string;
  mode : string;
  credentials : string;
  cache : string;
  redirect : string;
  integrity : string;
}.

(** [new Request(url, { method, headers, body })] with the defaults of the
    platform for the remaining fields. *)
Definition new_Request (u m : string) (h : Headers) (b : option string) : Request :=
  {| url := u; method := m; headers := h; body := b;
     referrer := "about:client"; referrerPolicy := EmptyString; mode := "cors";
     credentials := "same-origin"; cache := "default"; redirect := "follow";
     integrity := EmptyString |}.

(** [new Request(url, init)] as [cloneRequestWithAuth] calls it, with
    every member of [init] taken from another request.  The body of a
    request, when it is not [null], is a stream, and the constructor
    refuses a stream as [init.body] unless [init.duplex] is given, which
    the call does not do. *)
Definition new_Request_from (init : Request) : Result Request :=
  match body init with
  | Some _ =>
      Throw "TypeError: RequestInit: duplex option is required when sending a body."
  | None => Ok init
  end.

Module Json.

(** A parsed JSON body, seen through the fields that the interfaces of
    types.ts declare and the middleware reads ([ProtectedResourceMetadata],
    [AuthorizationServerMetadata], [TokenExchangeResponse],
    [AccessTokenResponse], [OAuthErrorResponse]).  The interfaces are
    erased at run time and nothing checks a body against them, so every
    field is an option: [None] is a field that the body does not have,
    which reads as [undefined]. *)
Record object := {
  error : option string;
  error_description : option string;
  resource : option string;
  authorization_servers : option (list string);
  token_endpoint : option string;
  issued_token_type : option string;
  access_token : option string;
  token_type : option string;
  expires_in : option Z;
  scope : option string;
  refresh_token : option string;
}.

(** The body [{}]. *)
Definition empty : object :=
  {| error := None; error_description := None; resource := None;
     authorization_servers := None; token_endpoint := None;
     issued_token_type := None; access_token := None;
     token_type := None; expires_in := None; scope := None;
     refresh_token := None |}.

End Json.

(** A [Response]; [response_json] is [None] when the body is not JSON, in
    which case [response.json()] rejects. *)
Record Response := {
  status : Z;
  statusText : string;
  response_headers : Headers;
  response_json : option Json.object;
}.

(** [response.ok]. *)
Definition ok (r : Response) : bool := (200 <=? status r) && (status r <=? 299).

(** ** The monad of asynchronous computations *)

(** The call sites of the transport: the caller's request (bare or with a
    credential), the metadata documents, and the two token requests.  The
    label is a ghost annotation of the log; the code has one [fetchFn]. *)
Inductive Purpose : Type :=
| ToResource
| ToMetadata
| ToTokenEndpoint.

(** What leaves the middleware. *)
Inductive Event : Type :=
| Fetched (p : Purpose) (r : Request)
| AskedIdToken
| AskedCache (resourceUrl : string)
| Notified (token : Json.object).

(** The outcome of one call of the transport: the time it took and either
    a response or a rejection (network error). *)
Record Reply := {
  elapsed : Z;
  outcome : Result Response;
}.

(** [CrossAppAccessConfig] of types.ts.  The callbacks and the transport
    are functions of the calls made so far, so that they may answer the
    same request differently at different times. *)
Record CrossAppAccessConfig := {
  getIdToken : list Event -> Result string;
  idpIssuerUrl : string;
  idpClientId : string;
  idpClientSecret : option string;
  mcpClientId : string;
  mcpClientSecret : option string;
  fetch_impl : list Event -> Request -> Reply;
  onAccessTokenReceived : option (list Event -> Json.object -> Result unit);
  getCachedAccessToken : option (list Event -> string -> Result (option string));
}.

(** An entry of [tokenCache].  The token is what the token response held
    under [access_token]. *)
Record CachedToken := {
  token : option string;
  expiresAt : Z;
}.

(** The mutable fields of [CrossAppAccessMiddleware], the clock and the log
    of outbound calls.  A promise stored in [pendingTokenRequests] is
    represented by the outcome it settles with. *)
Record World := {
  now : Z;
  tokenCache : gmap string CachedToken;
  pendingTokenRequests : gmap string (Result (option string));
  log : list Event;
}.

Definition M (A : Type) : Type := World -> Result A * World.

Definition ret {A} (a : A) : M A := fun w => (Ok a, w).

Definition throw {A} (msg : string) : M A := fun w => (Throw msg, w).

Definition bind {A B} (m : M A) (k : A -> M B) : M B :=
  fun w =>
    match m w with
    | (Ok a, w') => k a w'
    | (Throw e, w') => (Throw e, w')
    end.

Notation "x <- m ;; k" := (bind m (fun x => k))
  (at level 100, m at level 89, right associativity).
Notation "m ;;; k" := (bind m (fun _ => k))
  (at level 100, right associativity).

(** [try { m } catch { h }]. *)
Definition try_catch {A} (m : M A) (h : string -> M A) : M A :=
  fun w =>
    match m w with
    | (Ok a, w') => (Ok a, w')
    | (Throw e, w') => h e w'
    end.

(** [try { m } finally { f }] where [f] does not throw. *)
Definition try_finally {A} (m : M A) (f : World -> World) : M A :=
  fun w => let '(r, w') := m w in (r, f w').

(** Calling an [async] function without awaiting it: the promise. *)
Definition promise_of {A} (m : M A) : M (Result A) :=
  fun w => let '(r, w') := m w in (Ok r, w').

(** [await p]. *)
Definition await {A} (p : Result A) : M A := fun w => (p, w).

(** A call of a synchronous function that may throw. *)
Definition call {A} (r : Result A) : M A := fun w => (r, w).

Definition Date_now : M Z := fun w => (Ok (now w), w).

Definition record (e : Event) (dt : Z) (w : World) : World :=
  {| now := now w + dt; tokenCache := tokenCache w;
     pendingTokenRequests := pendingTokenRequests w; log := log w ++ [e] |}.

Definition tokenCache_set (k : string) (c : CachedToken) : M unit :=
  fun w => (Ok tt,
            {| now := now w; tokenCache := <[k := c]> (tokenCache w);
               pendingTokenRequests := pendingTokenRequests w; log := log w |}).

Definition tokenCache_delete_w (k : string) (w : World) : World :=
  {| now := now w; tokenCache := delete k (tokenCache w);
     pendingTokenRequests := pendingTokenRequests w; log := log w |}.

Definition tokenCache_delete (k : string) : M unit :=
  fun w => (Ok tt, tokenCache_delete_w k w).

Definition tokenCache_get (k : string) : M (option CachedToken) :=
  fun w => (Ok (tokenCache w !! k), w).

Definition pending_get (k : string) : M (option (Result (option string))) :=
  fun w => (Ok (pendingTokenRequests w !! k), w).

Definition pending_set (k : string) (p : Result (option string)) : M unit :=
  fun w => (Ok tt,
            {| now := now w; tokenCache := tokenCache w;
               pendingTokenRequests := <[k := p]> (pendingTokenRequests w);
               log := log w |}).

Definition pending_delete_w (k : string) (w : World) : World :=
  {| now := now w; tokenCache := tokenCache w;
     pendingTokenRequests := delete k (pendingTokenRequests w); log := log w |}.

(** ** utils.ts and the middleware class *)

Section Middleware.

(** Two functions of the platform: [new URL(u).origin] and the
    percent-encoding done by [URLSearchParams.toString]. *)
Variable url_origin : string -> string.
Variable form_encode : string -> string.

Variable config : CrossAppAccessConfig.

(** [buildFormData]: the entries with a defined value, in order. *)
Definition buildFormData (data : list (string * option string)) : string :=
  Str.join "&"
    (omap (fun e : string * option string =>
             match snd e with
             | Some v => Some (form_encode (fst e) +:+ "=" +:+ form_encode v)
             | None => None
             end) data).

Definition getResourceUrl (request : Request) : string :=
  url_origin (url request).

(** [accessToken] is declared a string; at run time it is whatever the
    token response or the cache held, [undefined] included, and the
    template literal prints it. *)
Definition cloneRequestWithAuth (request : Request) (accessToken : option string)
    : Result Request :=
  match HeadersOps.set "Authorization" ("Bearer " +:+ Str.template accessToken)
          (headers request) with
  | Throw e => Throw e
  | Ok headers' =>
      new_Request_from
        {| url := url request;
           method := method request;
           headers := headers';
           body := body request;
           referrer := referrer request;
           referrerPolicy := referrerPolicy request;
           mode := mode request;
           credentials := credentials request;
           cache := cache request;
           redirect := redirect request;
           integrity := integrity request |}
  end.

Definition isUnauthorized (response : Response) : bool := status response =? 401.

(** [await response.json()]; the text of the error is the platform's. *)
Definition json (response : Response) : M Json.object :=
  match response_json response with
  | Some j => ret j
  | None => throw "Unexpected token in JSON"
  end.

Definition extractOAuthError (response : Response) : M string :=
  r <- try_catch
         (errorData <- json response ;;
          if Str.truthy_opt (Json.error errorData) then
            ret (Some (if Str.truthy_opt (Json.error_description errorData)
                       then Str.template (Json.error_description errorData)
                       else Str.template (Json.error errorData)))
          else ret None)
         (fun _ => ret None) ;;
  match r with
  | Some msg => ret msg
  | None =>
      ret ("HTTP " +:+ Str.of_Z (status response) +:+ " " +:+ statusText response)
  end.

(** [this.fetchFn(request)]: one call of the transport. *)
Definition fetchFn (p : Purpose) (request : Request) : M Response :=
  fun w =>
    let reply := fetch_impl config (log w) request in
    (outcome reply, record (Fetched p request) (elapsed reply) w).

(** [fetchFn(url)] and [fetchFn(url, { method: 'POST', headers, body })]. *)
Definition GET (u : string) : Request := new_Request u "GET" [] None.

Definition POST_form (u : string) (b : string) : Request :=
  new_Request u "POST" [("Content-Type", "application/x-www-form-urlencoded")] (Some b).

(** One [try { ... } catch (error) { }] block of
    [discoverAuthorizationServerMetadata]: [Some] is its [return]. *)
Definition try_discovery (metadataUrl : string) : M (option Json.object) :=
  try_catch
    (response <- fetchFn ToMetadata (GET metadataUrl) ;;
     if ok response then
       j <- json response ;; ret (Some j)
     else ret None)
    (fun _ => ret None).

Definition oauth2MetadataUrl (issuerUrl : string) : string :=
  Str.strip_trailing_slash issuerUrl +:+ "/.well-known/oauth-authorization-server".

Definition oidcMetadataUrl (issuerUrl : string) : string :=
  Str.strip_trailing_slash issuerUrl +:+ "/.well-known/openid-configuration".

Definition discoverAuthorizationServerMetadata (issuerUrl : string) : M Json.object :=
  r1 <- try_discovery (oauth2MetadataUrl issuerUrl) ;;
  match r1 with
  | Some j => ret j
  | None =>
      r2 <- try_discovery (oidcMetadataUrl issuerUrl) ;;
      match r2 with
      | Some j => ret j
      | None =>
          throw ("Failed to discover authorization server metadata for " +:+ issuerUrl)
      end
  end.

Definition fetchProtectedResourceMetadata (metadataUrl : string) : M Json.object :=
  response <- fetchFn ToMetadata (GET metadataUrl) ;;
  if negb (ok response) then
    e <- extractOAuthError response ;;
    throw ("Failed to fetch protected resource metadata: " +:+ e)
  else json response.

Definition call_getIdToken : M string :=
  fun w => (getIdToken config (log w), record AskedIdToken 0 w).

Definition performTokenExchange (audience : string) (resource : option string)
    (tokenEndpoint : string) (scope : option string) : M (option string) :=
  idToken <- call_getIdToken ;;
  let requestBody :=
    [("grant_type", Some "urn:ietf:params:oauth:grant-type:token-exchange");
     ("requested_token_type", Some "urn:ietf:params:oauth:token-type:id-jag");
     ("audience", Some audience);
     ("resource", resource);
     ("subject_token", Some idToken);
     ("subject_token_type", Some "urn:ietf:params:oauth:token-type:id_token");
     ("client_id", Some (idpClientId config));
     ("client_secret", idpClientSecret config)]
    ++ (if Str.truthy_opt scope then [("scope", scope)] else []) in
  response <- fetchFn ToTokenEndpoint (POST_form (idpIssuerUrl config +:+ "/oauth2/token")
                         (buildFormData requestBody)) ;;
  if negb (ok response) then
    e <- extractOAuthError response ;;
    throw ("Token exchange failed: " +:+ e)
  else
    tokenResponse <- json response ;;
    if negb (bool_decide (Json.issued_token_type tokenResponse
                          = Some "urn:ietf:params:oauth:token-type:id-jag")) then
      throw ("Unexpected token type: "
               +:+ Str.template (Json.issued_token_type tokenResponse))
    else ret (Json.access_token tokenResponse).

Definition call_onAccessTokenReceived (tokenResponse : Json.object) : M unit :=
  match onAccessTokenReceived config with
  | Some hook =>
      fun w => (hook (log w) tokenResponse, record (Notified tokenResponse) 0 w)
  | None => ret tt
  end.

(** [tokenResponse.expires_in || 3600]. *)
Definition expiresIn_of (tokenResponse : Json.object) : Z :=
  match Json.expires_in tokenResponse with
  | Some n => if n =? 0 then 3600 else n
  | None => 3600
  end.

(** The request of [performJwtBearerGrant]. *)
Definition jwtBearerGrantRequest (idJag : option string) (tokenEndpoint : string)
    : Request :=
  let requestBody :=
    [("grant_type", Some "urn:ietf:params:oauth:grant-type:jwt-bearer");
     ("assertion", idJag);
     ("client_id", Some (mcpClientId config));
     ("client_secret", mcpClientSecret config)] in
  POST_form tokenEndpoint (buildFormData requestBody).

Definition performJwtBearerGrant (idJag : option string) (tokenEndpoint : string)
    : M (option string) :=
  response <- fetchFn ToTokenEndpoint (jwtBearerGrantRequest idJag tokenEndpoint) ;;
  if negb (ok response) then
    e <- extractOAuthError response ;;
    throw ("JWT bearer grant failed: " +:+ e)
  else
    tokenResponse <- json response ;;
    let expiresIn := expiresIn_of tokenResponse in
    t <- Date_now ;;
    let expiresAt := t + expiresIn * 1000 - 60000 in
    tokenCache_set (getResourceUrl (GET tokenEndpoint))
      {| token := Json.access_token tokenResponse; expiresAt := expiresAt |} ;;;
    call_onAccessTokenReceived tokenResponse ;;;
    ret (Json.access_token tokenResponse).

Definition performTokenAcquisition (resourceUrl metadataUrl : string)
    (scope : option string) : M (option string) :=
  metadata <- fetchProtectedResourceMetadata metadataUrl ;;
  match Json.authorization_servers metadata with
  | None | Some [] =>
      throw "No authorization servers found in protected resource metadata"
  | Some (authServerIssuer :: _) =>
      authServerMetadata <- discoverAuthorizationServerMetadata authServerIssuer ;;
      if negb (Str.truthy_opt (Json.token_endpoint authServerMetadata)) then
        throw "Authorization server metadata missing token_endpoint"
      else
        let token_endpoint := Str.template (Json.token_endpoint authServerMetadata) in
        idJag <- performTokenExchange authServerIssuer (Json.resource metadata)
                   token_endpoint scope ;;
        accessToken <- performJwtBearerGrant idJag token_endpoint ;;
        ret accessToken
  end.

(** [acquireAccessToken] has two pieces of code that run to completion:
    the one before its [await] and the one after.  [Suspended] is the
    point where a call waits in between: at [return pending], for the
    promise it found in the map, or at [await tokenPromise], for the
    acquisition it started. *)
Inductive Suspended : Type :=
| ReturnPending (pending : Result (option string))
| AwaitTokenPromise (tokenPromise : Result (option string)).

(** The code up to the [await]: the lookup and, when nothing is pending,
    the call [start] of [performTokenAcquisition], which returns its
    promise, and the [set]. *)
Definition acquireAccessToken_enter (resourceUrl : string)
    (start : M (Result (option string))) : M Suspended :=
  pending <- pending_get resourceUrl ;;
  match pending with
  | Some p => ret (ReturnPending p)
  | None =>
      tokenPromise <- start ;;
      pending_set resourceUrl tokenPromise ;;;
      ret (AwaitTokenPromise tokenPromise)
  end.

(** The code that runs once the awaited promise has settled: the return
    of its outcome, through the [finally] block for the caller that
    started the acquisition. *)
Definition acquireAccessToken_resume (resourceUrl : string) (s : Suspended)
    : M (option string) :=
  match s with
  | ReturnPending pending => await pending
  | AwaitTokenPromise tokenPromise =>
      try_finally (token <- await tokenPromise ;; ret token)
                  (pending_delete_w resourceUrl)
  end.

(** A call that no other code interleaves with: the acquisition it
    starts has run to its end when the promise is awaited. *)
Definition acquireAccessToken (resourceUrl metadataUrl : string)
    (scope : option string) : M (option string) :=
  suspended <- acquireAccessToken_enter resourceUrl
                 (promise_of (performTokenAcquisition resourceUrl metadataUrl scope)) ;;
  acquireAccessToken_resume resourceUrl suspended.

Definition handleUnauthorized (request : Request) (response : Response) : M Response :=
  let wwwAuth := HeadersOps.get "WWW-Authenticate" (response_headers response) in
  if negb (Str.truthy_opt wwwAuth) then ret response
  else
    let challenge := parseWwwAuthenticate (Str.template wwwAuth) in
    if negb (String.eqb (scheme challenge) "Bearer") then ret response
    else if negb (Str.truthy_opt (resource_metadata challenge)) then
      throw "WWW-Authenticate header missing resource_metadata URL"
    else
      let resourceUrl := getResourceUrl request in
      accessToken <- acquireAccessToken resourceUrl
                       (Str.template (resource_metadata challenge))
                       (scope challenge) ;;
      requestWithAuth <- call (cloneRequestWithAuth request accessToken) ;;
      fetchFn ToResource requestWithAuth.

Definition call_getCachedAccessToken (resourceUrl : string) : M (option string) :=
  match getCachedAccessToken config with
  | Some lookup =>
      fun w => (lookup (log w) resourceUrl, record (AskedCache resourceUrl) 0 w)
  | None => ret None
  end.

(** The internal half of [getCachedToken]. *)
Definition getCachedToken_internal (resourceUrl : string) : M (option string) :=
  cached <- tokenCache_get resourceUrl ;;
  t <- Date_now ;;
  match cached with
  | Some c => if expiresAt c >? t then ret (token c) else ret None
  | None => ret None
  end.

Definition getCachedToken (resourceUrl : string) : M (option string) :=
  cached <- call_getCachedAccessToken resourceUrl ;;
  if Str.truthy_opt cached then ret cached
  else getCachedToken_internal resourceUrl.

(** [fetch]: the entry point, on the request built by
    [new Request(input, init)]. *)
Definition fetch (request : Request) : M Response :=
  let resourceUrl := getResourceUrl request in
  cachedToken <- getCachedToken resourceUrl ;;
  early <-
    (if Str.truthy_opt cachedToken then
       requestWithAuth <- call (cloneRequestWithAuth request cachedToken) ;;
       response <- fetchFn ToResource requestWithAuth ;;
       if negb (isUnauthorized response) then ret (Some response)
       else tokenCache_delete resourceUrl ;;; ret None
     else ret None) ;;
  match early with
  | Some response => ret response
  | None =>
      response <- fetchFn ToResource request ;;
      if negb (isUnauthorized response) then ret response
      else handleUnauthorized request response
  end.

Definition clearTokenCache : M unit :=
  fun w => (Ok tt,
            {| now := now w; tokenCache := ∅;
               pendingTokenRequests := pendingTokenRequests w; log := log w |}).

Definition clearTokenForResource (resourceUrl : string) : M unit :=
  tokenCache_delete resourceUrl.

End Middleware.

(** ** A concrete deployment, for evaluation *)

Module Scenario.

(** Origin of an absolute URL without default port: everything before
    the third slash. *)
Fixpoint before_nth_slash (n : nat) (s : string) : string :=
  match s with
  | EmptyString => EmptyString
  | String c t =>
      if Chars.is_slash c then
        match n with
        | O => EmptyString
        | S n' => String c (before_nth_slash n' t)
        end
      else String c (before_nth_slash n t)
  end.

Definition origin (u : string) : string := before_nth_slash 2 u.

Definition encode (s : string) : string := s.

Definition resource_url : string := "https://mcp.example.com/mcp".
Definition resource_origin : string := "https://mcp.example.com".
Definition metadata_url : string :=
  "https://mcp.example.com/.well-known/oauth-protected-resource".
Definition issuer : string := "https://auth.example.com/".
Definition auth_origin : string := "https://auth.example.com".
Definition token_url : string := "https://auth.example.com/token".
Definition idp : string := "https://idp.example.com".

Definition challenge_header : string :=
  "Bearer realm=" +:+ Str.quote "mcp" +:+ ", resource_metadata="
    +:+ Str.quote metadata_url.

Definition respond (st : Z) (txt : string) (h : Headers)
    (j : option Json.object) : Reply :=
  {| elapsed := 5;
     outcome := Ok {| status := st; statusText := txt; response_headers := h;
                      response_json := j |} |}.

Definition resource_metadata_doc : Json.object :=
  {| Json.error := None; Json.error_description := None;
     Json.resource := Some resource_origin;
     Json.authorization_servers := Some [issuer];
     Json.token_endpoint := None; Json.issued_token_type := None;
     Json.access_token := None; Json.token_type := None;
     Json.expires_in := None; Json.scope := None; Json.refresh_token := None |}.

Definition server_metadata_doc : Json.object :=
  {| Json.error := None; Json.error_description := None;
     Json.resource := None; Json.authorization_servers := None;
     Json.token_endpoint := Some token_url;
     Json.issued_token_type := None;
     Json.access_token := None; Json.token_type := None;
     Json.expires_in := None; Json.scope := None; Json.refresh_token := None |}.

Definition id_jag_doc : Json.object :=
  {| Json.error := None; Json.error_description := None;
     Json.resource := None; Json.authorization_servers := None;
     Json.token_endpoint := None;
     Json.issued_token_type := Some "urn:ietf:params:oauth:token-type:id-jag";
     Json.access_token := Some "id-jag-1"; Json.token_type := Some "N_A";
     Json.expires_in := Some 300; Json.scope := None; Json.refresh_token := None |}.

Definition access_token_doc : Json.object :=
  {| Json.error := None; Json.error_description := None;
     Json.resource := None; Json.authorization_servers := None;
     Json.token_endpoint := None; Json.issued_token_type := None;
     Json.access_token := Some "at-1"; Json.token_type := Some "Bearer";
     Json.expires_in := Some 3600; Json.scope := None; Json.refresh_token := None |}.

(** The network: a resource server that wants the token [at-1], its
    metadata document, an authorization server on another origin, and
    the identity provider. *)
Definition network (_ : list Event) (r : Request) : Reply :=
  if String.eqb (url r) resource_url then
    match HeadersOps.get "Authorization" (headers r) with
    | Some "Bearer at-1" => respond 200 "OK" [] None
    | _ => respond 401 "Unauthorized" [("WWW-Authenticate", challenge_header)] None
    end
  else if String.eqb (url r) metadata_url then
    respond 200 "OK" [] (Some resource_metadata_doc)
  else if String.eqb (url r)
            "https://auth.example.com/.well-known/oauth-authorization-server" then
    respond 200 "OK" [] (Some server_metadata_doc)
  else if String.eqb (url r) "https://idp.example.com/oauth2/token" then
    respond 200 "OK" [] (Some id_jag_doc)
  else if String.eqb (url r) token_url then
    respond 200 "OK" [] (Some access_token_doc)
  else respond 404 "Not Found" [] None.

Definition config : CrossAppAccessConfig :=
  {| getIdToken := fun _ => Ok "id-token-1";
     idpIssuerUrl := idp;
     idpClientId := "client-a";
     idpClientSecret := None;
     mcpClientId := "client-b";
     mcpClientSecret := Some "s3cret";
     fetch_impl := network;
     onAccessTokenReceived := None;
     getCachedAccessToken := None |}.

Definition start (t : Z) : World :=
  {| now := t; tokenCache := ∅; pendingTokenRequests := ∅; log := [] |}.

Definition request : Request := GET resource_url.

Definition purposes (es : list Event) : list (Purpose * string) :=
  omap (fun e => match e with Fetched p r => Some (p, url r) | _ => None end) es.

End Scenario.

(** ** Challenge headers as the servers write them *)

Module Header.

(** One [key=value] pair of a challenge, with its quoting style. *)
Record auth_param := {
  key : string;
  value : string;
  quoted : bool;
}.

Definition render_param (p : auth_param) : string :=
  key p +:+ "=" +:+ (if quoted p then Str.quote (value p) else value p).

(** The scheme, a space, and the parameters separated by comma and
    space. *)
Definition render (scheme : string) (ps : list auth_param) : string :=
  match ps with
  | [] => scheme
  | _ => scheme +:+ " " +:+ Str.join ", " (map render_param ps)
  end.

(** The value that a header declares for [name]: a later pair with the
    same key replaces an earlier one. *)
Fixpoint declared (name : string) (ps : list auth_param) : option string :=
  match ps with
  | [] => None
  | p :: r =>
      match declared name r with
      | Some v => Some v
      | None => if String.eqb (key p) name then Some (value p) else None
      end
  end.

Definition unquoted_char (c : ascii) : bool :=
  (Chars.not_space_comma c && Chars.not_dquote c)%bool.

(** The pairs the parameter pattern reads back: the key is a word, a
    quoted value is not empty and holds no double quote, an unquoted
    value holds no white space, comma or double quote. *)
Definition readable (p : auth_param) : bool :=
  (Str.truthy (key p) && Str.all Chars.is_word (key p)
   && (if quoted p
       then Str.truthy (value p) && Str.all Chars.not_dquote (value p)
       else Str.all unquoted_char (value p)))%bool.

(** The token characters of RFC 7230, section 3.2.6. *)
Definition tchar (c : ascii) : bool :=
  let n := Chars.code c in
  (Nat.eqb n 33 || Chars.between 35 39 n || Nat.eqb n 42 || Nat.eqb n 43
   || Nat.eqb n 45 || Nat.eqb n 46 || Chars.between 48 57 n
   || Chars.between 65 90 n || Chars.between 94 122 n
   || Nat.eqb n 124 || Nat.eqb n 126)%bool.

(** The text of a quoted string without escapes: any printable
    character but the double quote and the backslash. *)
Definition qdtext (c : ascii) : bool :=
  let n := Chars.code c in
  (Nat.eqb n 9 || Nat.eqb n 32 || Nat.eqb n 33 || Chars.between 35 91 n
   || Chars.between 93 126 n)%bool.

(** An [auth-param] of RFC 7235: a token, then a token or a quoted
    string. *)
Definition rfc_param (p : auth_param) : bool :=
  (Str.truthy (key p) && Str.all tchar (key p)
   && (if quoted p
       then Str.all qdtext (value p)
       else Str.truthy (value p) && Str.all tchar (value p)))%bool.

(** What the parser is expected to return on [render "Bearer" ps]. *)
Definition expected (ps : list auth_param) : WwwAuthenticateChallenge :=
  {| scheme := "Bearer";
     realm := declared "realm" ps;
     scope := declared "scope" ps;
     error := declared "error" ps;
     error_description := declared "error_description" ps;
     resource_metadata := declared "resource_metadata" ps |}.

End Header.

(** ** The log of a call *)

Definition resource_requests (es : list Event) : list Request :=
  omap (fun e => match e with Fetched ToResource r => Some r | _ => None end) es.

(** Calls to metadata documents, token endpoints and the identity-token
    supplier: the discovery and exchange traffic. *)
Definition is_acquisition_event (e : Event) : bool :=
  match e with
  | Fetched ToMetadata _ | Fetched ToTokenEndpoint _ | AskedIdToken | Notified _ => true
  | _ => false
  end.

Definition set_now (t : Z) (w : World) : World :=
  {| now := t; tokenCache := tokenCache w;
     pendingTokenRequests := pendingTokenRequests w; log := log w |}.

(** ** Interleaved calls of [acquireAccessToken]

    JavaScript runs the code between two [await]s to completion, so the
    calls of [acquireAccessToken] that several callers make interleave
    piece by piece: [acquireAccessToken_enter] of one caller,
    [acquireAccessToken_resume] of another, and in between whatever else
    the middleware does.  The machine below runs these pieces, in any
    order, on the fields of the middleware.

    A promise in [pendingTokenRequests] is represented by its outcome, so
    a caller that starts an acquisition names the outcome that the
    acquisition is going to have.  Which promise is which, and whether it
    has settled, is book-keeping of the machine: the code cannot see it. *)

(** A computation that leaves [pendingTokenRequests] alone. *)
Definition keeps_pending {A} (m : M A) : Prop :=
  forall w, pendingTokenRequests (snd (m w)) = pendingTokenRequests w.

Module SingleFlight.

(** One call of [performTokenAcquisition]: the key it was started for,
    its promise, and whether the promise has settled. *)
Record acquisition := {
  acq_key : string;
  acq_promise : Result (option string);
  acq_settled : bool;
}.

Inductive caller : Type :=
| Waiting (resourceUrl : string) (s : Suspended) (a : nat)
    (* between the two pieces, at [s], for the promise of acquisition [a] *)
| Returned (a : nat) (r : Result (option string)).
    (* the call has ended with [r], the outcome of acquisition [a] *)

Record state := {
  world : World;
  acquisitions : gmap nat acquisition;
  registered : gmap string nat;
    (* the acquisition whose promise is the entry of the map *)
  callers : gmap nat caller;
  next : nat;
}.

(** The middleware as its constructor leaves it. *)
Definition init : state :=
  {| world := {| now := 0; tokenCache := ∅; pendingTokenRequests := ∅; log := [] |};
     acquisitions := ∅; registered := ∅; callers := ∅; next := O |}.

Inductive label : Type :=
| Call (c : nat) (resourceUrl : string) (outcome : Result (option string))
    (* caller [c] enters acquireAccessToken(resourceUrl, ...); an
       acquisition that this call starts is going to end with [outcome] *)
| Settle (a : nat)
    (* the promise of acquisition [a] settles *)
| Resume (c : nat)
    (* the awaited promise has settled: the rest of the call of [c] runs *)
| Elsewhere (t : Z) (cache : gmap string CachedToken) (l : list Event).
    (* other code runs: the steps of an acquisition, the other methods;
       it moves the clock, the token cache and the log *)

Definition step (s : state) (l : label) : option state :=
  match l with
  | Call c k r =>
      match callers s !! c with
      | Some _ => None
      | None =>
          match acquireAccessToken_enter k (ret r) (world s) with
          | (Ok (AwaitTokenPromise p), w') =>
              let a := next s in
              Some {| world := w';
                      acquisitions :=
                        <[a := {| acq_key := k; acq_promise := p;
                                  acq_settled := false |}]> (acquisitions s);
                      registered := <[k := a]> (registered s);
                      callers := <[c := Waiting k (AwaitTokenPromise p) a]> (callers s);
                      next := S a |}
          | (Ok (ReturnPending p), w') =>
              match registered s !! k with
              | Some a =>
                  Some {| world := w'; acquisitions := acquisitions s;
                          registered := registered s;
                          callers := <[c := Waiting k (ReturnPending p) a]> (callers s);
                          next := next s |}
              | None => None
              end
          | (Throw _, _) => None
          end
      end
  | Settle a =>
      match acquisitions s !! a with
      | Some acq =>
          if acq_settled acq then None
          else
            Some {| world := world s;
                    acquisitions :=
                      <[a := {| acq_key := acq_key acq; acq_promise := acq_promise acq;
                                acq_settled := true |}]> (acquisitions s);
                    registered := registered s; callers := callers s;
                    next := next s |}
      | None => None
      end
  | Resume c =>
      match callers s !! c with
      | Some (Waiting k suspended a) =>
          match acquisitions s !! a with
          | Some acq =>
              if acq_settled acq then
                let '(r, w') := acquireAccessToken_resume k suspended (world s) in
                Some {| world := w'; acquisitions := acquisitions s;
                        registered :=
                          match suspended with
                          | AwaitTokenPromise _ => delete k (registered s)
                          | ReturnPending _ => registered s
                          end;
                        callers := <[c := Returned a r]> (callers s);
                        next := next s |}
              else None
          | None => None
          end
      | _ => None
      end
  | Elsewhere t cache l =>
      Some {| world := {| now := t; tokenCache := cache;
                          pendingTokenRequests := pendingTokenRequests (world s);
                          log := l |};
              acquisitions := acquisitions s; registered := registered s;
              callers := callers s; next := next s |}
  end.

Fixpoint run (s : state) (ls : list label) : option state :=
  match ls with
  | [] => Some s
  | l :: r =>
      match step s l with
      | Some s' => run s' r
      | None => None
      end
  end.

(** The acquisition [a] has started and its promise has not settled. *)
Definition in_flight (s : state) (a : nat) (acq : acquisition) : Prop :=
  acquisitions s !! a = Some acq /\ acq_settled acq = false.

(** The promise that a waiting caller holds. *)
Definition awaited (s : Suspended) : Result (option string) :=
  match s with
  | ReturnPending p => p
  | AwaitTokenPromise p => p
  end.

(** What holds in every state the machine reaches. *)
Record invariant (s : state) : Prop := {
  inv_in_flight : forall a acq,
    acquisitions s !! a = Some acq -> acq_settled acq = false ->
    registered s !! acq_key acq = Some a;
  inv_entry : forall k,
    match registered s !! k with
    | Some a =>
        exists acq, acquisitions s !! a = Some acq /\ acq_key acq = k
                    /\ pendingTokenRequests (world s) !! k = Some (acq_promise acq)
    | None => pendingTokenRequests (world s) !! k = None
    end;
  inv_waiting : forall c k suspended a,
    callers s !! c = Some (Waiting k suspended a) ->
    exists acq, acquisitions s !! a = Some acq /\ acq_key acq = k
                /\ acq_promise acq = awaited suspended;
  inv_owner : forall c k p a,
    callers s !! c = Some (Waiting k (AwaitTokenPromise p) a) ->
    registered s !! k = Some a;
  inv_owner_unique : forall c1 c2 k1 k2 p1 p2 a,
    callers s !! c1 = Some (Waiting k1 (AwaitTokenPromise p1) a) ->
    callers s !! c2 = Some (Waiting k2 (AwaitTokenPromise p2) a) -> c1 = c2;
  inv_fresh : forall a, (next s <= a)%nat -> acquisitions s !! a = None;
  inv_returned : forall c a r,
    callers s !! c = Some (Returned a r) ->
    exists acq, acquisitions s !! a = Some acq /\ acq_promise acq = r
                /\ acq_settled acq = true;
}.

(** The state in which one caller meets the middleware in the world [w]
    with nothing pending. *)
Definition alone (w : World) : state :=
  {| world := w; acquisitions := ∅; registered := ∅; callers := ∅; next := O |}.

End SingleFlight.

(** A computation that sends nothing to the resource: it only appends to
    the log, and none of the new calls carries the caller's request. *)
Definition quiet {A} (m : M A) : Prop :=
  forall w, exists es, log (snd (m w)) = log w ++ es /\ resource_requests es = [].

(** The events that a computation started in [w] added to the log. *)
Definition new_events (w w' : World) : list Event :=
  drop (length (log w)) (log w').

(** Whether [fetch] finds a token to attach to its first attempt. *)
Definition attaches_cached_token (url_origin : string -> string)
    (config : CrossAppAccessConfig) (request : Request) (w : World) : bool :=
  match fst (getCachedToken config (getResourceUrl url_origin request) w) with
  | Ok c => Str.truthy_opt c
  | Throw _ => false
  end.

(** The world in which [performJwtBearerGrant] stores the token: the
    transport has answered the token request. *)
Definition after_token_request (config : CrossAppAccessConfig)
    (request : Request) (w : World) : World :=
  record (Fetched ToTokenEndpoint request)
         (elapsed (fetch_impl config (log w) request)) w.

Module Scenario2.

Import Scenario.

(** The deployment of [Scenario] with an external cache that still holds
    a token which the resource server no longer accepts. *)
Definition config_stale_cache : CrossAppAccessConfig :=
  {| getIdToken := getIdToken config;
     idpIssuerUrl := idpIssuerUrl config;
     idpClientId := idpClientId config;
     idpClientSecret := idpClientSecret config;
     mcpClientId := mcpClientId config;
     mcpClientSecret := mcpClientSecret config;
     fetch_impl := fetch_impl config;
     onAccessTokenReceived := None;
     getCachedAccessToken := Some (fun _ _ => Ok (Some "stale")) |}.


(** An authorization server whose first discovery document is served
    with status 200 but is not JSON. *)
Definition network_html (l : list Event) (r : Request) : Reply :=
  if String.eqb (url r)
       "https://auth.example.com/.well-known/oauth-authorization-server" then
    respond 200 "OK" [] None
  else if String.eqb (url r)
       "https://auth.example.com/.well-known/openid-configuration" then
    respond 200 "OK" [] (Some server_metadata_doc)
  else network l r.

Definition config_html : CrossAppAccessConfig :=
  {| getIdToken := getIdToken config;
     idpIssuerUrl := idpIssuerUrl config;
     idpClientId := idpClientId config;
     idpClientSecret := idpClientSecret config;
     mcpClientId := mcpClientId config;
     mcpClientSecret := mcpClientSecret config;
     fetch_impl := network_html;
     onAccessTokenReceived := None;
     getCachedAccessToken := None |}.

End Scenario2.

(** The document that one discovery attempt yields: the call resolved, the
    status is in the range 200 to 299 and the body is JSON. *)
Definition discovered (reply : Reply) : option Json.object :=
  match outcome reply with
  | Ok response => if ok response then response_json response else None
  | Throw _ => None
  end.

(** ** Challenge headers with any separators *)

Module Layout.

(** A separator, between the scheme and a pair or between two pairs, is
    one character or more, each a comma or white space. *)
Definition separator_char (c : ascii) : bool :=
  (Chars.is_space c || Chars.is_comma c)%bool.

Definition separator (s : string) : bool :=
  (Str.truthy s && Str.all separator_char s)%bool.

(** The pairs of a header, each after a separator of its own. *)
Fixpoint pairs (l : list (string * Header.auth_param)) : string :=
  match l with
  | [] => EmptyString
  | e :: r => fst e +:+ Header.render_param (snd e) +:+ pairs r
  end.

Definition render (scheme : string) (l : list (string * Header.auth_param)) : string :=
  scheme +:+ pairs l.

Definition well_formed (e : string * Header.auth_param) : bool :=
  (separator (fst e) && Header.readable (snd e))%bool.

End Layout.

Module ParserSpec.

(** A greedy class match stops at [r]: at the end of the input or at a
    character outside the class. *)
Definition stops (p : ascii -> bool) (r : string) : Prop :=
  match r with
  | EmptyString => True
  | String c _ => p c = false
  end.

(** The assignment that the loop makes for one pair. *)
Definition store (c : WwwAuthenticateChallenge) (p : Header.auth_param)
    : WwwAuthenticateChallenge :=
  Parser.assign (Header.key p) (Some (Header.value p)) c.

(** A later pair replaces the value of an earlier one. *)
Definition latest (name : string) (ps : list Header.auth_param)
    (old : option string) : option string :=
  match Header.declared name ps with
  | Some v => Some v
  | None => old
  end.

End ParserSpec.

Module Samples.

(** Three pairs in two quoting styles: after a space, after a comma, and
    after a comma between spaces. *)
Definition spaced : list (string * Header.auth_param) :=
  [ (" ", {| Header.key := "scope"; Header.value := "read"; Header.quoted := false |});
    (",", {| Header.key := "realm"; Header.value := "mcp"; Header.quoted := true |});
    (" ,  ",
     {| Header.key := "resource_metadata";
        Header.value := "https://mcp.example.com/.well-known/oauth-protected-resource";
        Header.quoted := true |}) ].

(** A parameter whose name is a token but not a word. *)
Definition hyphenated : list Header.auth_param :=
  [ {| Header.key := "x-scope"; Header.value := "admin"; Header.quoted := true |} ].

(** A realm given as the empty quoted string. *)
Definition empty_realm : list Header.auth_param :=
  [ {| Header.key := "realm"; Header.value := EmptyString; Header.quoted := true |} ].

End Samples.

(** ** More of the middleware, for the properties beyond the claims *)

(** The request of [performTokenExchange]: it goes to the token endpoint
    of the identity provider, built from [idpIssuerUrl]. *)
Definition tokenExchangeRequest (form_encode : string -> string)
    (config : CrossAppAccessConfig) (audience : string) (resource : option string)
    (idToken : string) (scope : option string) : Request :=
  let requestBody :=
    [("grant_type", Some "urn:ietf:params:oauth:grant-type:token-exchange");
     ("requested_token_type", Some "urn:ietf:params:oauth:token-type:id-jag");
     ("audience", Some audience);
     ("resource", resource);
     ("subject_token", Some idToken);
     ("subject_token_type", Some "urn:ietf:params:oauth:token-type:id_token");
     ("client_id", Some (idpClientId config));
     ("client_secret", idpClientSecret config)]
    ++ (if Str.truthy_opt scope then [("scope", scope)] else []) in
  POST_form (idpIssuerUrl config +:+ "/oauth2/token")
    (buildFormData form_encode requestBody).

(** The status line that [extractOAuthError] falls back to. *)
Definition status_line (response : Response) : string :=
  "HTTP " +:+ Str.of_Z (status response) +:+ " " +:+ statusText response.

(** The part of [fetch] from the bare attempt on. *)
Definition bare_attempt (url_origin form_encode : string -> string)
    (config : CrossAppAccessConfig) (request : Request) : M Response :=
  response <- fetchFn config ToResource request ;;
  if negb (isUnauthorized response) then ret response
  else handleUnauthorized url_origin form_encode config request response.

(** The world after one call of the transport. *)
Definition after_fetch (config : CrossAppAccessConfig) (p : Purpose)
    (request : Request) (w : World) : World :=
  record (Fetched p request) (elapsed (fetch_impl config (log w) request)) w.

(** ** examples/node.ts: [ServerTokenManager] *)

Module ServerTokenManager.

(** A value of the map [accessTokens]. *)
Record entry := {
  token : string;
  expiresAt : Z;
}.

(** The two private maps of the class. *)
Record state := {
  idTokens : gmap string string;
  accessTokens : gmap string entry;
}.

Definition empty : state := {| idTokens := ∅; accessTokens := ∅ |}.

(** [s.startsWith(p)]. *)
Fixpoint startsWith (s p : string) {struct p} : bool :=
  match p with
  | EmptyString => true
  | String c p' =>
      match s with
      | String d s' => (Ascii.eqb c d && startsWith s' p')%bool
      | EmptyString => false
      end
  end.

(** The key of an access token: the user, a colon, the resource. *)
Definition key_of (userId resourceUrl : string) : string :=
  userId +:+ ":" +:+ resourceUrl.

Definition setIdToken (userId idToken : string) (s : state) : state :=
  {| idTokens := <[userId := idToken]> (idTokens s);
     accessTokens := accessTokens s |}.

Definition getIdToken (userId : string) (s : state) : Result string :=
  match idTokens s !! userId with
  | Some t =>
      if Str.truthy t then Ok t
      else Throw ("No ID Token found for user " +:+ userId)
  | None => Throw ("No ID Token found for user " +:+ userId)
  end.

(** [getCachedAccessToken] at the clock reading [t]: the result and the
    state it leaves. *)
Definition getCachedAccessToken (t : Z) (userId resourceUrl : string) (s : state)
    : option string * state :=
  let key := key_of userId resourceUrl in
  match accessTokens s !! key with
  | None => (None, s)
  | Some cached =>
      if t <? expiresAt cached - 60000 then (Some (token cached), s)
      else (None, {| idTokens := idTokens s;
                     accessTokens := delete key (accessTokens s) |})
  end.

(** [setAccessToken] at the clock reading [t]. *)
Definition setAccessToken (t : Z) (userId resourceUrl tok : string) (expiresIn : Z)
    (s : state) : state :=
  let key := key_of userId resourceUrl in
  let expiresAt := t + expiresIn * 1000 in
  {| idTokens := idTokens s;
     accessTokens := <[key := {| token := tok; expiresAt := expiresAt |}]>
                       (accessTokens s) |}.

(** [clearUserTokens]: the loop deletes every key that starts with the
    user and a colon. *)
Definition clearUserTokens (userId : string) (s : state) : state :=
  {| idTokens := delete userId (idTokens s);
     accessTokens :=
       filter (fun kv : string * entry =>
                 startsWith (fst kv) (userId +:+ ":") = false)
              (accessTokens s) |}.

End ServerTokenManager.

(** ** Variations of the deployment *)

Module Scenario3.

Import Scenario.

(** The network of [Scenario] with the answer for one URL replaced. *)
Definition network_with (u : string) (reply : Reply)
    (l : list Event) (r : Request) : Reply :=
  if String.eqb (url r) u then reply else network l r.

(** The deployment of [Scenario] on another network, with another
    supplier of the identity token and another external cache. *)
Definition config_with (net : list Event -> Request -> Reply)
    (idToken : Result string)
    (external : option (list Event -> string -> Result (option string)))
    : CrossAppAccessConfig :=
  {| getIdToken := fun _ => idToken;
     idpIssuerUrl := idpIssuerUrl config;
     idpClientId := idpClientId config;
     idpClientSecret := idpClientSecret config;
     mcpClientId := mcpClientId config;
     mcpClientSecret := mcpClientSecret config;
     fetch_impl := net;
     onAccessTokenReceived := None;
     getCachedAccessToken := external |}.

Definition oauth_error (e : string) (d : option string) : Json.object :=
  {| Json.error := Some e; Json.error_description := d;
     Json.resource := None; Json.authorization_servers := None;
     Json.token_endpoint := None; Json.issued_token_type := None;
     Json.access_token := None; Json.token_type := None;
     Json.expires_in := None; Json.scope := None; Json.refresh_token := None |}.

(** Metadata that names no authorization server. *)
Definition no_servers_doc : Json.object :=
  {| Json.error := None; Json.error_description := None;
     Json.resource := Some resource_origin; Json.authorization_servers := Some [];
     Json.token_endpoint := None; Json.issued_token_type := None;
     Json.access_token := None; Json.token_type := None;
     Json.expires_in := None; Json.scope := None; Json.refresh_token := None |}.


(** A resource server that rejects the token [stale] and nothing else. *)
Definition network_open (l : list Event) (r : Request) : Reply :=
  if String.eqb (url r) resource_url then
    match HeadersOps.get "Authorization" (headers r) with
    | Some "Bearer stale" =>
        respond 401 "Unauthorized" [("WWW-Authenticate", challenge_header)] None
    | _ => respond 200 "OK" [] None
    end
  else network l r.



Definition unauthorized : Response :=
  {| status := 401; statusText := "Unauthorized";
     response_headers := [("WWW-Authenticate", challenge_header)];
     response_json := None |}.

Definition okay (j : option Json.object) : Response :=
  {| status := 200; statusText := "OK"; response_headers := [];
     response_json := j |}.

End Scenario3.

(** [r] is a copy of [request] that [cloneRequestWithAuth] returned. *)
Definition copy_of (request r : Request) : Prop :=
  exists accessToken, cloneRequestWithAuth request accessToken = Ok r.

(** * Evaluation on concrete inputs *)

Example parse_example_1 :
  parseWwwAuthenticate
    ("Bearer realm=" +:+ Str.quote "mcp" +:+ ", scope=read, resource_metadata="
       +:+ Str.quote "https://mcp.example.com/.well-known/oauth-protected-resource")
  = {| scheme := "Bearer"; realm := Some "mcp"; scope := Some "read";
       error := None; error_description := None;
       resource_metadata :=
         Some "https://mcp.example.com/.well-known/oauth-protected-resource" |}.
Proof. vm_compute. reflexivity. Qed.

Example scenario_round_trip :
  let '(r, w) := fetch Scenario.origin Scenario.encode Scenario.config
                   Scenario.request (Scenario.start 1000) in
  (match r with Ok resp => Some (status resp) | Throw _ => None end) = Some 200
  /\ Scenario.purposes (log w)
     = [(ToResource, Scenario.resource_url);
        (ToMetadata, Scenario.metadata_url);
        (ToMetadata, "https://auth.example.com/.well-known/oauth-authorization-server");
        (ToTokenEndpoint, "https://idp.example.com/oauth2/token");
        (ToTokenEndpoint, Scenario.token_url);
        (ToResource, Scenario.resource_url)]
  /\ tokenCache w !! Scenario.auth_origin
     = Some {| token := Some "at-1"; expiresAt := 1000 + 25 + 3600 * 1000 - 60000 |}
  /\ tokenCache w !! Scenario.resource_origin = None
  /\ pendingTokenRequests w = ∅.
Proof. vm_compute. repeat split. Qed.

(** * Headers and [cloneRequestWithAuth] *)

Lemma same_name_refl n v : HeadersOps.same_name n (n, v) = true.
Proof. unfold HeadersOps.same_name. simpl. apply String.eqb_refl. Qed.

Lemma values_replaced_same n v h :
  HeadersOps.values n
    (filter (fun e => HeadersOps.same_name n e = false) h ++ [(n, v)]) = [v].
Proof.
  unfold HeadersOps.values.
  rewrite filter_app, map_app.
  assert (Hnone : filter (fun e => HeadersOps.same_name n e = true)
                    (filter (fun e => HeadersOps.same_name n e = false) h) = []).
  { induction h as [|e h IH]; [reflexivity|].
    destruct (HeadersOps.same_name n e) eqn:E.
    - rewrite (filter_cons_False _ e h) by (rewrite E; discriminate). exact IH.
    - rewrite (filter_cons_True _ e h) by exact E.
      rewrite filter_cons_False by (rewrite E; discriminate). exact IH. }
  rewrite Hnone.
  rewrite filter_cons_True by apply same_name_refl. reflexivity.
Qed.


(** A [set] that is accepted stores the normalized value. *)
Lemma set_ok n v h h' :
  HeadersOps.set n v h = Ok h' ->
  HeadersOps.valid n (HeadersOps.normalize v) = true
  /\ h' = filter (fun e => HeadersOps.same_name n e = false) h
          ++ [(n, HeadersOps.normalize v)].
Proof.
  unfold HeadersOps.set.
  destruct (HeadersOps.valid n (HeadersOps.normalize v)); [|discriminate].
  intros [= <-]. split; reflexivity.
Qed.



(** What [cloneRequestWithAuth] returns, when it returns: the request
    had no body, the header was accepted, and the other members are
    those of the request. *)
Lemma clone_ok request accessToken r :
  cloneRequestWithAuth request accessToken = Ok r ->
  body request = None
  /\ exists headers',
       HeadersOps.set "Authorization" ("Bearer " +:+ Str.template accessToken)
         (headers request) = Ok headers'
       /\ r = {| url := url request; method := method request; headers := headers';
                 body := None; referrer := referrer request;
                 referrerPolicy := referrerPolicy request; mode := mode request;
                 credentials := credentials request; cache := cache request;
                 redirect := redirect request; integrity := integrity request |}.
Proof.
  unfold cloneRequestWithAuth, new_Request_from.
  destruct (HeadersOps.set _ _ _) as [h'|e]; [|discriminate].
  cbn [body]. destruct (body request) as [b|] eqn:Hb; [discriminate|].
  intros [= <-]. split; [reflexivity|]. exists h'. split; reflexivity.
Qed.

(** The two ways in which [cloneRequestWithAuth] throws. *)
Lemma clone_throws request accessToken :
  body request <> None
  \/ HeadersOps.valid "Authorization"
       (HeadersOps.normalize ("Bearer " +:+ Str.template accessToken)) = false ->
  exists e, cloneRequestWithAuth request accessToken = Throw e.
Proof.
  unfold cloneRequestWithAuth, new_Request_from, HeadersOps.set.
  intros [Hb|Hv].
  - destruct (HeadersOps.valid _ _); [|eexists; reflexivity].
    cbn [body]. destruct (body request); [eexists; reflexivity | congruence].
  - rewrite Hv. eexists. reflexivity.
Qed.

(** * The log of the acquisition pipeline *)

Lemma resource_requests_app a b :
  resource_requests (a ++ b) = resource_requests a ++ resource_requests b.
Proof. unfold resource_requests. apply omap_app. Qed.

Lemma quiet_ret {A} (a : A) : quiet (ret a).
Proof. intros w. exists []. simpl. rewrite app_nil_r. split; reflexivity. Qed.

Lemma quiet_throw {A} msg : quiet (@throw A msg).
Proof. intros w. exists []. simpl. rewrite app_nil_r. split; reflexivity. Qed.

Lemma quiet_bind {A B} (m : M A) (k : A -> M B) :
  quiet m -> (forall a, quiet (k a)) -> quiet (bind m k).
Proof.
  intros Hm Hk w. unfold bind.
  destruct (Hm w) as (e1 & L1 & Q1).
  destruct (m w) as [[a|msg] w1]; simpl in *.
  - destruct (Hk a w1) as (e2 & L2 & Q2).
    exists (e1 ++ e2). rewrite L2, L1, app_assoc. split; [reflexivity|].
    rewrite resource_requests_app, Q1, Q2. reflexivity.
  - exists e1. split; assumption.
Qed.

Lemma quiet_try_catch {A} (m : M A) (h : string -> M A) :
  quiet m -> (forall e, quiet (h e)) -> quiet (try_catch m h).
Proof.
  intros Hm Hh w. unfold try_catch.
  destruct (Hm w) as (e1 & L1 & Q1).
  destruct (m w) as [[a|msg] w1]; simpl in *.
  - exists e1. split; assumption.
  - destruct (Hh msg w1) as (e2 & L2 & Q2).
    exists (e1 ++ e2). rewrite L2, L1, app_assoc. split; [reflexivity|].
    rewrite resource_requests_app, Q1, Q2. reflexivity.
Qed.

Lemma quiet_silent {A} (m : M A) :
  (forall w, log (snd (m w)) = log w) -> quiet m.
Proof. intros H w. exists []. rewrite app_nil_r. split; [apply H | reflexivity]. Qed.

Lemma quiet_try_finally {A} (m : M A) (f : World -> World) :
  quiet m -> (forall w, log (f w) = log w) -> quiet (try_finally m f).
Proof.
  intros Hm Hf w. unfold try_finally.
  destruct (Hm w) as (e1 & L1 & Q1).
  destruct (m w) as [r w1]; simpl in *.
  exists e1. rewrite Hf. split; assumption.
Qed.

Lemma quiet_call {A} (r : Result A) : quiet (call r).
Proof. apply quiet_silent. reflexivity. Qed.

Lemma quiet_promise_of {A} (m : M A) : quiet m -> quiet (promise_of m).
Proof.
  intros Hm w. unfold promise_of.
  destruct (Hm w) as (e1 & L1 & Q1).
  destruct (m w) as [r w1]; simpl in *. exists e1. split; assumption.
Qed.

Section PipelineLog.

Variable url_origin : string -> string.
Variable form_encode : string -> string.
Variable config : CrossAppAccessConfig.

Lemma quiet_fetchFn p r : p <> ToResource -> quiet (fetchFn config p r).
Proof.
  intros Hp w. exists [Fetched p r]. split; [reflexivity|].
  destruct p; [congruence | reflexivity | reflexivity].
Qed.

Lemma quiet_json r : quiet (json r).
Proof. unfold json. destruct (response_json r); [apply quiet_ret | apply quiet_throw]. Qed.

Lemma quiet_extractOAuthError r : quiet (extractOAuthError r).
Proof.
  unfold extractOAuthError. apply quiet_bind.
  - apply quiet_try_catch; [|intros; apply quiet_ret].
    apply quiet_bind; [apply quiet_json|]. intros j.
    destruct (Str.truthy_opt (Json.error j)); apply quiet_ret.
  - intros [msg|]; apply quiet_ret.
Qed.

Lemma quiet_try_discovery u : quiet (try_discovery config u).
Proof.
  unfold try_discovery. apply quiet_try_catch; [|intros; apply quiet_ret].
  apply quiet_bind; [apply quiet_fetchFn; discriminate|]. intros r.
  destruct (ok r); [|apply quiet_ret].
  apply quiet_bind; [apply quiet_json | intros; apply quiet_ret].
Qed.

Lemma quiet_discover i : quiet (discoverAuthorizationServerMetadata config i).
Proof.
  unfold discoverAuthorizationServerMetadata.
  apply quiet_bind; [apply quiet_try_discovery|]. intros [j|]; [apply quiet_ret|].
  apply quiet_bind; [apply quiet_try_discovery|].
  intros [j|]; [apply quiet_ret | apply quiet_throw].
Qed.

Lemma quiet_fetchProtectedResourceMetadata u :
  quiet (fetchProtectedResourceMetadata config u).
Proof.
  unfold fetchProtectedResourceMetadata.
  apply quiet_bind; [apply quiet_fetchFn; discriminate|]. intros r.
  destruct (negb (ok r)); [|apply quiet_json].
  apply quiet_bind; [apply quiet_extractOAuthError | intros; apply quiet_throw].
Qed.

Lemma quiet_call_getIdToken : quiet (call_getIdToken config).
Proof. intros w. exists [AskedIdToken]. split; reflexivity. Qed.

Lemma quiet_performTokenExchange a r t s :
  quiet (performTokenExchange form_encode config a r t s).
Proof.
  unfold performTokenExchange.
  apply quiet_bind; [apply quiet_call_getIdToken|]. intros idToken.
  apply quiet_bind; [apply quiet_fetchFn; discriminate|]. intros resp.
  destruct (negb (ok resp)).
  - apply quiet_bind; [apply quiet_extractOAuthError | intros; apply quiet_throw].
  - apply quiet_bind; [apply quiet_json|]. intros j.
    destruct (negb _); [apply quiet_throw | apply quiet_ret].
Qed.

Lemma quiet_call_onAccessTokenReceived j :
  quiet (call_onAccessTokenReceived config j).
Proof.
  unfold call_onAccessTokenReceived.
  destruct (onAccessTokenReceived config) as [hook|]; [|apply quiet_ret].
  intros w. exists [Notified j]. split; reflexivity.
Qed.

Lemma quiet_performJwtBearerGrant i t :
  quiet (performJwtBearerGrant url_origin form_encode config i t).
Proof.
  unfold performJwtBearerGrant.
  apply quiet_bind; [apply quiet_fetchFn; discriminate|]. intros resp.
  destruct (negb (ok resp)).
  - apply quiet_bind; [apply quiet_extractOAuthError | intros; apply quiet_throw].
  - apply quiet_bind; [apply quiet_json|]. intros j.
    apply quiet_bind; [apply quiet_silent; reflexivity|]. intros t0.
    apply quiet_bind; [apply quiet_silent; reflexivity|]. intros _.
    apply quiet_bind; [apply quiet_call_onAccessTokenReceived|]. intros _.
    apply quiet_ret.
Qed.

Lemma quiet_performTokenAcquisition r m s :
  quiet (performTokenAcquisition url_origin form_encode config r m s).
Proof.
  unfold performTokenAcquisition.
  apply quiet_bind; [apply quiet_fetchProtectedResourceMetadata|]. intros md.
  destruct (Json.authorization_servers md) as [[|iss rest]|];
    try apply quiet_throw.
  apply quiet_bind; [apply quiet_discover|]. intros asm.
  destruct (negb _); [apply quiet_throw|].
  apply quiet_bind; [apply quiet_performTokenExchange|]. intros idJag.
  apply quiet_bind; [apply quiet_performJwtBearerGrant|]. intros tok.
  apply quiet_ret.
Qed.

Lemma quiet_acquireAccessToken r m s :
  quiet (acquireAccessToken url_origin form_encode config r m s).
Proof.
  unfold acquireAccessToken. apply quiet_bind.
  - unfold acquireAccessToken_enter.
    apply quiet_bind; [apply quiet_silent; reflexivity|]. intros [p|].
    + apply quiet_ret.
    + apply quiet_bind; [apply quiet_promise_of, quiet_performTokenAcquisition|].
      intros p. apply quiet_bind; [apply quiet_silent; reflexivity|]. intros _.
      apply quiet_ret.
  - intros [p|p]; unfold acquireAccessToken_resume.
    + apply quiet_silent. reflexivity.
    + apply quiet_try_finally; [|reflexivity].
      apply quiet_bind; [apply quiet_silent; reflexivity | intros; apply quiet_ret].
Qed.

Lemma quiet_getCachedToken r : quiet (getCachedToken config r).
Proof.
  unfold getCachedToken. apply quiet_bind.
  - unfold call_getCachedAccessToken.
    destruct (getCachedAccessToken config); [|apply quiet_ret].
    intros w. exists [AskedCache r]. split; reflexivity.
  - intros c. destruct (Str.truthy_opt c); [apply quiet_ret|].
    unfold getCachedToken_internal.
    apply quiet_bind; [apply quiet_silent; reflexivity|]. intros cached.
    apply quiet_bind; [apply quiet_silent; reflexivity|]. intros t.
    destruct cached as [c0|]; [|apply quiet_ret].
    destruct (expiresAt c0 >? t); apply quiet_ret.
Qed.

End PipelineLog.

(** * The requests that [fetch] sends to the resource *)

Section FetchLog.

Variable url_origin : string -> string.
Variable form_encode : string -> string.
Variable config : CrossAppAccessConfig.

Lemma fetchFn_log p r w :
  log (snd (fetchFn config p r w)) = log w ++ [Fetched p r].
Proof. reflexivity. Qed.

(** [handleUnauthorized] sends at most one request to the resource, and
    that one is a copy made by [cloneRequestWithAuth]. *)
Lemma handleUnauthorized_log request response w :
  exists es,
    log (snd (handleUnauthorized url_origin form_encode config request response w))
    = log w ++ es
    /\ (length (resource_requests es) <= 1)%nat
    /\ Forall (copy_of request) (resource_requests es).
Proof.
  assert (Hnil : forall w0 : World,
            exists es, log w0 = log w0 ++ es
                       /\ (length (resource_requests es) <= 1)%nat
                       /\ Forall (copy_of request) (resource_requests es)).
  { intros w0. exists []. rewrite app_nil_r. simpl.
    split; [reflexivity|]. split; [lia | constructor]. }
  unfold handleUnauthorized.
  destruct (negb (Str.truthy_opt _)); [apply Hnil|].
  destruct (negb (String.eqb _ _)); [apply Hnil|].
  destruct (negb (Str.truthy_opt _)); [apply Hnil|].
  unfold bind at 1.
  match goal with |- context [acquireAccessToken ?a ?b ?c ?d ?e ?f w] =>
    destruct (quiet_acquireAccessToken a b c d e f w) as (e1 & L1 & Q1);
    destruct (acquireAccessToken a b c d e f w) as [[tok|msg] w1]
  end; simpl in L1.
  - unfold bind, call.
    destruct (cloneRequestWithAuth request tok) as [r|e] eqn:Hc.
    + exists (e1 ++ [Fetched ToResource r]).
      rewrite fetchFn_log, L1, app_assoc. split; [reflexivity|].
      rewrite resource_requests_app, Q1. simpl. split; [lia|].
      constructor; [|constructor]. exists tok. exact Hc.
    + exists e1. simpl. split; [exact L1|]. rewrite Q1. simpl.
      split; [lia | constructor].
  - exists e1. simpl. split; [exact L1|]. rewrite Q1. simpl.
    split; [lia | constructor].
Qed.

(** The part of [fetch] after the cached-token attempt: the caller's
    request, then at most one copy. *)
Lemma bare_attempt_log request w :
  exists es rs,
    log (snd ((response <- fetchFn config ToResource request ;;
               if negb (isUnauthorized response) then ret response
               else handleUnauthorized url_origin form_encode config request response) w))
    = log w ++ es
    /\ resource_requests es = request :: rs
    /\ (length rs <= 1)%nat
    /\ Forall (copy_of request) rs.
Proof.
  unfold bind.
  pose proof (fetchFn_log ToResource request w) as L0.
  destruct (fetchFn config ToResource request w) as [[resp|msg] w1]; simpl in L0.
  - destruct (negb (isUnauthorized resp)).
    + exists [Fetched ToResource request], [].
      simpl. split; [exact L0|]. split; [reflexivity|]. split; [lia | constructor].
    + destruct (handleUnauthorized_log request resp w1) as (e2 & L2 & N2 & C2).
      exists ([Fetched ToResource request] ++ e2), (resource_requests e2).
      rewrite L2, L0, app_assoc. split; [reflexivity|].
      rewrite resource_requests_app. simpl. split; [reflexivity|].
      split; assumption.
  - exists [Fetched ToResource request], [].
    simpl. split; [exact L0|]. split; [reflexivity|]. split; [lia | constructor].
Qed.

(** The requests that one call of [fetch] sends to the resource, by the
    outcome of the cache lookup. *)
Lemma fetch_resource_requests request w :
  exists es,
    log (snd (fetch url_origin form_encode config request w)) = log w ++ es
    /\ match fst (getCachedToken config (getResourceUrl url_origin request) w) with
       | Ok c =>
           if Str.truthy_opt c then
             match cloneRequestWithAuth request c with
             | Ok r1 =>
                 resource_requests es = [r1]
                 \/ exists rs, resource_requests es = r1 :: request :: rs
                               /\ (length rs <= 1)%nat
                               /\ Forall (copy_of request) rs
             | Throw _ => resource_requests es = []
             end
           else
             exists rs, resource_requests es = request :: rs
                        /\ (length rs <= 1)%nat
                        /\ Forall (copy_of request) rs
       | Throw _ => resource_requests es = []
       end.
Proof.
  unfold fetch. unfold bind at 1.
  destruct (quiet_getCachedToken config (getResourceUrl url_origin request) w)
    as (e0 & L0 & Q0).
  destruct (getCachedToken config (getResourceUrl url_origin request) w)
    as [[c|msg] w0]; simpl in L0 |- *.
  2:{ exists e0. split; assumption. }
  destruct (Str.truthy_opt c) eqn:Hc.
  - unfold bind at 1. unfold bind at 1. unfold call at 1.
    destruct (cloneRequestWithAuth request c) as [r1|e] eqn:Hclone.
    2:{ exists e0. simpl. split; assumption. }
    unfold bind at 1.
    pose proof (fetchFn_log ToResource r1 w0) as L1.
    destruct (fetchFn config ToResource r1 w0) as [[resp|msg] w1]; simpl in L1.
    + destruct (negb (isUnauthorized resp)).
      * exists (e0 ++ [Fetched ToResource r1]).
        simpl. rewrite L1, L0, app_assoc. split; [reflexivity|].
        rewrite resource_requests_app, Q0. left. reflexivity.
      * unfold bind at 1. cbn [tokenCache_delete ret].
        destruct (bare_attempt_log request
                    (tokenCache_delete_w (getResourceUrl url_origin request) w1))
          as (e2 & rs & L2 & R2 & N2 & C2).
        exists (e0 ++ [Fetched ToResource r1] ++ e2).
        split.
        { etransitivity; [exact L2|]. simpl. rewrite L1, L0.
          rewrite <- !app_assoc. reflexivity. }
        rewrite !resource_requests_app, Q0, R2. right. exists rs.
        split; [reflexivity|]. split; assumption.
    + exists (e0 ++ [Fetched ToResource r1]).
      simpl. rewrite L1, L0, app_assoc. split; [reflexivity|].
      rewrite resource_requests_app, Q0. left. reflexivity.
  - unfold bind at 1. cbn [ret].
    destruct (bare_attempt_log request w0) as (e2 & rs & L2 & R2 & N2 & C2).
    exists (e0 ++ e2). split.
    { etransitivity; [exact L2|]. rewrite L0, app_assoc. reflexivity. }
    rewrite resource_requests_app, Q0. exists rs. split; [exact R2|].
    split; assumption.
Qed.

End FetchLog.

Section FetchBounds.

Variable url_origin : string -> string.
Variable form_encode : string -> string.
Variable config : CrossAppAccessConfig.

Lemma new_events_app w w' es : log w' = log w ++ es -> new_events w w' = es.
Proof. intros H. unfold new_events. rewrite H. apply drop_app_length. Qed.

Lemma prefix_length_le {A} (l k : list A) : l `prefix_of` k -> (length l <= length k)%nat.
Proof. intros [r ->]. rewrite length_app. lia. Qed.

(** C3 (as the code has it).  One call of [fetch] only appends to the
    log, and it sends the caller's request to the resource at most three
    times: at most twice when no cached token is attached to the first
    attempt (the bare attempt and one retry), and at most three times
    when a cached token is attached (that attempt, the bare attempt
    after the eviction, and one retry). *)
Theorem fetch_sends_at_most_three (request : Request) (w : World) :
  let w' := snd (fetch url_origin form_encode config request w) in
  let sent := resource_requests (new_events w w') in
  log w' = log w ++ new_events w w'
  /\ (length sent <= 3)%nat
  /\ (length sent
      <= if attaches_cached_token url_origin config request w then 3 else 2)%nat.
Proof.
  intros w' sent.
  destruct (fetch_resource_requests url_origin form_encode config request w)
    as (es & L & P).
  fold w' in L. pose proof (new_events_app _ _ _ L) as E.
  subst sent. rewrite E. split; [exact L|].
  unfold attaches_cached_token.
  destruct (fst (getCachedToken config (getResourceUrl url_origin request) w))
    as [c|msg].
  - destruct (Str.truthy_opt c).
    + destruct (cloneRequestWithAuth request c).
      * destruct P as [-> | (rs & -> & N & _)]; simpl; lia.
      * rewrite P. simpl. lia.
    + destruct P as (rs & -> & N & _). simpl. lia.
  - rewrite P. simpl. lia.
Qed.

(** The path of [handleUnauthorized] through the acquisition. *)
Lemma handleUnauthorized_acquires request response w h :
  HeadersOps.get "WWW-Authenticate" (response_headers response) = Some h ->
  scheme (parseWwwAuthenticate h) = "Bearer" ->
  Str.truthy_opt (resource_metadata (parseWwwAuthenticate h)) = true ->
  handleUnauthorized url_origin form_encode config request response w
  = (accessToken <- acquireAccessToken url_origin form_encode config
                      (getResourceUrl url_origin request)
                      (Str.template (resource_metadata (parseWwwAuthenticate h)))
                      (scope (parseWwwAuthenticate h)) ;;
     requestWithAuth <- call (cloneRequestWithAuth request accessToken) ;;
     fetchFn config ToResource requestWithAuth) w.
Proof.
  intros Hh Hs Hm.
  assert (Ht : Str.truthy h = true) by (destruct h; [discriminate Hs | reflexivity]).
  unfold handleUnauthorized. rewrite Hh.
  cbn [Str.truthy_opt Str.template]. rewrite Ht. cbn [negb].
  rewrite Hs, Hm. reflexivity.
Qed.


End FetchBounds.

(** * The scheme of a parsed challenge *)

Lemma assign_scheme key value c : scheme (Parser.assign key value c) = scheme c.
Proof.
  unfold Parser.assign.
  repeat match goal with |- context [if ?b then _ else _] => destruct b end;
    reflexivity.
Qed.

Lemma loop_scheme fuel : forall s c, scheme (Parser.loop fuel s c) = scheme c.
Proof.
  induction fuel as [|fuel IH]; intros s c; simpl; [reflexivity|].
  destruct (Parser.exec s) as [m|]; [|reflexivity].
  rewrite IH. apply assign_scheme.
Qed.

Lemma parse_scheme h :
  scheme (parseWwwAuthenticate h)
  = match Parser.schemeMatch h with Some s => s | None => EmptyString end.
Proof.
  unfold parseWwwAuthenticate. rewrite loop_scheme.
  destruct (Parser.schemeMatch h); reflexivity.
Qed.

(** * Handling of a 401 response *)

Section Unauthorized.

Variable url_origin : string -> string.
Variable form_encode : string -> string.
Variable config : CrossAppAccessConfig.

Lemma handleUnauthorized_no_header request response w :
  HeadersOps.get "WWW-Authenticate" (response_headers response) = None ->
  handleUnauthorized url_origin form_encode config request response w
  = (Ok response, w).
Proof. intros H. unfold handleUnauthorized. rewrite H. reflexivity. Qed.

Lemma handleUnauthorized_other_scheme request response w h :
  HeadersOps.get "WWW-Authenticate" (response_headers response) = Some h ->
  scheme (parseWwwAuthenticate h) <> "Bearer" ->
  handleUnauthorized url_origin form_encode config request response w
  = (Ok response, w).
Proof.
  intros H Hs. unfold handleUnauthorized. rewrite H.
  cbn [Str.truthy_opt Str.template].
  destruct (negb (Str.truthy h)); [reflexivity|].
  apply String.eqb_neq in Hs. rewrite Hs. reflexivity.
Qed.

Lemma handleUnauthorized_no_metadata request response w h :
  HeadersOps.get "WWW-Authenticate" (response_headers response) = Some h ->
  scheme (parseWwwAuthenticate h) = "Bearer" ->
  resource_metadata (parseWwwAuthenticate h) = None ->
  handleUnauthorized url_origin form_encode config request response w
  = (Throw "WWW-Authenticate header missing resource_metadata URL", w).
Proof.
  intros H Hs Hm. unfold handleUnauthorized. rewrite H.
  cbn [Str.truthy_opt Str.template].
  destruct h as [|a h']; [discriminate Hs|].
  cbn [Str.truthy Str.is_empty negb].
  rewrite Hs, Hm. reflexivity.
Qed.

(** C5.  When the 401 response has no WWW-Authenticate header, or the
    scheme of the parsed challenge is not Bearer, [handleUnauthorized]
    returns that response and leaves the world as it was: nothing is
    sent and no acquisition is registered.  When the scheme is Bearer
    and the challenge has no resource_metadata, it throws, again with
    the world unchanged. *)
Theorem handleUnauthorized_short_circuit (request : Request) (response : Response)
    (w : World) :
  let r := handleUnauthorized url_origin form_encode config request response w in
  match HeadersOps.get "WWW-Authenticate" (response_headers response) with
  | None => r = (Ok response, w)
  | Some h =>
      let challenge := parseWwwAuthenticate h in
      (scheme challenge <> "Bearer" -> r = (Ok response, w))
      /\ (scheme challenge = "Bearer" -> resource_metadata challenge = None ->
          r = (Throw "WWW-Authenticate header missing resource_metadata URL", w))
  end.
Proof.
  intros r. subst r.
  destruct (HeadersOps.get "WWW-Authenticate" (response_headers response)) as [h|] eqn:Hh.
  - split.
    + intros Hs. eapply handleUnauthorized_other_scheme; eassumption.
    + intros Hs Hm. eapply handleUnauthorized_no_metadata; eassumption.
  - apply handleUnauthorized_no_header. exact Hh.
Qed.

(** C9.  The comparison of the scheme with Bearer is exact: when the
    leading token of the WWW-Authenticate header spells bearer in
    another mix of upper and lower case, the parsed scheme is that
    token, and [handleUnauthorized] returns the 401 response and leaves
    the world unchanged, so no token acquisition starts. *)
Theorem scheme_check_is_case_sensitive (request : Request) (response : Response)
    (w : World) (h s : string) :
  HeadersOps.get "WWW-Authenticate" (response_headers response) = Some h ->
  Parser.schemeMatch h = Some s ->
  Str.toLowerCase s = "bearer" ->
  s <> "Bearer" ->
  scheme (parseWwwAuthenticate h) = s
  /\ handleUnauthorized url_origin form_encode config request response w
     = (Ok response, w).
Proof.
  intros Hh Hm Hl Hs.
  assert (Hp : scheme (parseWwwAuthenticate h) = s)
    by (rewrite parse_scheme, Hm; reflexivity).
  split; [exact Hp|].
  eapply handleUnauthorized_other_scheme; [exact Hh|]. congruence.
Qed.

End Unauthorized.

(** * Strings *)

Lemma append_cons c s t : String c s +:+ t = String c (s +:+ t).
Proof. reflexivity. Qed.

Lemma append_empty_l s : EmptyString +:+ s = s.
Proof. reflexivity. Qed.

Lemma append_assoc (a b c : string) : (a +:+ b) +:+ c = a +:+ (b +:+ c).
Proof. induction a as [|x a IH]; [reflexivity|]. rewrite !append_cons, IH. reflexivity. Qed.

Lemma strip_trailing_slash_app b : Str.strip_trailing_slash (b +:+ "/") = b.
Proof.
  induction b as [|c b IH]; [reflexivity|].
  rewrite append_cons. cbn [Str.strip_trailing_slash].
  replace (Str.is_empty (b +:+ "/")) with false by (destruct b; reflexivity).
  rewrite andb_false_r, IH. reflexivity.
Qed.

Lemma strip_trailing_slash_cases s :
  Str.strip_trailing_slash s = s \/ s = Str.strip_trailing_slash s +:+ "/".
Proof.
  induction s as [|c s IH]; [left; reflexivity|].
  cbn [Str.strip_trailing_slash].
  destruct (Chars.is_slash c && Str.is_empty s)%bool eqn:E.
  - right. apply andb_true_iff in E. destruct E as [Hc Hs].
    destruct s; [|discriminate]. rewrite append_empty_l. f_equal.
    unfold Chars.is_slash, Chars.code in Hc. apply Nat.eqb_eq in Hc.
    rewrite <- (ascii_nat_embedding c), Hc. reflexivity.
  - destruct IH as [IH|IH].
    + left. rewrite IH. reflexivity.
    + right. rewrite append_cons, <- IH. reflexivity.
Qed.

(** * The token exchange and the cache *)

Section Grant.

Variable url_origin : string -> string.
Variable form_encode : string -> string.
Variable config : CrossAppAccessConfig.

Local Abbreviation grant := (performJwtBearerGrant url_origin form_encode config).
Local Abbreviation grant_request := (jwtBearerGrantRequest form_encode config).







(** C7 (as the code has it).  [discoverAuthorizationServerMetadata]
    drops one final slash of the issuer, requests the
    oauth-authorization-server document first and returns it when that
    attempt yields a document; only otherwise (the call rejected, the
    status was outside 200 to 299, or the body was not JSON) it requests
    the openid-configuration document and returns it when that attempt
    yields one; when neither does, it throws an error that names the
    issuer.  Nothing else is sent. *)
Theorem discovery_order (issuerUrl : string) (w : World) :
  let first := GET (oauth2MetadataUrl issuerUrl) in
  let second := GET (oidcMetadataUrl issuerUrl) in
  let r1 := fetch_impl config (log w) first in
  let w1 := record (Fetched ToMetadata first) (elapsed r1) w in
  let r2 := fetch_impl config (log w1) second in
  let w2 := record (Fetched ToMetadata second) (elapsed r2) w1 in
  discoverAuthorizationServerMetadata config issuerUrl w
  = match discovered r1 with
    | Some j => (Ok j, w1)
    | None =>
        match discovered r2 with
        | Some j => (Ok j, w2)
        | None =>
            (Throw ("Failed to discover authorization server metadata for "
                      +:+ issuerUrl), w2)
        end
    end
  /\ (forall base,
        oauth2MetadataUrl (base +:+ "/")
        = base +:+ "/.well-known/oauth-authorization-server"
        /\ oidcMetadataUrl (base +:+ "/")
           = base +:+ "/.well-known/openid-configuration")
  /\ (Str.strip_trailing_slash issuerUrl = issuerUrl
      \/ issuerUrl = Str.strip_trailing_slash issuerUrl +:+ "/").
Proof.
  intros first second r1 w1 r2 w2. split.
  - assert (Htry : forall u w0,
              try_discovery config u w0
              = (Ok (discovered (fetch_impl config (log w0) (GET u))),
                 record (Fetched ToMetadata (GET u))
                        (elapsed (fetch_impl config (log w0) (GET u))) w0)).
    { intros u w0. unfold try_discovery, try_catch, bind, fetchFn, discovered.
      destruct (outcome (fetch_impl config (log w0) (GET u))) as [resp|msg];
        [|reflexivity].
      destruct (ok resp); [|reflexivity].
      unfold json. destruct (response_json resp); reflexivity. }
    unfold discoverAuthorizationServerMetadata. unfold bind at 1.
    rewrite Htry. fold first r1 w1.
    destruct (discovered r1) as [j|]; [reflexivity|].
    unfold bind. rewrite Htry. fold second r2 w2.
    destruct (discovered r2); reflexivity.
  - split.
    + intros base. unfold oauth2MetadataUrl, oidcMetadataUrl.
      rewrite strip_trailing_slash_app. split; reflexivity.
    + apply strip_trailing_slash_cases.
Qed.

End Grant.

(** * Evaluation of the deployment *)

Import Scenario Scenario2.

(** At the second discovery document the first answer was a 200 whose
    body is not JSON: the call did not reject and the status is in the
    range 200 to 299, yet the second document is requested and
    returned. *)
Lemma discovery_falls_back_after_unreadable_200 :
  (exists response,
      outcome (network_html [] (GET (oauth2MetadataUrl issuer))) = Ok response
      /\ ok response = true)
  /\ purposes (log (snd (discoverAuthorizationServerMetadata config_html issuer (start 0))))
     = [(ToMetadata, "https://auth.example.com/.well-known/oauth-authorization-server");
        (ToMetadata, "https://auth.example.com/.well-known/openid-configuration")]
  /\ fst (discoverAuthorizationServerMetadata config_html issuer (start 0))
     = Ok server_metadata_doc.
Proof.
  split; [eexists; split; vm_compute; reflexivity|].
  split; vm_compute; reflexivity.
Qed.

(** With a cached token that the resource rejects, one call of [fetch]
    sends the request three times: with the cached token, bare, and with
    the new token. *)
Lemma cached_token_path_sends_three :
  let w := start 1000 in
  let w' := snd (fetch origin encode config_stale_cache request w) in
  map Ok (resource_requests (new_events w w'))
  = [cloneRequestWithAuth request (Some "stale"); Ok request;
     cloneRequestWithAuth request (Some "at-1")]
  /\ ~ (length (resource_requests (new_events w w')) <= 2)%nat.
Proof.
  cbv zeta. split; [vm_compute; reflexivity|].
  assert (E : length (resource_requests
                (new_events (start 1000)
                   (snd (fetch origin encode config_stale_cache request (start 1000)))))
              = 3%nat)
    by (vm_compute; reflexivity).
  rewrite E. lia.
Qed.




(** C1 (evaluation of the code).  After a call of [fetch] that acquires
    the token at-1 for the resource https://mcp.example.com and ends with
    status 200, the cache holds the token under the origin of the token
    endpoint, https://auth.example.com, and nothing under the origin of
    the resource: the lookup that [fetch] makes for that resource finds
    no token although the token has not expired, and the next call runs
    the whole acquisition again. *)
Theorem acquired_token_is_filed_under_token_endpoint :
  let w := snd (fetch origin encode config request (start 1000)) in
  (match fst (fetch origin encode config request (start 1000)) with
   | Ok response => Some (status response)
   | Throw _ => None
   end) = Some 200
  /\ getResourceUrl origin request = "https://mcp.example.com"
  /\ tokenCache w !! "https://mcp.example.com" = None
  /\ tokenCache w !! "https://auth.example.com"
     = Some {| token := Some "at-1"; expiresAt := 3541025 |}
  /\ now w = 1030
  /\ fst (getCachedToken config (getResourceUrl origin request) w) = Ok None
  /\ purposes (new_events w (snd (fetch origin encode config request w)))
     = [(ToResource, resource_url);
        (ToMetadata, metadata_url);
        (ToMetadata, "https://auth.example.com/.well-known/oauth-authorization-server");
        (ToTokenEndpoint, "https://idp.example.com/oauth2/token");
        (ToTokenEndpoint, token_url);
        (ToResource, resource_url)].
Proof. cbv zeta. repeat split; vm_compute; reflexivity. Qed.



Lemma scheme_check_is_case_sensitive_witness :
  let response :=
    {| status := 401; statusText := "Unauthorized";
       response_headers := [("WWW-Authenticate", "bearer realm=mcp, resource_metadata=https://mcp.example.com/meta")];
       response_json := None |} in
  let h := "bearer realm=mcp, resource_metadata=https://mcp.example.com/meta" in
  (HeadersOps.get "WWW-Authenticate" (response_headers response) = Some h
   /\ Parser.schemeMatch h = Some "bearer"
   /\ Str.toLowerCase "bearer" = "bearer"
   /\ "bearer" <> "Bearer")
  /\ scheme (parseWwwAuthenticate h) = "bearer"
  /\ handleUnauthorized origin encode config request response (start 0)
     = (Ok response, start 0).
Proof.
  intros response h.
  assert (Hne : "bearer" <> "Bearer") by discriminate.
  split; [repeat split; exact Hne|].
  exact (scheme_check_is_case_sensitive origin encode config request response (start 0)
           h "bearer" eq_refl eq_refl eq_refl Hne).
Defined.

(** * One acquisition in flight per resource key *)

(** ** Nothing but [acquireAccessToken] writes the map of pending
    requests *)

Lemma keeps_ret {A} (a : A) : keeps_pending (ret a).
Proof. intros w. reflexivity. Qed.

Lemma keeps_throw {A} msg : keeps_pending (@throw A msg).
Proof. intros w. reflexivity. Qed.

Lemma keeps_bind {A B} (m : M A) (k : A -> M B) :
  keeps_pending m -> (forall a, keeps_pending (k a)) -> keeps_pending (bind m k).
Proof.
  intros Hm Hk w. unfold bind. pose proof (Hm w) as H1.
  destruct (m w) as [[a|msg] w1]; simpl in *.
  - rewrite Hk. exact H1.
  - exact H1.
Qed.

Lemma keeps_try_catch {A} (m : M A) (h : string -> M A) :
  keeps_pending m -> (forall e, keeps_pending (h e)) -> keeps_pending (try_catch m h).
Proof.
  intros Hm Hh w. unfold try_catch. pose proof (Hm w) as H1.
  destruct (m w) as [[a|msg] w1]; simpl in *.
  - exact H1.
  - rewrite Hh. exact H1.
Qed.

Section PendingFrame.

Variable url_origin : string -> string.
Variable form_encode : string -> string.
Variable config : CrossAppAccessConfig.

Lemma keeps_fetchFn p r : keeps_pending (fetchFn config p r).
Proof. intros w. reflexivity. Qed.

Lemma keeps_json r : keeps_pending (json r).
Proof. unfold json. destruct (response_json r); [apply keeps_ret | apply keeps_throw]. Qed.

Lemma keeps_extractOAuthError r : keeps_pending (extractOAuthError r).
Proof.
  unfold extractOAuthError. apply keeps_bind.
  - apply keeps_try_catch; [|intros; apply keeps_ret].
    apply keeps_bind; [apply keeps_json|]. intros j.
    destruct (Str.truthy_opt (Json.error j)); apply keeps_ret.
  - intros [msg|]; apply keeps_ret.
Qed.

Lemma keeps_try_discovery u : keeps_pending (try_discovery config u).
Proof.
  unfold try_discovery. apply keeps_try_catch; [|intros; apply keeps_ret].
  apply keeps_bind; [apply keeps_fetchFn|]. intros r.
  destruct (ok r); [|apply keeps_ret].
  apply keeps_bind; [apply keeps_json | intros; apply keeps_ret].
Qed.

Lemma keeps_discover i :
  keeps_pending (discoverAuthorizationServerMetadata config i).
Proof.
  unfold discoverAuthorizationServerMetadata.
  apply keeps_bind; [apply keeps_try_discovery|]. intros [j|]; [apply keeps_ret|].
  apply keeps_bind; [apply keeps_try_discovery|].
  intros [j|]; [apply keeps_ret | apply keeps_throw].
Qed.

Lemma keeps_fetchProtectedResourceMetadata u :
  keeps_pending (fetchProtectedResourceMetadata config u).
Proof.
  unfold fetchProtectedResourceMetadata.
  apply keeps_bind; [apply keeps_fetchFn|]. intros r.
  destruct (negb (ok r)); [|apply keeps_json].
  apply keeps_bind; [apply keeps_extractOAuthError | intros; apply keeps_throw].
Qed.

Lemma keeps_performTokenExchange a r t s :
  keeps_pending (performTokenExchange form_encode config a r t s).
Proof.
  unfold performTokenExchange.
  apply keeps_bind; [intros w; reflexivity|]. intros idToken.
  apply keeps_bind; [apply keeps_fetchFn|]. intros resp.
  destruct (negb (ok resp)).
  - apply keeps_bind; [apply keeps_extractOAuthError | intros; apply keeps_throw].
  - apply keeps_bind; [apply keeps_json|]. intros j.
    destruct (negb _); [apply keeps_throw | apply keeps_ret].
Qed.

Lemma keeps_call_onAccessTokenReceived j :
  keeps_pending (call_onAccessTokenReceived config j).
Proof.
  unfold call_onAccessTokenReceived.
  destruct (onAccessTokenReceived config) as [hook|]; [|apply keeps_ret].
  intros w. reflexivity.
Qed.

Lemma keeps_performJwtBearerGrant i t :
  keeps_pending (performJwtBearerGrant url_origin form_encode config i t).
Proof.
  unfold performJwtBearerGrant.
  apply keeps_bind; [apply keeps_fetchFn|]. intros resp.
  destruct (negb (ok resp)).
  - apply keeps_bind; [apply keeps_extractOAuthError | intros; apply keeps_throw].
  - apply keeps_bind; [apply keeps_json|]. intros j.
    apply keeps_bind; [intros w; reflexivity|]. intros t0.
    apply keeps_bind; [intros w; reflexivity|]. intros _.
    apply keeps_bind; [apply keeps_call_onAccessTokenReceived|]. intros _.
    apply keeps_ret.
Qed.

Lemma keeps_performTokenAcquisition r m s :
  keeps_pending (performTokenAcquisition url_origin form_encode config r m s).
Proof.
  unfold performTokenAcquisition.
  apply keeps_bind; [apply keeps_fetchProtectedResourceMetadata|]. intros md.
  destruct (Json.authorization_servers md) as [[|iss rest]|];
    try apply keeps_throw.
  apply keeps_bind; [apply keeps_discover|]. intros asm.
  destruct (negb _); [apply keeps_throw|].
  apply keeps_bind; [apply keeps_performTokenExchange|]. intros idJag.
  apply keeps_bind; [apply keeps_performJwtBearerGrant|]. intros tok.
  apply keeps_ret.
Qed.

Lemma keeps_getCachedToken r : keeps_pending (getCachedToken config r).
Proof.
  unfold getCachedToken. apply keeps_bind.
  - unfold call_getCachedAccessToken.
    destruct (getCachedAccessToken config); [|apply keeps_ret].
    intros w. reflexivity.
  - intros c. destruct (Str.truthy_opt c); [apply keeps_ret|].
    unfold getCachedToken_internal.
    apply keeps_bind; [intros w; reflexivity|]. intros cached.
    apply keeps_bind; [intros w; reflexivity|]. intros t.
    destruct cached as [c0|]; [|apply keeps_ret].
    destruct (expiresAt c0 >? t); apply keeps_ret.
Qed.

End PendingFrame.

(** ** The two pieces of [acquireAccessToken] *)

Lemma enter_pending k start w p :
  pendingTokenRequests w !! k = Some p ->
  acquireAccessToken_enter k start w = (Ok (ReturnPending p), w).
Proof.
  intros H. unfold acquireAccessToken_enter, bind, pending_get. rewrite H. reflexivity.
Qed.

Lemma enter_fresh k r w :
  pendingTokenRequests w !! k = None ->
  acquireAccessToken_enter k (ret r) w
  = (Ok (AwaitTokenPromise r), snd (pending_set k r w)).
Proof.
  intros H. unfold acquireAccessToken_enter, bind, pending_get. rewrite H. reflexivity.
Qed.

Lemma resume_pending k p w :
  acquireAccessToken_resume k (ReturnPending p) w = (p, w).
Proof. reflexivity. Qed.

Lemma resume_own k p w :
  acquireAccessToken_resume k (AwaitTokenPromise p) w = (p, pending_delete_w k w).
Proof.
  unfold acquireAccessToken_resume, try_finally, bind, await.
  destruct p; reflexivity.
Qed.

Module SingleFlightFacts.

Import SingleFlight.

Lemma invariant_init : invariant init.
Proof.
  split; simpl; intros; try rewrite lookup_empty in *; try discriminate;
    try reflexivity.
Qed.

Lemma registered_none s k :
  invariant s -> pendingTokenRequests (world s) !! k = None ->
  registered s !! k = None.
Proof.
  intros I Hp. pose proof (inv_entry s I k) as E.
  destruct (registered s !! k) as [a|]; [|reflexivity].
  destruct E as (acq & _ & _ & E). congruence.
Qed.

Lemma known_is_old s a acq :
  invariant s -> acquisitions s !! a = Some acq -> a <> next s.
Proof.
  intros I H ->. rewrite (inv_fresh s I (next s)) in H by lia. discriminate.
Qed.

Lemma invariant_call_join s c k p a :
  invariant s ->
  callers s !! c = None ->
  pendingTokenRequests (world s) !! k = Some p ->
  registered s !! k = Some a ->
  invariant {| world := world s; acquisitions := acquisitions s;
               registered := registered s;
               callers := <[c := Waiting k (ReturnPending p) a]> (callers s);
               next := next s |}.
Proof.
  intros I Hc Hp Hr. pose proof I as [Hf He Hw Ho Hu Hn Hd].
  split; simpl.
  - exact Hf.
  - exact He.
  - intros c' k' su a' H. destruct (decide (c' = c)) as [->|Hne].
    + rewrite lookup_insert_eq in H. injection H as <- <- <-.
      pose proof (He k) as E. rewrite Hr in E. destruct E as (acq & Ha & Hk & Hpp).
      exists acq. split; [exact Ha|]. split; [exact Hk|]. simpl. congruence.
    + rewrite lookup_insert_ne in H by congruence. eapply Hw; eauto.
  - intros c' k' p' a' H. destruct (decide (c' = c)) as [->|Hne].
    + rewrite lookup_insert_eq in H. discriminate.
    + rewrite lookup_insert_ne in H by congruence. eapply Ho; eauto.
  - intros c1 c2 k1 k2 p1 p2 a' H1 H2.
    destruct (decide (c1 = c)) as [->|N1];
      [rewrite lookup_insert_eq in H1; discriminate|].
    destruct (decide (c2 = c)) as [->|N2];
      [rewrite lookup_insert_eq in H2; discriminate|].
    rewrite lookup_insert_ne in H1, H2 by congruence. eapply Hu; eauto.
  - exact Hn.
  - intros c' a' r' H. destruct (decide (c' = c)) as [->|Hne].
    + rewrite lookup_insert_eq in H. discriminate.
    + rewrite lookup_insert_ne in H by congruence. eapply Hd; eauto.
Qed.

Lemma invariant_call_start s c k r :
  invariant s ->
  callers s !! c = None ->
  pendingTokenRequests (world s) !! k = None ->
  invariant {| world := snd (pending_set k r (world s));
               acquisitions :=
                 <[next s := {| acq_key := k; acq_promise := r;
                                acq_settled := false |}]> (acquisitions s);
               registered := <[k := next s]> (registered s);
               callers := <[c := Waiting k (AwaitTokenPromise r) (next s)]> (callers s);
               next := S (next s) |}.
Proof.
  intros I Hc Hp. pose proof I as [Hf He Hw Ho Hu Hn Hd].
  pose proof (registered_none s k I Hp) as Hr.
  assert (Hold : forall a acq, acquisitions s !! a = Some acq -> a <> next s)
    by (intros; eapply known_is_old; eauto).
  split; simpl.
  - intros a acq H Hs. destruct (decide (a = next s)) as [->|Hne].
    + rewrite lookup_insert_eq in H. injection H as <-. simpl.
      apply lookup_insert_eq.
    + rewrite lookup_insert_ne in H by congruence.
      pose proof (Hf _ _ H Hs) as Hreg.
      destruct (decide (acq_key acq = k)) as [E|E]; [rewrite E in Hreg; congruence|].
      rewrite lookup_insert_ne by congruence. exact Hreg.
  - intros k'. destruct (decide (k' = k)) as [->|Hne].
    + rewrite lookup_insert_eq. eexists. split; [apply lookup_insert_eq|].
      simpl. split; [reflexivity | apply lookup_insert_eq].
    + rewrite !lookup_insert_ne by congruence.
      pose proof (He k') as E.
      destruct (registered s !! k') as [a'|]; [|exact E].
      destruct E as (acq & Ha & Hk & Hpp). exists acq.
      split; [|split; assumption].
      rewrite lookup_insert_ne; [exact Ha|]. intros <-. eapply Hold; eauto.
  - intros c' k' su a' H. destruct (decide (c' = c)) as [->|Hne].
    + rewrite lookup_insert_eq in H. injection H as <- <- <-.
      eexists. split; [apply lookup_insert_eq|]. split; reflexivity.
    + rewrite lookup_insert_ne in H by congruence.
      destruct (Hw _ _ _ _ H) as (acq & Ha & Hk & Hpp). exists acq.
      split; [|split; assumption].
      rewrite lookup_insert_ne; [exact Ha|]. intros <-. eapply Hold; eauto.
  - intros c' k' p' a' H. destruct (decide (c' = c)) as [->|Hne].
    + rewrite lookup_insert_eq in H. injection H as <- <- <-.
      apply lookup_insert_eq.
    + rewrite lookup_insert_ne in H by congruence.
      pose proof (Ho _ _ _ _ H) as Hreg.
      destruct (decide (k' = k)) as [E|E]; [rewrite E in Hreg; congruence|].
      rewrite lookup_insert_ne by congruence. exact Hreg.
  - intros c1 c2 k1 k2 p1 p2 a' H1 H2.
    destruct (decide (c1 = c)) as [->|N1]; destruct (decide (c2 = c)) as [->|N2];
      try reflexivity.
    + rewrite lookup_insert_eq in H1. injection H1 as <- <- <-.
      rewrite lookup_insert_ne in H2 by congruence.
      destruct (Hw _ _ _ _ H2) as (acq & Ha & _). exfalso. eapply Hold; eauto.
    + rewrite lookup_insert_eq in H2. injection H2 as <- <- <-.
      rewrite lookup_insert_ne in H1 by congruence.
      destruct (Hw _ _ _ _ H1) as (acq & Ha & _). exfalso. eapply Hold; eauto.
    + rewrite lookup_insert_ne in H1, H2 by congruence. eapply Hu; eauto.
  - intros a Ha. rewrite lookup_insert_ne by lia. apply Hn. lia.
  - intros c' a' r' H. destruct (decide (c' = c)) as [->|Hne].
    + rewrite lookup_insert_eq in H. discriminate.
    + rewrite lookup_insert_ne in H by congruence.
      destruct (Hd _ _ _ H) as (acq & Ha & Hpp). exists acq.
      split; [|exact Hpp].
      rewrite lookup_insert_ne; [exact Ha|]. intros <-. eapply Hold; eauto.
Qed.

Lemma invariant_settle s a acq :
  invariant s ->
  acquisitions s !! a = Some acq ->
  invariant {| world := world s;
               acquisitions :=
                 <[a := {| acq_key := acq_key acq; acq_promise := acq_promise acq;
                           acq_settled := true |}]> (acquisitions s);
               registered := registered s; callers := callers s;
               next := next s |}.
Proof.
  intros I Ha. pose proof I as [Hf He Hw Ho Hu Hn Hd].
  assert (Hsame : forall a' acq',
            acquisitions s !! a' = Some acq' ->
            exists acq'',
              <[a := {| acq_key := acq_key acq; acq_promise := acq_promise acq;
                        acq_settled := true |}]> (acquisitions s) !! a' = Some acq''
              /\ acq_key acq'' = acq_key acq'
              /\ acq_promise acq'' = acq_promise acq'
              /\ (acq_settled acq' = true -> acq_settled acq'' = true)).
  { intros a' acq' H. destruct (decide (a' = a)) as [->|Hne].
    - rewrite lookup_insert_eq. eexists. split; [reflexivity|].
      assert (acq' = acq) by congruence. subst acq'. simpl. auto.
    - rewrite lookup_insert_ne by congruence. exists acq'. auto. }
  split; simpl.
  - intros a' acq' H Hs. destruct (decide (a' = a)) as [->|Hne].
    + rewrite lookup_insert_eq in H. injection H as <-. discriminate Hs.
    + rewrite lookup_insert_ne in H by congruence. eapply Hf; eauto.
  - intros k. pose proof (He k) as E.
    destruct (registered s !! k) as [a'|]; [|exact E].
    destruct E as (acq' & H & Hk & Hpp).
    destruct (Hsame _ _ H) as (acq'' & H' & K & P & _).
    exists acq''. split; [exact H'|]. split; congruence.
  - intros c k su a' H. destruct (Hw _ _ _ _ H) as (acq' & H' & Hk & Hpp).
    destruct (Hsame _ _ H') as (acq'' & H'' & K & P & _).
    exists acq''. split; [exact H''|]. split; congruence.
  - exact Ho.
  - exact Hu.
  - intros a' Hle. rewrite lookup_insert_ne; [apply Hn; exact Hle|].
    intros <-. rewrite (Hn a Hle) in Ha. discriminate.
  - intros c a' r H. destruct (Hd _ _ _ H) as (acq' & H' & Hpp & Hs).
    destruct (Hsame _ _ H') as (acq'' & H'' & K & P & S).
    exists acq''. split; [exact H''|]. split; [congruence | auto].
Qed.

Lemma invariant_resume_owner s c k p a acq :
  invariant s ->
  callers s !! c = Some (Waiting k (AwaitTokenPromise p) a) ->
  acquisitions s !! a = Some acq ->
  acq_settled acq = true ->
  invariant {| world := pending_delete_w k (world s);
               acquisitions := acquisitions s;
               registered := delete k (registered s);
               callers := <[c := Returned a p]> (callers s);
               next := next s |}.
Proof.
  intros I Hc Ha Hs. pose proof I as [Hf He Hw Ho Hu Hn Hd].
  pose proof (Ho _ _ _ _ Hc) as Hreg.
  split; simpl.
  - intros a' acq' H Hs'. pose proof (Hf _ _ H Hs') as Hreg'.
    destruct (decide (acq_key acq' = k)) as [E|E].
    + rewrite E in Hreg'. assert (a' = a) by congruence. subst a'.
      assert (acq' = acq) by congruence. subst acq'. congruence.
    + rewrite lookup_delete_ne by congruence. exact Hreg'.
  - intros k'. destruct (decide (k' = k)) as [->|Hne].
    + rewrite !lookup_delete_eq. reflexivity.
    + rewrite !lookup_delete_ne by congruence. apply He.
  - intros c' k' su a' H. destruct (decide (c' = c)) as [->|Hne].
    + rewrite lookup_insert_eq in H. discriminate.
    + rewrite lookup_insert_ne in H by congruence. eapply Hw; eauto.
  - intros c' k' p' a' H. destruct (decide (c' = c)) as [->|Hne].
    + rewrite lookup_insert_eq in H. discriminate.
    + rewrite lookup_insert_ne in H by congruence.
      pose proof (Ho _ _ _ _ H) as Hreg'.
      destruct (decide (k' = k)) as [E|E].
      * subst k'. assert (a' = a) by congruence. subst a'.
        exfalso. apply Hne. eapply Hu; eauto.
      * rewrite lookup_delete_ne by congruence. exact Hreg'.
  - intros c1 c2 k1 k2 p1 p2 a' H1 H2.
    destruct (decide (c1 = c)) as [->|N1];
      [rewrite lookup_insert_eq in H1; discriminate|].
    destruct (decide (c2 = c)) as [->|N2];
      [rewrite lookup_insert_eq in H2; discriminate|].
    rewrite lookup_insert_ne in H1, H2 by congruence. eapply Hu; eauto.
  - exact Hn.
  - intros c' a' r' H. destruct (decide (c' = c)) as [->|Hne].
    + rewrite lookup_insert_eq in H. injection H as <- <-.
      destruct (Hw _ _ _ _ Hc) as (acq' & Ha' & _ & Hpp).
      assert (acq' = acq) by congruence. subst acq'.
      exists acq. split; [exact Ha|]. split; [exact Hpp | exact Hs].
    + rewrite lookup_insert_ne in H by congruence. eapply Hd; eauto.
Qed.

Lemma invariant_resume_joiner s c k p a acq :
  invariant s ->
  callers s !! c = Some (Waiting k (ReturnPending p) a) ->
  acquisitions s !! a = Some acq ->
  acq_settled acq = true ->
  invariant {| world := world s; acquisitions := acquisitions s;
               registered := registered s;
               callers := <[c := Returned a p]> (callers s);
               next := next s |}.
Proof.
  intros I Hc Ha Hs. pose proof I as [Hf He Hw Ho Hu Hn Hd].
  split; simpl.
  - exact Hf.
  - exact He.
  - intros c' k' su a' H. destruct (decide (c' = c)) as [->|Hne].
    + rewrite lookup_insert_eq in H. discriminate.
    + rewrite lookup_insert_ne in H by congruence. eapply Hw; eauto.
  - intros c' k' p' a' H. destruct (decide (c' = c)) as [->|Hne].
    + rewrite lookup_insert_eq in H. discriminate.
    + rewrite lookup_insert_ne in H by congruence. eapply Ho; eauto.
  - intros c1 c2 k1 k2 p1 p2 a' H1 H2.
    destruct (decide (c1 = c)) as [->|N1];
      [rewrite lookup_insert_eq in H1; discriminate|].
    destruct (decide (c2 = c)) as [->|N2];
      [rewrite lookup_insert_eq in H2; discriminate|].
    rewrite lookup_insert_ne in H1, H2 by congruence. eapply Hu; eauto.
  - exact Hn.
  - intros c' a' r' H. destruct (decide (c' = c)) as [->|Hne].
    + rewrite lookup_insert_eq in H. injection H as <- <-.
      destruct (Hw _ _ _ _ Hc) as (acq' & Ha' & _ & Hpp).
      assert (acq' = acq) by congruence. subst acq'.
      exists acq. split; [exact Ha|]. split; [exact Hpp | exact Hs].
    + rewrite lookup_insert_ne in H by congruence. eapply Hd; eauto.
Qed.

Lemma invariant_elsewhere s t cache l :
  invariant s ->
  invariant {| world := {| now := t; tokenCache := cache;
                           pendingTokenRequests := pendingTokenRequests (world s);
                           log := l |};
               acquisitions := acquisitions s; registered := registered s;
               callers := callers s; next := next s |}.
Proof. intros [Hf He Hw Ho Hu Hn Hd]. split; simpl; assumption. Qed.

(** What [Resume] does for a caller whose promise has settled. *)
Lemma step_resume s c k suspended a acq :
  callers s !! c = Some (Waiting k suspended a) ->
  acquisitions s !! a = Some acq ->
  acq_settled acq = true ->
  step s (Resume c)
  = Some {| world := match suspended with
                     | AwaitTokenPromise _ => pending_delete_w k (world s)
                     | ReturnPending _ => world s
                     end;
            acquisitions := acquisitions s;
            registered := match suspended with
                          | AwaitTokenPromise _ => delete k (registered s)
                          | ReturnPending _ => registered s
                          end;
            callers := <[c := Returned a (awaited suspended)]> (callers s);
            next := next s |}.
Proof.
  intros Hc Ha Hs. simpl. rewrite Hc, Ha, Hs.
  destruct suspended as [p|p].
  - rewrite resume_pending. reflexivity.
  - rewrite resume_own. reflexivity.
Qed.

Lemma invariant_step s l s' :
  invariant s -> step s l = Some s' -> invariant s'.
Proof.
  intros I. destruct l as [c k r|a|c|t cache l].
  - simpl. destruct (callers s !! c) eqn:Hc; [discriminate|].
    destruct (pendingTokenRequests (world s) !! k) as [p|] eqn:Hp.
    + rewrite (enter_pending _ _ _ _ Hp).
      destruct (registered s !! k) as [a|] eqn:Hr; [|discriminate].
      intros [= <-]. apply invariant_call_join; assumption.
    + rewrite (enter_fresh _ _ _ Hp).
      intros [= <-]. apply invariant_call_start; assumption.
  - simpl. destruct (acquisitions s !! a) as [acq|] eqn:Ha; [|discriminate].
    destruct (acq_settled acq); [discriminate|].
    intros [= <-]. apply invariant_settle; assumption.
  - destruct (callers s !! c) as [[k su a|a r]|] eqn:Hc;
      try (simpl; rewrite Hc; discriminate).
    destruct (acquisitions s !! a) as [acq|] eqn:Ha;
      [|simpl; rewrite Hc, Ha; discriminate].
    destruct (acq_settled acq) eqn:Hs;
      [|simpl; rewrite Hc, Ha, Hs; discriminate].
    rewrite (step_resume _ _ _ _ _ _ Hc Ha Hs).
    intros [= <-]. destruct su as [p|p].
    + eapply invariant_resume_joiner; eassumption.
    + eapply invariant_resume_owner; eassumption.
  - simpl. intros [= <-]. apply invariant_elsewhere. exact I.
Qed.

Lemma invariant_run ls : forall s s',
  invariant s -> run s ls = Some s' -> invariant s'.
Proof.
  induction ls as [|l ls IH]; intros s s' I H; simpl in H.
  - injection H as <-. exact I.
  - destruct (step s l) as [s1|] eqn:Hs; [|discriminate].
    eapply IH; [|exact H]. eapply invariant_step; eassumption.
Qed.

Section Claim.

Variable url_origin : string -> string.
Variable form_encode : string -> string.
Variable config : CrossAppAccessConfig.

Local Abbreviation acquire := (acquireAccessToken url_origin form_encode config).
Local Abbreviation pipeline := (performTokenAcquisition url_origin form_encode config).

(** A call that nothing interleaves with, when no entry is registered. *)
Lemma acquire_fresh resourceUrl metadataUrl scope w :
  pendingTokenRequests w !! resourceUrl = None ->
  acquire resourceUrl metadataUrl scope w
  = (fst (pipeline resourceUrl metadataUrl scope w),
     pending_delete_w resourceUrl
       (snd (pending_set resourceUrl (fst (pipeline resourceUrl metadataUrl scope w))
               (snd (pipeline resourceUrl metadataUrl scope w))))).
Proof.
  intros Hp. unfold acquireAccessToken. unfold bind at 1.
  unfold acquireAccessToken_enter. unfold bind at 1.
  unfold pending_get. rewrite Hp.
  unfold bind at 1. unfold promise_of.
  destruct (performTokenAcquisition url_origin form_encode config
              resourceUrl metadataUrl scope w) as [r w1].
  unfold bind at 1. cbn [pending_set ret fst snd].
  apply resume_own.
Qed.

(** C4.  Calls of [acquireAccessToken] interleaved in any order, with
    any other code of the middleware in between.  In every state that
    is reached: at most one acquisition per resource key is in flight,
    and its promise is the entry of [pendingTokenRequests] under that
    key; a call made for a key that has an entry starts no acquisition,
    changes nothing and waits for the promise of that entry; a call
    made for a key without entry starts an acquisition and registers
    its promise under the key; a caller that
    resumes returns the outcome of the acquisition it waited for, and
    when it is the caller that started the acquisition, the entry of
    the key is gone after its [finally] block, whatever the outcome;
    a caller can resume as soon as the acquisition has settled.  The
    acquisition pipeline and the cache lookup leave
    [pendingTokenRequests] alone.  A call with an entry registered
    that nothing interleaves with returns the outcome of the entry and
    changes nothing; without an entry it is the run of the machine
    that enters, lets the pipeline run, settles and resumes: it returns
    the outcome of [performTokenAcquisition], be it a token or an
    error, and leaves no entry for the key. *)
Theorem single_flight :
  (forall (ls : list label) (s : state),
      run init ls = Some s ->
      (forall a1 a2 acq1 acq2,
          in_flight s a1 acq1 -> in_flight s a2 acq2 ->
          acq_key acq1 = acq_key acq2 -> a1 = a2)
      /\ (forall a acq,
             in_flight s a acq ->
             pendingTokenRequests (world s) !! acq_key acq = Some (acq_promise acq))
      /\ (forall k p c r,
             pendingTokenRequests (world s) !! k = Some p -> callers s !! c = None ->
             exists s' a acq,
               step s (Call c k r) = Some s'
               /\ acquisitions s' = acquisitions s
               /\ world s' = world s
               /\ callers s' !! c = Some (Waiting k (ReturnPending p) a)
               /\ acquisitions s !! a = Some acq
               /\ acq_key acq = k
               /\ acq_promise acq = p)
      /\ (forall k c r,
             pendingTokenRequests (world s) !! k = None -> callers s !! c = None ->
             exists s',
               step s (Call c k r) = Some s'
               /\ in_flight s' (next s)
                    {| acq_key := k; acq_promise := r; acq_settled := false |}
               /\ pendingTokenRequests (world s') !! k = Some r
               /\ callers s' !! c = Some (Waiting k (AwaitTokenPromise r) (next s)))
      /\ (forall c k suspended a s',
             callers s !! c = Some (Waiting k suspended a) ->
             step s (Resume c) = Some s' ->
             exists acq,
               acquisitions s !! a = Some acq
               /\ acq_key acq = k
               /\ acq_settled acq = true
               /\ callers s' !! c = Some (Returned a (acq_promise acq))
               /\ match suspended with
                  | AwaitTokenPromise _ =>
                      pendingTokenRequests (world s') !! k = None
                  | ReturnPending _ => world s' = world s
                  end)
      /\ (forall c k suspended a acq,
             callers s !! c = Some (Waiting k suspended a) ->
             acquisitions s !! a = Some acq ->
             acq_settled acq = true ->
             exists s', step s (Resume c) = Some s'))
  /\ (forall resourceUrl metadataUrl scope,
         keeps_pending (pipeline resourceUrl metadataUrl scope)
         /\ keeps_pending (getCachedToken config resourceUrl))
  /\ (forall resourceUrl metadataUrl scope (w : World) p,
         pendingTokenRequests w !! resourceUrl = Some p ->
         acquire resourceUrl metadataUrl scope w = (p, w))
  /\ (forall resourceUrl metadataUrl scope (w : World),
         pendingTokenRequests w !! resourceUrl = None ->
         let r := fst (pipeline resourceUrl metadataUrl scope w) in
         let w1 := snd (pipeline resourceUrl metadataUrl scope w) in
         exists s',
           run (alone w)
               [Call 0 resourceUrl r; Elsewhere (now w1) (tokenCache w1) (log w1);
                Settle 0; Resume 0] = Some s'
           /\ callers s' !! 0%nat = Some (Returned 0 r)
           /\ acquire resourceUrl metadataUrl scope w = (r, world s')
           /\ pendingTokenRequests (world s') !! resourceUrl = None).
Proof.
  split; [|split; [|split]].
  - intros ls s Hrun.
    pose proof (invariant_run ls init s invariant_init Hrun) as I.
    pose proof I as [Hf He Hw Ho Hu Hn Hd].
    split; [|split; [|split; [|split; [|split]]]].
    + intros a1 a2 acq1 acq2 [H1 S1] [H2 S2] Hk.
      pose proof (Hf _ _ H1 S1) as R1. pose proof (Hf _ _ H2 S2) as R2.
      rewrite Hk in R1. congruence.
    + intros a acq [H S]. pose proof (Hf _ _ H S) as R.
      pose proof (He (acq_key acq)) as E. rewrite R in E.
      destruct E as (acq' & H' & _ & E). congruence.
    + intros k p c r Hp Hc. pose proof (He k) as E.
      destruct (registered s !! k) as [a|] eqn:R; [|congruence].
      destruct E as (acq & Ha & Hk & E).
      eexists. exists a, acq. simpl. rewrite Hc, (enter_pending _ _ _ _ Hp), R.
      split; [reflexivity|]. simpl.
      split; [reflexivity|]. split; [reflexivity|].
      split; [apply lookup_insert_eq|].
      split; [exact Ha|]. split; [exact Hk | congruence].
    + intros k c r Hp Hc.
      eexists. simpl. rewrite Hc, (enter_fresh _ _ _ Hp).
      split; [reflexivity|]. unfold in_flight. simpl.
      split; [split; [apply lookup_insert_eq | reflexivity]|].
      split; apply lookup_insert_eq.
    + intros c k su a s' Hc Hstep.
      destruct (Hw _ _ _ _ Hc) as (acq & Ha & Hk & Hpp).
      exists acq. split; [exact Ha|]. split; [exact Hk|].
      destruct (acq_settled acq) eqn:Hs.
      2:{ simpl in Hstep. rewrite Hc, Ha, Hs in Hstep. discriminate. }
      split; [reflexivity|].
      rewrite (step_resume _ _ _ _ _ _ Hc Ha Hs) in Hstep.
      injection Hstep as <-. simpl. split.
      * rewrite lookup_insert_eq, Hpp. reflexivity.
      * destruct su; [reflexivity | apply lookup_delete_eq].
    + intros c k su a acq Hc Ha Hs. eexists.
      apply (step_resume _ _ _ _ _ _ Hc Ha Hs).
  - intros resourceUrl metadataUrl scope. split.
    + apply keeps_performTokenAcquisition.
    + apply keeps_getCachedToken.
  - intros resourceUrl metadataUrl scope w p Hp.
    unfold acquireAccessToken. unfold bind at 1.
    rewrite (enter_pending _ _ _ _ Hp). apply resume_pending.
  - intros resourceUrl metadataUrl scope w Hp r w1.
    pose proof (keeps_performTokenAcquisition url_origin form_encode config
                  resourceUrl metadataUrl scope w) as Hk.
    fold w1 in Hk.
    eexists. split; [|split; [|split]].
    + cbn [run]. cbn [step alone callers world]. rewrite lookup_empty.
      rewrite (enter_fresh _ _ _ Hp).
      cbn [run step acquisitions callers world next registered].
      rewrite lookup_insert_eq. cbn [acq_settled].
      cbn [run step acquisitions callers world next registered].
      rewrite !lookup_insert_eq. cbn [acq_settled].
      rewrite resume_own. reflexivity.
    + cbn [callers]. apply lookup_insert_eq.
    + rewrite (acquire_fresh _ _ _ _ Hp). fold r w1.
      cbn [world pending_delete_w pending_set snd now tokenCache log
           pendingTokenRequests]. rewrite Hk. reflexivity.
    + cbn [world pending_delete_w pendingTokenRequests]. apply lookup_delete_eq.
Qed.

End Claim.

End SingleFlightFacts.

(** Two callers ask for the same key while the first acquisition is in
    flight; it fails; the caller that started it resumes. *)
Lemma single_flight_witness :
  let k := "https://mcp.example.com" in
  let failure : Result (option string) :=
    Throw "Token exchange failed: invalid_grant" in
  let ls := [SingleFlight.Call 0 k failure;
             SingleFlight.Call 1 k (Ok (Some "at-1"));
             SingleFlight.Settle 0;
             SingleFlight.Resume 0] in
  exists s,
    SingleFlight.run SingleFlight.init ls = Some s
    /\ SingleFlight.callers s !! 0%nat = Some (SingleFlight.Returned 0 failure)
    /\ SingleFlight.callers s !! 1%nat
       = Some (SingleFlight.Waiting k (ReturnPending failure) 0)
    /\ pendingTokenRequests (SingleFlight.world s) !! k = None
    /\ (forall a1 a2 acq1 acq2,
           SingleFlight.in_flight s a1 acq1 -> SingleFlight.in_flight s a2 acq2 ->
           SingleFlight.acq_key acq1 = SingleFlight.acq_key acq2 -> a1 = a2).
Proof.
  intros k failure ls.
  eexists. split; [vm_compute; reflexivity|].
  split; [vm_compute; reflexivity|].
  split; [vm_compute; reflexivity|].
  split; [vm_compute; reflexivity|].
  refine (proj1 (proj1 (SingleFlightFacts.single_flight Scenario.origin Scenario.encode
                          Scenario.config) ls _ _)).
  vm_compute. reflexivity.
Defined.

(** * The challenge parser on rendered headers *)

Module ParserFacts.

Import ParserSpec.

Lemma length_append a b :
  String.length (a +:+ b) = (String.length a + String.length b)%nat.
Proof.
  induction a as [|c a IH]; [reflexivity|].
  rewrite append_cons. simpl. rewrite IH. reflexivity.
Qed.

Lemma span_split p s : forall a b, Str.span p s = (a, b) -> s = a +:+ b.
Proof.
  induction s as [|c s IH]; intros a b H; simpl in H.
  - injection H as <- <-. reflexivity.
  - destruct (p c).
    + destruct (Str.span p s) as [a' b'] eqn:E. injection H as <- <-.
      rewrite append_cons. f_equal. apply IH. reflexivity.
    + injection H as <- <-. reflexivity.
Qed.

Lemma span_all p a r :
  Str.all p a = true -> stops p r -> Str.span p (a +:+ r) = (a, r).
Proof.
  intros Ha Hr. induction a as [|c a IH].
  - rewrite append_empty_l. destruct r as [|d r]; [reflexivity|].
    simpl in Hr |- *. rewrite Hr. reflexivity.
  - simpl in Ha. apply andb_true_iff in Ha. destruct Ha as [Hc Ha].
    rewrite append_cons. simpl. rewrite Hc, (IH Ha). reflexivity.
Qed.

(** Every match consumes input. *)
Lemma match_here_shorter s m :
  Parser.match_here s = Some m ->
  (String.length (Parser.after m) < String.length s)%nat.
Proof.
  unfold Parser.match_here. intros H.
  destruct (Str.span Chars.is_word s) as [key r] eqn:Ek.
  apply span_split in Ek. subst s. rewrite length_append.
  destruct key as [|k key]; [discriminate|].
  destruct r as [|c r]; [discriminate|].
  destruct (Chars.is_equals c); [|discriminate].
  assert (Hq : forall v rest, Parser.match_quoted r = Some (v, rest) ->
                              (String.length rest <= String.length r)%nat).
  { intros v rest Hm. unfold Parser.match_quoted in Hm.
    destruct r as [|d r]; [discriminate|].
    destruct (Chars.is_dquote d); [|discriminate].
    destruct (Str.span Chars.not_dquote r) as [a b] eqn:Es.
    apply span_split in Es. subst r.
    destruct b as [|e b]; [discriminate|]. injection Hm as <- <-.
    simpl. rewrite length_append. simpl. lia. }
  destruct (Parser.match_quoted r) as [[v rest]|].
  - injection H as <-. simpl. specialize (Hq v rest eq_refl). lia.
  - destruct (Str.span Chars.not_space_comma r) as [v rest] eqn:Es.
    apply span_split in Es. subst r. injection H as <-. simpl.
    rewrite length_append. lia.
Qed.

Lemma exec_shorter s : forall m,
  Parser.exec s = Some m ->
  (String.length (Parser.after m) < String.length s)%nat.
Proof.
  induction s as [|c s IH]; intros m H.
  - simpl in H. discriminate.
  - cbn [Parser.exec] in H.
    destruct (Parser.match_here (String c s)) as [m'|] eqn:E.
    + injection H as <-. apply match_here_shorter. exact E.
    + apply IH in H. simpl. lia.
Qed.

(** The fuel of the loop is never exhausted. *)
Lemma loop_fuel f1 : forall f2 s c,
  (String.length s <= f1)%nat -> (String.length s <= f2)%nat ->
  Parser.loop f1 s c = Parser.loop f2 s c.
Proof.
  induction f1 as [|f1 IH]; intros f2 s c H1 H2.
  - destruct s; [|simpl in H1; lia]. destruct f2; reflexivity.
  - destruct f2 as [|f2].
    + destruct s; [reflexivity | simpl in H2; lia].
    + simpl. destruct (Parser.exec s) as [m|] eqn:E; [|reflexivity].
      apply exec_shorter in E. apply IH; lia.
Qed.

Lemma loop_unfold s c :
  Parser.loop (String.length s) s c
  = match Parser.exec s with
    | None => c
    | Some m =>
        Parser.loop (String.length (Parser.after m)) (Parser.after m)
          (Parser.assign (Parser.group1 m) (Parser.value_of m) c)
    end.
Proof.
  destruct s as [|a s]; [reflexivity|].
  cbn [String.length Parser.loop].
  destruct (Parser.exec (String a s)) as [m|] eqn:E; [|reflexivity].
  apply exec_shorter in E. simpl in E. apply loop_fuel; lia.
Qed.

Lemma exec_skip_char c r :
  Chars.is_word c = false -> Parser.exec (String c r) = Parser.exec r.
Proof.
  intros Hc. cbn [Parser.exec]. unfold Parser.match_here at 1.
  cbn [Str.span]. rewrite Hc. reflexivity.
Qed.

Lemma match_here_word_run a r :
  Str.all Chars.is_word a = true -> stops Chars.is_word r ->
  stops Chars.is_equals r ->
  Parser.match_here (a +:+ r) = None.
Proof.
  intros Ha Hw He. unfold Parser.match_here.
  rewrite (span_all _ _ _ Ha Hw).
  destruct a; [reflexivity|].
  destruct r as [|d r]; [reflexivity|].
  simpl in He. rewrite He. reflexivity.
Qed.

Lemma exec_skip_word a r :
  Str.all Chars.is_word a = true -> stops Chars.is_word r ->
  stops Chars.is_equals r ->
  Parser.exec (a +:+ r) = Parser.exec r.
Proof.
  intros Ha Hw He. induction a as [|c a IH]; [reflexivity|].
  pose proof (match_here_word_run _ _ Ha Hw He) as Hm.
  rewrite append_cons in *. cbn [Parser.exec]. rewrite Hm.
  simpl in Ha. apply andb_true_iff in Ha. apply IH. tauto.
Qed.

Lemma quoted_value_read v rest :
  Str.all Chars.not_dquote v = true ->
  Parser.match_quoted (Str.quote v +:+ rest) = Some (v, rest).
Proof.
  intros Hv. unfold Str.quote. rewrite append_cons, append_assoc, append_cons.
  rewrite append_empty_l. unfold Parser.match_quoted.
  change (Chars.is_dquote Chars.dquote) with true. cbv iota.
  rewrite (span_all Chars.not_dquote v (String Chars.dquote rest) Hv);
    reflexivity.
Qed.

Lemma unquoted_value_read v rest :
  Str.all Header.unquoted_char v = true ->
  stops Chars.not_space_comma rest ->
  Parser.match_quoted (v +:+ rest) = None
  /\ Str.span Chars.not_space_comma (v +:+ rest) = (v, rest).
Proof.
  intros Hv Hr. split.
  - destruct v as [|c v].
    + rewrite append_empty_l. destruct rest as [|d rest]; [reflexivity|].
      simpl in Hr |- *. unfold Chars.not_space_comma in Hr.
      apply negb_false_iff, orb_true_iff in Hr.
      unfold Chars.is_dquote.
      destruct (Nat.eqb (Chars.code d) 34) eqn:E; [|reflexivity].
      apply Nat.eqb_eq in E. unfold Chars.is_space, Chars.is_comma in Hr.
      rewrite E in Hr. simpl in Hr. destruct Hr; discriminate.
    + rewrite append_cons. simpl in Hv |- *.
      apply andb_true_iff in Hv. destruct Hv as [Hc _].
      unfold Header.unquoted_char in Hc. apply andb_true_iff in Hc.
      destruct Hc as [_ Hc]. unfold Chars.not_dquote in Hc.
      apply negb_true_iff in Hc. rewrite Hc. reflexivity.
  - apply span_all; [|exact Hr].
    clear Hr. induction v as [|c v IH]; [reflexivity|].
    simpl in Hv |- *. apply andb_true_iff in Hv. destruct Hv as [Hc Hv].
    unfold Header.unquoted_char in Hc. apply andb_true_iff in Hc.
    rewrite (proj1 Hc), (IH Hv). reflexivity.
Qed.

(** The pattern reads a readable pair back. *)
Lemma match_here_param p rest :
  Header.readable p = true -> stops Chars.not_space_comma rest ->
  exists m,
    Parser.match_here (Header.render_param p +:+ rest) = Some m
    /\ Parser.group1 m = Header.key p
    /\ Parser.value_of m = Some (Header.value p)
    /\ Parser.after m = rest.
Proof.
  intros Hp Hr. unfold Header.readable in Hp.
  apply andb_true_iff in Hp. destruct Hp as [Hp Hv].
  apply andb_true_iff in Hp. destruct Hp as [Hk Hw].
  unfold Header.render_param. rewrite !append_assoc.
  change ("=" +:+ ?x) with (String Chars.equals x).
  unfold Parser.match_here.
  rewrite (span_all Chars.is_word (Header.key p) _ Hw) by reflexivity.
  destruct (Header.key p) as [|k key]; [discriminate|].
  change (Chars.is_equals Chars.equals) with true. cbv iota.
  destruct (Header.quoted p).
  - apply andb_true_iff in Hv. destruct Hv as [Hne Hv].
    rewrite (quoted_value_read _ rest Hv).
    eexists. split; [reflexivity|]. cbn. unfold Parser.value_of. cbn.
    rewrite Hne. repeat split.
  - destruct (unquoted_value_read _ rest Hv Hr) as [Hq Hs].
    rewrite Hq, Hs. eexists. split; [reflexivity|]. repeat split.
Qed.

Lemma exec_param p rest :
  Header.readable p = true -> stops Chars.not_space_comma rest ->
  exists m,
    Parser.exec (Header.render_param p +:+ rest) = Some m
    /\ Parser.group1 m = Header.key p
    /\ Parser.value_of m = Some (Header.value p)
    /\ Parser.after m = rest.
Proof.
  intros Hp Hr. destruct (match_here_param p rest Hp Hr) as (m & Hm & H).
  exists m. split; [|exact H].
  destruct (Header.render_param p +:+ rest); cbn [Parser.exec]; rewrite Hm;
    reflexivity.
Qed.

Lemma append_empty_r s : s +:+ EmptyString = s.
Proof. induction s as [|c s IH]; [reflexivity|]. rewrite append_cons, IH. reflexivity. Qed.

Lemma separator_char_not_word c :
  Layout.separator_char c = true -> Chars.is_word c = false.
Proof.
  destruct c as [[] [] [] [] [] [] [] []]; vm_compute; intros H;
    solve [reflexivity | discriminate H].
Qed.

Lemma separator_char_not_equals c :
  Layout.separator_char c = true -> Chars.is_equals c = false.
Proof.
  destruct c as [[] [] [] [] [] [] [] []]; vm_compute; intros H;
    solve [reflexivity | discriminate H].
Qed.

Lemma exec_skip_separator sep r :
  Str.all Layout.separator_char sep = true ->
  Parser.exec (sep +:+ r) = Parser.exec r.
Proof.
  induction sep as [|c sep IH]; intros H; [reflexivity|].
  simpl in H. apply andb_true_iff in H. destruct H as [Hc H].
  rewrite append_cons, exec_skip_char by (apply separator_char_not_word; exact Hc).
  apply IH. exact H.
Qed.

(** The pairs of a well-formed header begin, if there are any, with a
    character of a separator: every greedy match stops there. *)
Lemma pairs_stops l :
  Forall (fun e => Layout.well_formed e = true) l ->
  stops Chars.not_space_comma (Layout.pairs l)
  /\ stops Chars.is_word (Layout.pairs l)
  /\ stops Chars.is_equals (Layout.pairs l).
Proof.
  intros H. destruct H as [|[sep p] l Hw _]; [repeat split|].
  unfold Layout.well_formed, Layout.separator in Hw. cbn [fst snd] in Hw.
  apply andb_true_iff in Hw. destruct Hw as [Hs _].
  apply andb_true_iff in Hs. destruct Hs as [Hne Hs].
  destruct sep as [|c sep]; [discriminate Hne|].
  simpl in Hs. apply andb_true_iff in Hs. destruct Hs as [Hc _].
  cbn [Layout.pairs fst snd]. rewrite append_cons. cbn [stops].
  split; [|split].
  - unfold Chars.not_space_comma. unfold Layout.separator_char in Hc.
    rewrite Hc. reflexivity.
  - apply separator_char_not_word. exact Hc.
  - apply separator_char_not_equals. exact Hc.
Qed.

Lemma loop_pairs l :
  Forall (fun e => Layout.well_formed e = true) l ->
  forall c,
    Parser.loop (String.length (Layout.pairs l)) (Layout.pairs l) c
    = fold_left store (map snd l) c.
Proof.
  induction 1 as [|[sep p] l Hw Hl IH]; intros c; [reflexivity|].
  rewrite loop_unfold. cbn [Layout.pairs fst snd].
  unfold Layout.well_formed, Layout.separator in Hw. cbn [fst snd] in Hw.
  apply andb_true_iff in Hw. destruct Hw as [Hs Hp].
  apply andb_true_iff in Hs. destruct Hs as [_ Hs].
  rewrite (exec_skip_separator _ _ Hs).
  destruct (exec_param p (Layout.pairs l) Hp (proj1 (pairs_stops l Hl)))
    as (m & -> & -> & -> & ->).
  rewrite IH. reflexivity.
Qed.

Lemma assign_fields k v c :
  scheme (Parser.assign k v c) = scheme c
  /\ realm (Parser.assign k v c) = (if String.eqb k "realm" then v else realm c)
  /\ scope (Parser.assign k v c) = (if String.eqb k "scope" then v else scope c)
  /\ error (Parser.assign k v c) = (if String.eqb k "error" then v else error c)
  /\ error_description (Parser.assign k v c)
     = (if String.eqb k "error_description" then v else error_description c)
  /\ resource_metadata (Parser.assign k v c)
     = (if String.eqb k "resource_metadata" then v else resource_metadata c).
Proof.
  unfold Parser.assign.
  destruct (String.eqb_spec k "realm") as [->|N1]; [repeat split|].
  destruct (String.eqb_spec k "scope") as [->|N2]; [repeat split|].
  destruct (String.eqb_spec k "error") as [->|N3]; [repeat split|].
  destruct (String.eqb_spec k "error_description") as [->|N4]; [repeat split|].
  destruct (String.eqb_spec k "resource_metadata") as [->|N5]; repeat split.
Qed.

Lemma latest_cons name p ps old :
  latest name (p :: ps) old
  = latest name ps (if String.eqb (Header.key p) name then Some (Header.value p) else old).
Proof.
  unfold latest. simpl. destruct (Header.declared name ps); [reflexivity|].
  destruct (String.eqb (Header.key p) name); reflexivity.
Qed.

Lemma fold_store_fields ps : forall c,
  let c' := fold_left store ps c in
  scheme c' = scheme c
  /\ realm c' = latest "realm" ps (realm c)
  /\ scope c' = latest "scope" ps (scope c)
  /\ error c' = latest "error" ps (error c)
  /\ error_description c' = latest "error_description" ps (error_description c)
  /\ resource_metadata c' = latest "resource_metadata" ps (resource_metadata c).
Proof.
  induction ps as [|p ps IH]; intros c; [repeat split|].
  cbn [fold_left]. rewrite !latest_cons.
  destruct (IH (store c p)) as (H0 & H1 & H2 & H3 & H4 & H5).
  destruct (assign_fields (Header.key p) (Some (Header.value p)) c)
    as (A0 & A1 & A2 & A3 & A4 & A5).
  unfold store in *. cbv zeta.
  rewrite H0, H1, H2, H3, H4, H5, A0, A1, A2, A3, A4, A5. repeat split.
Qed.

Lemma challenge_eta c :
  c = {| scheme := scheme c; realm := realm c; scope := scope c; error := error c;
         error_description := error_description c;
         resource_metadata := resource_metadata c |}.
Proof. destruct c. reflexivity. Qed.

Lemma parse_layout l :
  Forall (fun e => Layout.well_formed e = true) l ->
  parseWwwAuthenticate (Layout.render "Bearer" l) = Header.expected (map snd l).
Proof.
  intros Hl. destruct (pairs_stops l Hl) as (_ & Hw & He).
  unfold Layout.render, parseWwwAuthenticate.
  assert (Hs : Parser.schemeMatch ("Bearer" +:+ Layout.pairs l) = Some "Bearer").
  { unfold Parser.schemeMatch. rewrite span_all; [reflexivity | reflexivity | exact Hw]. }
  rewrite Hs. cbn [scheme realm scope error error_description resource_metadata].
  rewrite loop_unfold.
  rewrite exec_skip_word; [|reflexivity | exact Hw | exact He].
  rewrite <- loop_unfold.
  rewrite (loop_pairs l Hl).
  match goal with |- fold_left store ?l ?c = _ =>
    destruct (fold_store_fields l c) as (H0 & H1 & H2 & H3 & H4 & H5);
    rewrite (challenge_eta (fold_left store l c))
  end.
  rewrite H0, H1, H2, H3, H4, H5. unfold Header.expected, latest.
  cbn [scheme realm scope error error_description resource_metadata].
  f_equal; match goal with |- context [Header.declared ?n ?l] =>
             destruct (Header.declared n l) end; reflexivity.
Qed.

End ParserFacts.

(** X30.  A header made of the scheme Bearer and pairs, each after a
    separator of its own (one character or more, each a comma or white
    space), where every key is a word, every quoted value is non-empty
    and free of double quotes, and every unquoted value is free of white
    space, commas and double quotes: [parseWwwAuthenticate] returns the
    scheme Bearer and, for each of realm, scope, error,
    error_description and resource_metadata, the value that the header
    declares for it (the last one, if it is given more than once), in
    whatever order and quoting the pairs come; pairs with other keys
    change nothing.  On every input the loop ends before its fuel does,
    so the parser returns a challenge and never fails. *)
Theorem parser_reads_any_layout :
  (forall l : list (string * Header.auth_param),
      Forall (fun e => Layout.well_formed e = true) l ->
      parseWwwAuthenticate (Layout.render "Bearer" l) = Header.expected (map snd l))
  /\ (forall (h : string) (fuel : nat) (c : WwwAuthenticateChallenge),
        (String.length h <= fuel)%nat ->
        Parser.loop fuel h c = Parser.loop (String.length h) h c).
Proof.
  split.
  - exact ParserFacts.parse_layout.
  - intros h fuel c H. apply ParserFacts.loop_fuel; [exact H | reflexivity].
Qed.

Lemma parser_reads_any_layout_witness :
  Forall (fun e => Layout.well_formed e = true) Samples.spaced
  /\ Layout.render "Bearer" Samples.spaced
     = "Bearer scope=read,realm=" +:+ Str.quote "mcp" +:+ " ,  resource_metadata="
         +:+ Str.quote "https://mcp.example.com/.well-known/oauth-protected-resource"
  /\ parseWwwAuthenticate (Layout.render "Bearer" Samples.spaced)
     = {| scheme := "Bearer"; realm := Some "mcp"; scope := Some "read";
          error := None; error_description := None;
          resource_metadata :=
            Some "https://mcp.example.com/.well-known/oauth-protected-resource" |}.
Proof.
  assert (H : Forall (fun e => Layout.well_formed e = true) Samples.spaced)
    by (repeat constructor).
  split; [exact H|]. split; [reflexivity|].
  exact (proj1 parser_reads_any_layout Samples.spaced H).
Defined.

(** C8 (evaluation of the code).  Two headers that follow the grammar
    of RFC 7235.  In the first the only parameter is x-scope, a key that
    the switch does not know; the parser returns its value as the scope.
    In the second the realm is given as an empty quoted string; the
    parser returns no realm. *)
Theorem parser_misreads_valid_headers :
  (Forall (fun p => Header.rfc_param p = true) Samples.hyphenated
   /\ Header.render "Bearer" Samples.hyphenated = "Bearer x-scope=" +:+ Str.quote "admin"
   /\ Header.declared "scope" Samples.hyphenated = None
   /\ scope (parseWwwAuthenticate (Header.render "Bearer" Samples.hyphenated))
      = Some "admin")
  /\ (Forall (fun p => Header.rfc_param p = true) Samples.empty_realm
      /\ Header.render "Bearer" Samples.empty_realm = "Bearer realm=" +:+ Str.quote EmptyString
      /\ Header.declared "realm" Samples.empty_realm = Some EmptyString
      /\ realm (parseWwwAuthenticate (Header.render "Bearer" Samples.empty_realm))
         = None).
Proof.
  split; (split; [repeat constructor | repeat split; vm_compute; reflexivity]).
Qed.

(** * Further properties of the code *)

(** ** Headers *)

Lemma filter_same_name_idem n (h : list (string * string)) :
  filter (fun e => HeadersOps.same_name n e = false)
    (filter (fun e => HeadersOps.same_name n e = false) h)
  = filter (fun e => HeadersOps.same_name n e = false) h.
Proof.
  induction h as [|e h IH]; [reflexivity|].
  destruct (HeadersOps.same_name n e) eqn:E.
  - rewrite (filter_cons_False _ e h) by (rewrite E; discriminate). exact IH.
  - rewrite (filter_cons_True _ e h) by exact E.
    rewrite filter_cons_True by exact E. f_equal. exact IH.
Qed.

Lemma set_set n v1 v2 (h h1 : list (string * string)) :
  HeadersOps.set n v1 h = Ok h1 ->
  HeadersOps.set n v2 h1 = HeadersOps.set n v2 h.
Proof.
  intros H. apply set_ok in H. destruct H as [_ ->].
  unfold HeadersOps.set.
  rewrite filter_app, filter_same_name_idem.
  rewrite filter_cons_False by (rewrite same_name_refl; discriminate).
  rewrite filter_nil, app_nil_r. reflexivity.
Qed.

(** X1.  A copy made by [cloneRequestWithAuth] of a request that is
    itself such a copy is the copy of the original with the last token,
    and fails when that one fails: setting the Authorization header
    twice leaves the same headers as setting it once with the last
    value. *)
Theorem set_header_last_wins (request r1 : Request) (t1 t2 : option string) :
  cloneRequestWithAuth request t1 = Ok r1 ->
  cloneRequestWithAuth r1 t2 = cloneRequestWithAuth request t2.
Proof.
  intros H. destruct (clone_ok _ _ _ H) as (Hb & h1 & Hset & ->).
  unfold cloneRequestWithAuth.
  cbn [url method headers body referrer referrerPolicy mode credentials cache
       redirect integrity].
  rewrite (set_set _ _ _ _ _ Hset).
  destruct (HeadersOps.set "Authorization" ("Bearer " +:+ Str.template t2)
              (headers request)) as [h2|e]; [|reflexivity].
  unfold new_Request_from. cbn [body]. rewrite Hb. reflexivity.
Qed.

Lemma set_header_last_wins_witness :
  let request := new_Request "https://mcp.example.com/mcp" "GET"
                   [("Accept", "application/json")] None in
  exists r1,
    cloneRequestWithAuth request (Some "stale") = Ok r1
    /\ cloneRequestWithAuth r1 (Some "at-1")
       = cloneRequestWithAuth request (Some "at-1").
Proof.
  intros request. eexists. split; [vm_compute; reflexivity|].
  exact (set_header_last_wins request _ (Some "stale") (Some "at-1") eq_refl).
Defined.

Lemma get_replaced_any_case (n n' v : string) (h : list (string * string)) :
  Str.toLowerCase n' = Str.toLowerCase n ->
  HeadersOps.get n'
    (filter (fun e => HeadersOps.same_name n e = false) h ++ [(n, v)]) = Some v.
Proof.
  intros Hl.
  assert (E : forall e, HeadersOps.same_name n' e = HeadersOps.same_name n e).
  { intros e. unfold HeadersOps.same_name. rewrite Hl. reflexivity. }
  unfold HeadersOps.get, HeadersOps.values.
  assert (F : forall l : list (string * string),
              filter (fun e => HeadersOps.same_name n' e = true) l
              = filter (fun e => HeadersOps.same_name n e = true) l).
  { intros l. induction l as [|e l IH]; [reflexivity|].
    destruct (HeadersOps.same_name n e) eqn:En.
    - rewrite (filter_cons_True (fun e => HeadersOps.same_name n e = true)) by exact En.
      rewrite filter_cons_True by (rewrite E; exact En). f_equal. exact IH.
    - rewrite (filter_cons_False (fun e => HeadersOps.same_name n e = true))
        by (rewrite En; discriminate).
      rewrite filter_cons_False by (rewrite E, En; discriminate). exact IH. }
  rewrite F.
  fold (HeadersOps.values n
          (filter (fun e => HeadersOps.same_name n e = false) h ++ [(n, v)])).
  rewrite values_replaced_same. reflexivity.
Qed.

(** Text in front of a value that does not vanish is kept by
    [strip_trailing]. *)
Lemma strip_trailing_app a b :
  HeadersOps.strip_trailing b <> EmptyString ->
  HeadersOps.strip_trailing (a +:+ b) = a +:+ HeadersOps.strip_trailing b.
Proof.
  intros Hb. induction a as [|c a IH]; [reflexivity|].
  rewrite !append_cons. cbn [HeadersOps.strip_trailing]. rewrite IH.
  replace (Str.is_empty (a +:+ HeadersOps.strip_trailing b)) with false.
  - rewrite andb_false_r. reflexivity.
  - destruct a; [|reflexivity]. rewrite append_empty_l.
    destruct (HeadersOps.strip_trailing b); [congruence | reflexivity].
Qed.

(** X2.  The copy made by [cloneRequestWithAuth] has one credential
    however the caller spelled the header: read under any spelling of
    the name authorization, the header of the copy is the normalized
    form of the string Bearer, a space and the token, and nothing of the
    caller's value is left.  For a token that is not empty and does not
    end in HTTP white space, that is the string Bearer, a space and the
    token itself. *)
Theorem clone_overrides_any_spelling (request r : Request) (tok : option string)
    (name : string) :
  cloneRequestWithAuth request tok = Ok r ->
  Str.toLowerCase name = "authorization" ->
  HeadersOps.get name (headers r)
  = Some (HeadersOps.normalize ("Bearer " +:+ Str.template tok))
  /\ (HeadersOps.strip_trailing (Str.template tok) <> EmptyString ->
      HeadersOps.strip_trailing (Str.template tok) = Str.template tok ->
      HeadersOps.get name (headers r) = Some ("Bearer " +:+ Str.template tok)).
Proof.
  intros Hc Hl. destruct (clone_ok _ _ _ Hc) as (_ & h' & Hset & ->).
  apply set_ok in Hset. destruct Hset as [_ ->]. cbn [headers].
  assert (G : HeadersOps.get name
                (filter (fun e => HeadersOps.same_name "Authorization" e = false)
                   (headers request)
                 ++ [("Authorization",
                      HeadersOps.normalize ("Bearer " +:+ Str.template tok))])
              = Some (HeadersOps.normalize ("Bearer " +:+ Str.template tok))).
  { apply get_replaced_any_case. rewrite Hl. reflexivity. }
  split; [exact G|].
  intros Hne Hkeep. rewrite G. f_equal.
  unfold HeadersOps.normalize.
  change (HeadersOps.strip_leading ("Bearer " +:+ Str.template tok))
    with ("Bearer " +:+ Str.template tok).
  rewrite strip_trailing_app by exact Hne. rewrite Hkeep. reflexivity.
Qed.

Lemma clone_overrides_any_spelling_witness :
  let request := new_Request "https://mcp.example.com/mcp" "GET"
                   [("AUTHORIZATION", "Basic abc")] None in
  exists r,
    cloneRequestWithAuth request (Some "at-1") = Ok r
    /\ Str.toLowerCase "authorization" = "authorization"
    /\ HeadersOps.get "authorization" (headers r) = Some "Bearer at-1".
Proof.
  intros request. eexists. split; [vm_compute; reflexivity|].
  split; [reflexivity|].
  exact (proj1 (clone_overrides_any_spelling request _ (Some "at-1") "authorization"
                  eq_refl eq_refl)).
Defined.

(** ** The challenge parser *)

Lemma span_spec p s : forall a b,
  Str.span p s = (a, b) -> Str.all p a = true /\ ParserSpec.stops p b.
Proof.
  induction s as [|c s IH]; intros a b H; simpl in H.
  - injection H as <- <-. split; [reflexivity | exact I].
  - destruct (p c) eqn:Hc.
    + destruct (Str.span p s) as [a' b'] eqn:E. injection H as <- <-.
      destruct (IH a' b' eq_refl) as [Ha Hb]. simpl. rewrite Hc, Ha.
      split; [reflexivity | exact Hb].
    + injection H as <- <-. split; [reflexivity | exact Hc].
Qed.

Lemma all_append p a b :
  Str.all p (a +:+ b) = (Str.all p a && Str.all p b)%bool.
Proof.
  induction a as [|c a IH]; [reflexivity|].
  rewrite append_cons. simpl. rewrite IH, andb_assoc. reflexivity.
Qed.

Lemma match_here_needs_equals s :
  Str.all (fun c => negb (Chars.is_equals c)) s = true ->
  Parser.match_here s = None.
Proof.
  intros H. unfold Parser.match_here.
  destruct (Str.span Chars.is_word s) as [key r] eqn:E.
  apply ParserFacts.span_split in E. subst s.
  rewrite all_append in H. apply andb_true_iff in H. destruct H as [_ H].
  destruct key; [reflexivity|]. destruct r as [|c r]; [reflexivity|].
  simpl in H. apply andb_true_iff in H. destruct H as [H _].
  apply negb_true_iff in H. rewrite H. reflexivity.
Qed.

Lemma exec_needs_equals s :
  Str.all (fun c => negb (Chars.is_equals c)) s = true -> Parser.exec s = None.
Proof.
  induction s as [|c s IH]; intros H; [reflexivity|].
  cbn [Parser.exec]. rewrite (match_here_needs_equals _ H).
  simpl in H. apply andb_true_iff in H. apply IH. tauto.
Qed.

(** X3.  A header value without any equals sign yields a challenge with
    no parameter at all: only the scheme can be set. *)
Theorem header_without_equals_has_no_fields (h : string) :
  Str.all (fun c => negb (Chars.is_equals c)) h = true ->
  let c := parseWwwAuthenticate h in
  realm c = None /\ scope c = None /\ error c = None
  /\ error_description c = None /\ resource_metadata c = None.
Proof.
  intros H c. subst c. unfold parseWwwAuthenticate.
  destruct h as [|a h]; [repeat split|].
  cbn [String.length Parser.loop]. rewrite (exec_needs_equals _ H).
  destruct (Parser.schemeMatch (String a h)); repeat split.
Qed.

Lemma header_without_equals_has_no_fields_witness :
  Str.all (fun c => negb (Chars.is_equals c)) "Bearer realm, scope" = true
  /\ (let c := parseWwwAuthenticate "Bearer realm, scope" in
      realm c = None /\ scope c = None /\ error c = None
      /\ error_description c = None /\ resource_metadata c = None).
Proof.
  split; [reflexivity|].
  exact (header_without_equals_has_no_fields "Bearer realm, scope" eq_refl).
Defined.

(** X4.  The scheme of the parsed challenge is the longest prefix of the
    header made of word characters: the header is the scheme followed by
    a rest that is empty or starts with another character.  It is empty
    exactly when the header does not start with a word character. *)
Theorem scheme_is_longest_word_prefix (h : string) :
  exists rest,
    h = scheme (parseWwwAuthenticate h) +:+ rest
    /\ Str.all Chars.is_word (scheme (parseWwwAuthenticate h)) = true
    /\ ParserSpec.stops Chars.is_word rest.
Proof.
  rewrite parse_scheme. unfold Parser.schemeMatch.
  destruct (Str.span Chars.is_word h) as [a b] eqn:E.
  pose proof (ParserFacts.span_split _ _ _ _ E) as Hs.
  destruct (span_spec _ _ _ _ E) as [Ha Hb].
  exists b. destruct a; (split; [exact Hs | split; [exact Ha | exact Hb]]).
Qed.

(** ** Errors of the upstream servers *)

Section UpstreamErrors.

Variable url_origin : string -> string.
Variable form_encode : string -> string.
Variable config : CrossAppAccessConfig.

Local Abbreviation acquisition := (performTokenAcquisition url_origin form_encode config).

Lemma fetchFn_eq p request w :
  fetchFn config p request w
  = (outcome (fetch_impl config (log w) request), after_fetch config p request w).
Proof. reflexivity. Qed.

Lemma extractOAuthError_total response w :
  exists msg, extractOAuthError response w = (Ok msg, w).
Proof.
  unfold extractOAuthError, bind, try_catch, json.
  destruct (response_json response) as [j|]; cbn.
  - destruct (Str.truthy_opt (Json.error j)); cbn; eauto.
  - eauto.
Qed.

(** X5.  [extractOAuthError] never throws and touches nothing.  When the
    body is JSON with a non-empty [error], its text is the
    [error_description] if that is non-empty and the [error] otherwise;
    when the body is not JSON, or has no non-empty [error] (even if it
    has an [error_description]), its text is the status line. *)
Theorem extractOAuthError_text (response : Response) (w : World) :
  exists msg,
    extractOAuthError response w = (Ok msg, w)
    /\ (forall j e,
          response_json response = Some j -> Json.error j = Some e ->
          e <> EmptyString ->
          msg = match Json.error_description j with
                | Some d => if Str.truthy d then d else e
                | None => e
                end)
    /\ (response_json response = None
        \/ (exists j, response_json response = Some j
                      /\ Str.truthy_opt (Json.error j) = false) ->
        msg = status_line response).
Proof.
  unfold extractOAuthError, bind, try_catch, json.
  destruct (response_json response) as [j|]; cbn.
  - destruct (Json.error j) as [e|] eqn:He; cbn.
    + destruct e as [|a e]; cbn.
      * eexists. split; [reflexivity|]. split.
        -- intros j' e' Hj He' Hne. injection Hj as <-. congruence.
        -- intros _. reflexivity.
      * eexists. split; [reflexivity|]. split.
        -- intros j' e' Hj He' _. injection Hj as <-. rewrite He in He'.
           injection He' as <-.
           destruct (Json.error_description j) as [d|]; [|reflexivity].
           cbn. destruct (Str.truthy d); reflexivity.
        -- intros [H|(j' & Hj & Ht)]; [discriminate|].
           injection Hj as <-. rewrite He in Ht. discriminate.
    + eexists. split; [reflexivity|]. split.
      * intros j' e' Hj He'. injection Hj as <-. congruence.
      * intros _. reflexivity.
  - eexists. split; [reflexivity|]. split.
    + intros j e Hj. discriminate.
    + intros _. reflexivity.
Qed.

(** X6.  [fetchProtectedResourceMetadata] sends one GET to the metadata
    URL; when the status is outside 200 to 299 it throws an error whose
    text is the fixed prefix followed by the text of
    [extractOAuthError], and it sends nothing more. *)
Theorem metadata_failure_is_fatal (metadataUrl : string) (w : World)
    (response : Response) :
  outcome (fetch_impl config (log w) (GET metadataUrl)) = Ok response ->
  ok response = false ->
  let w1 := after_fetch config ToMetadata (GET metadataUrl) w in
  exists msg,
    extractOAuthError response w1 = (Ok msg, w1)
    /\ fetchProtectedResourceMetadata config metadataUrl w
       = (Throw ("Failed to fetch protected resource metadata: " +:+ msg), w1)
    /\ new_events w w1 = [Fetched ToMetadata (GET metadataUrl)].
Proof.
  intros Ho Hok w1.
  destruct (extractOAuthError_total response w1) as [msg Hm].
  exists msg. split; [exact Hm|]. split.
  - unfold fetchProtectedResourceMetadata. unfold bind at 1.
    rewrite fetchFn_eq, Ho, Hok. cbn [negb]. fold w1.
    unfold bind. rewrite Hm. reflexivity.
  - apply new_events_app. reflexivity.
Qed.

Lemma metadata_success metadataUrl w response md :
  outcome (fetch_impl config (log w) (GET metadataUrl)) = Ok response ->
  ok response = true ->
  response_json response = Some md ->
  fetchProtectedResourceMetadata config metadataUrl w
  = (Ok md, after_fetch config ToMetadata (GET metadataUrl) w).
Proof.
  intros Ho Hok Hj. unfold fetchProtectedResourceMetadata. unfold bind at 1.
  rewrite fetchFn_eq, Ho, Hok. cbn [negb]. unfold json. rewrite Hj. reflexivity.
Qed.

(** X7.  When the protected resource metadata names no authorization
    server (the field is absent or the list is empty), the acquisition
    throws right after the metadata request: no discovery document is
    requested, the identity token is not asked for and no token request
    is sent. *)
Theorem acquisition_needs_authorization_server
    (resourceUrl metadataUrl : string) (scope : option string) (w : World)
    (response : Response) (md : Json.object) :
  outcome (fetch_impl config (log w) (GET metadataUrl)) = Ok response ->
  ok response = true ->
  response_json response = Some md ->
  Json.authorization_servers md = None \/ Json.authorization_servers md = Some [] ->
  let w1 := after_fetch config ToMetadata (GET metadataUrl) w in
  acquisition resourceUrl metadataUrl scope w
  = (Throw "No authorization servers found in protected resource metadata", w1)
  /\ new_events w w1 = [Fetched ToMetadata (GET metadataUrl)].
Proof.
  intros Ho Hok Hj Hs w1. split.
  - unfold performTokenAcquisition. unfold bind at 1.
    rewrite (metadata_success _ _ _ _ Ho Hok Hj). fold w1.
    destruct Hs as [-> | ->]; reflexivity.
  - apply new_events_app. reflexivity.
Qed.

Lemma try_discovery_eq u w :
  try_discovery config u w
  = (Ok (discovered (fetch_impl config (log w) (GET u))),
     after_fetch config ToMetadata (GET u) w).
Proof.
  unfold try_discovery, try_catch, bind, discovered. rewrite fetchFn_eq.
  destruct (outcome (fetch_impl config (log w) (GET u))) as [resp|msg];
    [|reflexivity].
  destruct (ok resp); [|reflexivity].
  unfold json. destruct (response_json resp); reflexivity.
Qed.

Lemma discover_events issuerUrl w :
  exists es,
    log (snd (discoverAuthorizationServerMetadata config issuerUrl w)) = log w ++ es
    /\ Forall (fun e => exists r, e = Fetched ToMetadata r) es.
Proof.
  unfold discoverAuthorizationServerMetadata. unfold bind at 1.
  rewrite try_discovery_eq.
  destruct (discovered _) as [j|].
  - eexists. split; [reflexivity|]. repeat constructor. eauto.
  - unfold bind. rewrite try_discovery_eq.
    exists [Fetched ToMetadata (GET (oauth2MetadataUrl issuerUrl));
            Fetched ToMetadata (GET (oidcMetadataUrl issuerUrl))].
    split.
    + destruct (discovered _); cbn; rewrite <- app_assoc; reflexivity.
    + repeat constructor; eauto.
Qed.

(** X8.  Only the first authorization server of the metadata is used,
    and when its discovered metadata has no token endpoint (absent or
    empty) the acquisition throws right after the discovery: all that
    was sent are requests for metadata documents; the identity token is
    not asked for and no token request is sent. *)
Theorem acquisition_needs_token_endpoint
    (resourceUrl metadataUrl : string) (scope : option string) (w w2 : World)
    (response : Response) (md asm : Json.object) (issuer : string)
    (others : list string) :
  outcome (fetch_impl config (log w) (GET metadataUrl)) = Ok response ->
  ok response = true ->
  response_json response = Some md ->
  Json.authorization_servers md = Some (issuer :: others) ->
  discoverAuthorizationServerMetadata config issuer
    (after_fetch config ToMetadata (GET metadataUrl) w) = (Ok asm, w2) ->
  Str.truthy_opt (Json.token_endpoint asm) = false ->
  acquisition resourceUrl metadataUrl scope w
  = (Throw "Authorization server metadata missing token_endpoint", w2)
  /\ log w2 = log w ++ new_events w w2
  /\ Forall (fun e => exists r, e = Fetched ToMetadata r) (new_events w w2).
Proof.
  intros Ho Hok Hj Hs Hd Ht. split.
  - unfold performTokenAcquisition. unfold bind at 1.
    rewrite (metadata_success _ _ _ _ Ho Hok Hj), Hs.
    unfold bind at 1. rewrite Hd, Ht. reflexivity.
  - destruct (discover_events issuer (after_fetch config ToMetadata (GET metadataUrl) w))
      as (es & L & F).
    rewrite Hd in L. cbn [snd] in L.
    assert (E : log w2 = log w ++ (Fetched ToMetadata (GET metadataUrl) :: es)).
    { rewrite L. cbn. rewrite <- app_assoc. reflexivity. }
    rewrite (new_events_app _ _ _ E). split; [exact E|].
    constructor; [eauto | exact F].
Qed.

End UpstreamErrors.

(** ** The two token requests *)

Section TokenRequests.

Variable url_origin : string -> string.
Variable form_encode : string -> string.
Variable config : CrossAppAccessConfig.

Local Abbreviation exchange := (performTokenExchange form_encode config).
Local Abbreviation grant := (performJwtBearerGrant url_origin form_encode config).
Local Abbreviation grant_request := (jwtBearerGrantRequest form_encode config).

(** X9.  When the supplier of the identity token fails,
    [performTokenExchange] fails with the same error and sends nothing
    to the identity provider. *)
Theorem id_token_failure_sends_nothing (audience : string) (resource : option string)
    (tokenEndpoint : string) (scope : option string) (w : World) (e : string) :
  getIdToken config (log w) = Throw e ->
  exchange audience resource tokenEndpoint scope w = (Throw e, record AskedIdToken 0 w)
  /\ new_events w (record AskedIdToken 0 w) = [AskedIdToken].
Proof.
  intros H. split.
  - unfold performTokenExchange, bind, call_getIdToken. rewrite H. reflexivity.
  - apply new_events_app. reflexivity.
Qed.

(** X10.  The token exchange is one POST to the path /oauth2/token under
    [idpIssuerUrl], whatever token endpoint was discovered.  With a
    response in the range 200 to 299 and a JSON body, the result is the
    [access_token] of the body when its [issued_token_type] is the ID-JAG
    type; otherwise it is an error that quotes the type received, or the
    word undefined when the body has no [issued_token_type]. *)
Theorem token_exchange_checks_issued_type (audience : string)
    (resource : option string) (tokenEndpoint : string)
    (scope : option string) (w : World) (idToken : string)
    (response : Response) (tokenResponse : Json.object) :
  let request := tokenExchangeRequest form_encode config audience resource idToken scope in
  let w1 := record AskedIdToken 0 w in
  let id_jag := "urn:ietf:params:oauth:token-type:id-jag" in
  getIdToken config (log w) = Ok idToken ->
  outcome (fetch_impl config (log w1) request) = Ok response ->
  ok response = true ->
  response_json response = Some tokenResponse ->
  snd (exchange audience resource tokenEndpoint scope w)
  = after_fetch config ToTokenEndpoint request w1
  /\ (Json.issued_token_type tokenResponse = Some id_jag ->
      fst (exchange audience resource tokenEndpoint scope w)
      = Ok (Json.access_token tokenResponse))
  /\ (forall t, Json.issued_token_type tokenResponse = Some t -> t <> id_jag ->
        fst (exchange audience resource tokenEndpoint scope w)
        = Throw ("Unexpected token type: " +:+ t))
  /\ (Json.issued_token_type tokenResponse = None ->
      fst (exchange audience resource tokenEndpoint scope w)
      = Throw "Unexpected token type: undefined")
  /\ url request = idpIssuerUrl config +:+ "/oauth2/token"
  /\ method request = "POST".
Proof.
  intros request w1 id_jag Hi Ho Hok Hj.
  assert (E : exchange audience resource tokenEndpoint scope w
              = (if bool_decide (Json.issued_token_type tokenResponse = Some id_jag)
                 then Ok (Json.access_token tokenResponse)
                 else Throw ("Unexpected token type: "
                               +:+ Str.template (Json.issued_token_type tokenResponse)),
                 after_fetch config ToTokenEndpoint request w1)).
  { unfold performTokenExchange. unfold bind at 1. unfold call_getIdToken.
    rewrite Hi. fold w1.
    unfold bind at 1.
    change (fetchFn config ToTokenEndpoint _ w1)
      with (fetchFn config ToTokenEndpoint request w1).
    rewrite fetchFn_eq, Ho, Hok. cbn [negb].
    unfold bind, json. rewrite Hj. cbn [ret]. fold id_jag.
    destruct (bool_decide _); reflexivity. }
  rewrite E. cbn [fst snd].
  split; [reflexivity|]. split; [|split; [|split; [|split; reflexivity]]].
  - intros H. rewrite bool_decide_eq_true_2 by exact H. reflexivity.
  - intros t H Hne. rewrite bool_decide_eq_false_2 by congruence.
    rewrite H. reflexivity.
  - intros H. rewrite bool_decide_eq_false_2 by congruence. rewrite H. reflexivity.
Qed.

(** X11.  When the token endpoint answers the JWT bearer grant with a
    status outside 200 to 299, [performJwtBearerGrant] throws an error
    made of the fixed prefix and the text of [extractOAuthError]; the
    token cache is left as it was and the notification hook is not
    called. *)
Theorem failed_grant_caches_nothing (idJag : option string) (tokenEndpoint : string)
    (w : World) (response : Response) :
  outcome (fetch_impl config (log w) (grant_request idJag tokenEndpoint)) = Ok response ->
  ok response = false ->
  let w1 := after_token_request config (grant_request idJag tokenEndpoint) w in
  exists msg,
    extractOAuthError response w1 = (Ok msg, w1)
    /\ grant idJag tokenEndpoint w = (Throw ("JWT bearer grant failed: " +:+ msg), w1)
    /\ tokenCache w1 = tokenCache w
    /\ new_events w w1 = [Fetched ToTokenEndpoint (grant_request idJag tokenEndpoint)].
Proof.
  intros Ho Hok w1.
  destruct (extractOAuthError_total response w1) as [msg Hm].
  exists msg. split; [exact Hm|]. split; [|split].
  - unfold performJwtBearerGrant. unfold bind at 1. unfold fetchFn at 1.
    rewrite Ho, Hok. cbn [negb].
    fold (after_token_request config (grant_request idJag tokenEndpoint) w). fold w1.
    unfold bind. rewrite Hm. reflexivity.
  - reflexivity.
  - apply new_events_app. reflexivity.
Qed.



End TokenRequests.

(** ** The cache and the paths of [fetch] *)

Section FetchPaths.

Variable url_origin : string -> string.
Variable form_encode : string -> string.
Variable config : CrossAppAccessConfig.

Local Abbreviation fetch' := (fetch url_origin form_encode config).
Local Abbreviation key_of := (getResourceUrl url_origin).

Lemma fetch_eq request w :
  fetch' request w
  = match getCachedToken config (key_of request) w with
    | (Throw e, w0) => (Throw e, w0)
    | (Ok c, w0) =>
        if Str.truthy_opt c then
          match cloneRequestWithAuth request c with
          | Throw e => (Throw e, w0)
          | Ok authed =>
              match fetchFn config ToResource authed w0 with
              | (Throw e, w1) => (Throw e, w1)
              | (Ok response, w1) =>
                  if negb (isUnauthorized response) then (Ok response, w1)
                  else bare_attempt url_origin form_encode config request
                         (tokenCache_delete_w (key_of request) w1)
              end
          end
        else bare_attempt url_origin form_encode config request w0
    end.
Proof.
  unfold fetch. unfold bind at 1.
  destruct (getCachedToken config (key_of request) w) as [[c|e] w0]; [|reflexivity].
  destruct (Str.truthy_opt c).
  - unfold bind at 1. unfold bind at 1. unfold call at 1.
    destruct (cloneRequestWithAuth request c) as [authed|e]; [|reflexivity].
    unfold bind at 1.
    destruct (fetchFn config ToResource authed w0) as [[resp|e] w1]; [|reflexivity].
    destruct (negb (isUnauthorized resp)); reflexivity.
  - reflexivity.
Qed.

Lemma truthy_nonempty tok : tok <> EmptyString -> Str.truthy_opt (Some tok) = true.
Proof. destruct tok; [congruence | reflexivity]. Qed.

(** X14.  A non-empty token from the external cache is returned as it
    is, whatever the internal cache holds; the internal cache is not
    read and nothing but that one lookup happens. *)
Theorem external_cache_wins (resourceUrl : string) (w : World)
    (lookup : list Event -> string -> Result (option string)) (tok : string) :
  getCachedAccessToken config = Some lookup ->
  lookup (log w) resourceUrl = Ok (Some tok) ->
  tok <> EmptyString ->
  getCachedToken config resourceUrl w
  = (Ok (Some tok), record (AskedCache resourceUrl) 0 w).
Proof.
  intros Hc Hl Hne. unfold getCachedToken, bind, call_getCachedAccessToken.
  rewrite Hc, Hl, (truthy_nonempty _ Hne). reflexivity.
Qed.

(** X15.  When the external cache answers with nothing, or with the
    empty string, the result is that of the internal cache. *)
Theorem external_cache_miss_falls_back (resourceUrl : string) (w : World)
    (lookup : list Event -> string -> Result (option string)) :
  getCachedAccessToken config = Some lookup ->
  lookup (log w) resourceUrl = Ok None
  \/ lookup (log w) resourceUrl = Ok (Some EmptyString) ->
  getCachedToken config resourceUrl w
  = getCachedToken_internal resourceUrl (record (AskedCache resourceUrl) 0 w).
Proof.
  intros Hc Hl. unfold getCachedToken, bind, call_getCachedAccessToken.
  rewrite Hc. destruct Hl as [-> | ->]; reflexivity.
Qed.

(** X16.  When the external cache fails, [fetch] fails with the same
    error before anything is sent: the request does not reach the
    resource. *)
Theorem external_cache_failure_aborts_fetch (request : Request) (w : World)
    (lookup : list Event -> string -> Result (option string)) (e : string) :
  getCachedAccessToken config = Some lookup ->
  lookup (log w) (key_of request) = Throw e ->
  fetch' request w = (Throw e, record (AskedCache (key_of request)) 0 w)
  /\ new_events w (snd (fetch' request w)) = [AskedCache (key_of request)].
Proof.
  intros Hc Hl.
  assert (E : fetch' request w = (Throw e, record (AskedCache (key_of request)) 0 w)).
  { rewrite fetch_eq. unfold getCachedToken, bind, call_getCachedAccessToken.
    rewrite Hc, Hl. reflexivity. }
  split; [exact E|]. rewrite E. cbn [snd].
  apply new_events_app. reflexivity.
Qed.

(** X17.  [clearTokenForResource] removes the entry of its key only:
    afterwards the internal lookup for that key returns nothing, and the
    lookup for any other key returns what it returned before.  Pending
    acquisitions and the log are untouched. *)
Theorem clearTokenForResource_removes_one (resourceUrl other : string) (w : World) :
  let w' := snd (clearTokenForResource resourceUrl w) in
  getCachedToken_internal resourceUrl w' = (Ok None, w')
  /\ (other <> resourceUrl ->
      fst (getCachedToken_internal other w') = fst (getCachedToken_internal other w))
  /\ pendingTokenRequests w' = pendingTokenRequests w
  /\ log w' = log w.
Proof.
  intros w'. subst w'. unfold clearTokenForResource. cbn [tokenCache_delete snd].
  split; [|split; [|split; reflexivity]].
  - unfold getCachedToken_internal, bind, tokenCache_get, Date_now.
    cbn [tokenCache_delete_w tokenCache]. rewrite lookup_delete_eq. reflexivity.
  - intros Hne. unfold getCachedToken_internal, bind, tokenCache_get, Date_now.
    cbn [tokenCache_delete_w tokenCache now].
    rewrite lookup_delete_ne by congruence.
    destruct (tokenCache w !! other) as [c|]; [|reflexivity].
    destruct (expiresAt c >? now w); reflexivity.
Qed.

(** X18.  After [clearTokenCache] the internal lookup returns nothing
    for every key, at any time; pending acquisitions are kept. *)
Theorem clearTokenCache_removes_all (resourceUrl : string) (t : Z) (w : World) :
  let w' := snd (clearTokenCache w) in
  getCachedToken_internal resourceUrl (set_now t w') = (Ok None, set_now t w')
  /\ pendingTokenRequests w' = pendingTokenRequests w.
Proof.
  intros w'. split; [|reflexivity].
  unfold getCachedToken_internal, bind, tokenCache_get, Date_now.
  cbn. rewrite lookup_empty. reflexivity.
Qed.

(** X19.  Without a cached token, a response whose status is not 401 is
    passed through: [fetch] sends the caller's request once, unchanged,
    returns the response it gets, and starts no acquisition. *)
Theorem other_status_passes_through (request : Request) (w w0 : World)
    (c : option string) (response : Response) :
  getCachedToken config (key_of request) w = (Ok c, w0) ->
  Str.truthy_opt c = false ->
  outcome (fetch_impl config (log w0) request) = Ok response ->
  status response <> 401 ->
  fetch' request w = (Ok response, after_fetch config ToResource request w0)
  /\ new_events w0 (after_fetch config ToResource request w0)
     = [Fetched ToResource request].
Proof.
  intros Hc Ht Ho Hs. split.
  - rewrite fetch_eq, Hc, Ht. unfold bare_attempt, bind.
    rewrite fetchFn_eq, Ho. unfold isUnauthorized.
    apply Z.eqb_neq in Hs. rewrite Hs. reflexivity.
  - apply new_events_app. reflexivity.
Qed.

(** X20.  A rejection of the transport on the bare attempt (a network
    error) is passed to the caller as it is; nothing else is sent. *)
Theorem network_error_propagates (request : Request) (w w0 : World)
    (c : option string) (e : string) :
  getCachedToken config (key_of request) w = (Ok c, w0) ->
  Str.truthy_opt c = false ->
  outcome (fetch_impl config (log w0) request) = Throw e ->
  fetch' request w = (Throw e, after_fetch config ToResource request w0).
Proof.
  intros Hc Ht Ho.
  rewrite fetch_eq, Hc, Ht. unfold bare_attempt, bind.
  rewrite fetchFn_eq, Ho. reflexivity.
Qed.

(** X21.  With a cached token that the resource accepts (any status but
    401), [fetch] sends one request, the copy of the caller's request
    with that token, and returns its response; the cache is not
    changed. *)
Theorem accepted_cached_token_is_one_request (request authed : Request)
    (w w0 : World) (tok : string) (response : Response) :
  getCachedToken config (key_of request) w = (Ok (Some tok), w0) ->
  tok <> EmptyString ->
  cloneRequestWithAuth request (Some tok) = Ok authed ->
  outcome (fetch_impl config (log w0) authed) = Ok response ->
  status response <> 401 ->
  fetch' request w = (Ok response, after_fetch config ToResource authed w0)
  /\ new_events w0 (after_fetch config ToResource authed w0)
     = [Fetched ToResource authed]
  /\ tokenCache (after_fetch config ToResource authed w0) = tokenCache w0.
Proof.
  intros Hc Hne Hcl Ho Hs. split; [|split; [|reflexivity]].
  - rewrite fetch_eq, Hc, (truthy_nonempty _ Hne), Hcl.
    rewrite fetchFn_eq, Ho. unfold isUnauthorized.
    apply Z.eqb_neq in Hs. rewrite Hs. reflexivity.
  - apply new_events_app. reflexivity.
Qed.

(** X22.  When the resource answers 401 to the cached token, the entry
    of the resource in the internal cache is deleted and the request is
    sent again without a token; if that answer is not a 401 it is
    returned, two requests have been sent, and the entry is gone. *)
Theorem rejected_cached_token_is_evicted (request authed : Request) (w w0 : World)
    (tok : string) (rejected response : Response) :
  let w1 := tokenCache_delete_w (key_of request)
              (after_fetch config ToResource authed w0) in
  let w2 := after_fetch config ToResource request w1 in
  getCachedToken config (key_of request) w = (Ok (Some tok), w0) ->
  tok <> EmptyString ->
  cloneRequestWithAuth request (Some tok) = Ok authed ->
  outcome (fetch_impl config (log w0) authed) = Ok rejected ->
  status rejected = 401 ->
  outcome (fetch_impl config (log w1) request) = Ok response ->
  status response <> 401 ->
  fetch' request w = (Ok response, w2)
  /\ tokenCache w2 = delete (key_of request) (tokenCache w0)
  /\ new_events w0 w2 = [Fetched ToResource authed; Fetched ToResource request].
Proof.
  intros w1 w2 Hc Hne Hcl Ho Hr Ho2 Hs.
  split; [|split; [reflexivity|]].
  - rewrite fetch_eq, Hc, (truthy_nonempty _ Hne), Hcl.
    rewrite fetchFn_eq, Ho. unfold isUnauthorized at 1. rewrite Hr.
    change (401 =? 401) with true. cbn [negb]. fold w1.
    unfold bare_attempt, bind. rewrite fetchFn_eq, Ho2. unfold isUnauthorized.
    apply Z.eqb_neq in Hs. rewrite Hs. reflexivity.
  - apply new_events_app. cbn. rewrite <- app_assoc. reflexivity.
Qed.

Lemma handleUnauthorized_retries request response w h :
  HeadersOps.get "WWW-Authenticate" (response_headers response) = Some h ->
  scheme (parseWwwAuthenticate h) = "Bearer" ->
  Str.truthy_opt (resource_metadata (parseWwwAuthenticate h)) = true ->
  handleUnauthorized url_origin form_encode config request response w
  = match acquireAccessToken url_origin form_encode config (key_of request)
            (Str.template (resource_metadata (parseWwwAuthenticate h)))
            (scope (parseWwwAuthenticate h)) w with
    | (Ok tok, w1) =>
        match cloneRequestWithAuth request tok with
        | Ok retry => fetchFn config ToResource retry w1
        | Throw e => (Throw e, w1)
        end
    | (Throw e, w1) => (Throw e, w1)
    end.
Proof.
  intros Hh Hs Hm.
  rewrite (handleUnauthorized_acquires _ _ _ _ _ _ _ Hh Hs Hm).
  unfold bind, call.
  destruct (acquireAccessToken _ _ _ _ _ _ w) as [[tok|e] w1]; [|reflexivity].
  destruct (cloneRequestWithAuth request tok); reflexivity.
Qed.

Lemma bare_attempt_challenged request w0 challenge h :
  outcome (fetch_impl config (log w0) request) = Ok challenge ->
  status challenge = 401 ->
  HeadersOps.get "WWW-Authenticate" (response_headers challenge) = Some h ->
  scheme (parseWwwAuthenticate h) = "Bearer" ->
  Str.truthy_opt (resource_metadata (parseWwwAuthenticate h)) = true ->
  bare_attempt url_origin form_encode config request w0
  = match acquireAccessToken url_origin form_encode config (key_of request)
            (Str.template (resource_metadata (parseWwwAuthenticate h)))
            (scope (parseWwwAuthenticate h))
            (after_fetch config ToResource request w0) with
    | (Ok tok, w1) =>
        match cloneRequestWithAuth request tok with
        | Ok retry => fetchFn config ToResource retry w1
        | Throw e => (Throw e, w1)
        end
    | (Throw e, w1) => (Throw e, w1)
    end.
Proof.
  intros Ho Hst Hh Hs Hm. unfold bare_attempt. unfold bind at 1.
  rewrite fetchFn_eq, Ho. unfold isUnauthorized. rewrite Hst.
  change (401 =? 401) with true. cbn [negb].
  apply handleUnauthorized_retries; assumption.
Qed.

(** X23.  After a successful acquisition [handleUnauthorized] sends the
    copy of the request with the new token once and returns whatever
    the transport gives for it, be it another 401 or a rejection: there
    is no second acquisition and no further retry. *)
Theorem retry_outcome_is_final (request retry : Request) (response : Response)
    (w w1 : World) (h : string) (tok : option string) :
  HeadersOps.get "WWW-Authenticate" (response_headers response) = Some h ->
  scheme (parseWwwAuthenticate h) = "Bearer" ->
  Str.truthy_opt (resource_metadata (parseWwwAuthenticate h)) = true ->
  acquireAccessToken url_origin form_encode config (key_of request)
    (Str.template (resource_metadata (parseWwwAuthenticate h)))
    (scope (parseWwwAuthenticate h)) w = (Ok tok, w1) ->
  cloneRequestWithAuth request tok = Ok retry ->
  handleUnauthorized url_origin form_encode config request response w
  = (outcome (fetch_impl config (log w1) retry), after_fetch config ToResource retry w1)
  /\ new_events w1 (after_fetch config ToResource retry w1) = [Fetched ToResource retry].
Proof.
  intros Hh Hs Hm Ha Hcl. split.
  - rewrite (handleUnauthorized_retries _ _ _ _ Hh Hs Hm), Ha, Hcl. reflexivity.
  - apply new_events_app. reflexivity.
Qed.

(** X27.  The round trip: without a cached token, when the resource
    answers 401 with a Bearer challenge that carries resource_metadata,
    the acquisition yields a token and the copy of the request with
    that token can be built, [fetch] returns the outcome of the retry,
    and exactly two requests have gone to the resource: the caller's
    request and that copy. *)
Theorem challenge_round_trip (request retry : Request) (w w0 w2 : World)
    (c : option string) (challenge : Response) (h : string) (tok : option string) :
  getCachedToken config (key_of request) w = (Ok c, w0) ->
  Str.truthy_opt c = false ->
  outcome (fetch_impl config (log w0) request) = Ok challenge ->
  status challenge = 401 ->
  HeadersOps.get "WWW-Authenticate" (response_headers challenge) = Some h ->
  scheme (parseWwwAuthenticate h) = "Bearer" ->
  Str.truthy_opt (resource_metadata (parseWwwAuthenticate h)) = true ->
  acquireAccessToken url_origin form_encode config (key_of request)
    (Str.template (resource_metadata (parseWwwAuthenticate h)))
    (scope (parseWwwAuthenticate h))
    (after_fetch config ToResource request w0) = (Ok tok, w2) ->
  cloneRequestWithAuth request tok = Ok retry ->
  fetch' request w
  = (outcome (fetch_impl config (log w2) retry), after_fetch config ToResource retry w2)
  /\ resource_requests (new_events w0 (after_fetch config ToResource retry w2))
     = [request; retry].
Proof.
  intros Hc Ht Ho Hst Hh Hs Hm Ha Hcl. split.
  - rewrite fetch_eq, Hc, Ht.
    rewrite (bare_attempt_challenged _ _ _ _ Ho Hst Hh Hs Hm), Ha, Hcl. reflexivity.
  - destruct (quiet_acquireAccessToken url_origin form_encode config (key_of request)
                (Str.template (resource_metadata (parseWwwAuthenticate h)))
                (scope (parseWwwAuthenticate h))
                (after_fetch config ToResource request w0)) as (es & L & Q).
    rewrite Ha in L. cbn [snd] in L.
    rewrite (new_events_app w0 _ ([Fetched ToResource request] ++ es
                                    ++ [Fetched ToResource retry])).
    + rewrite !resource_requests_app, Q. reflexivity.
    + cbn [after_fetch record log]. rewrite L. cbn [after_fetch record log].
      rewrite <- !app_assoc. reflexivity.
Qed.

(** X29.  A request with a body never goes out with a token, because
    no copy of it can be built.  With a token in the cache, [fetch]
    rejects at once and nothing is sent, not even the caller's own
    request.  Without one, after a 401 with a Bearer challenge and a
    successful acquisition, [fetch] rejects instead of retrying: the
    caller's request went to the resource once. *)
Theorem request_with_body_is_never_authenticated (request : Request) :
  body request <> None ->
  (forall tok, exists e, cloneRequestWithAuth request tok = Throw e)
  /\ (forall w w0 c,
        getCachedToken config (key_of request) w = (Ok c, w0) ->
        Str.truthy_opt c = true ->
        exists e, fetch' request w = (Throw e, w0)
                  /\ resource_requests (new_events w w0) = [])
  /\ (forall w w0 w2 c challenge h tok,
        getCachedToken config (key_of request) w = (Ok c, w0) ->
        Str.truthy_opt c = false ->
        outcome (fetch_impl config (log w0) request) = Ok challenge ->
        status challenge = 401 ->
        HeadersOps.get "WWW-Authenticate" (response_headers challenge) = Some h ->
        scheme (parseWwwAuthenticate h) = "Bearer" ->
        Str.truthy_opt (resource_metadata (parseWwwAuthenticate h)) = true ->
        acquireAccessToken url_origin form_encode config (key_of request)
          (Str.template (resource_metadata (parseWwwAuthenticate h)))
          (scope (parseWwwAuthenticate h))
          (after_fetch config ToResource request w0) = (Ok tok, w2) ->
        exists e, fetch' request w = (Throw e, w2)
                  /\ resource_requests (new_events w0 w2) = [request]).
Proof.
  intros Hb.
  assert (Hthrow : forall tok, exists e, cloneRequestWithAuth request tok = Throw e).
  { intros tok. apply clone_throws. left. exact Hb. }
  split; [exact Hthrow|]. split.
  - intros w w0 c Hc Ht. destruct (Hthrow c) as [e He]. exists e. split.
    + rewrite fetch_eq, Hc, Ht, He. reflexivity.
    + destruct (quiet_getCachedToken config (key_of request) w) as (es & L & Q).
      rewrite Hc in L. cbn [snd] in L. rewrite (new_events_app _ _ _ L). exact Q.
  - intros w w0 w2 c challenge h tok Hc Ht Ho Hst Hh Hs Hm Ha.
    destruct (Hthrow tok) as [e He]. exists e. split.
    + rewrite fetch_eq, Hc, Ht.
      rewrite (bare_attempt_challenged _ _ _ _ Ho Hst Hh Hs Hm), Ha, He. reflexivity.
    + destruct (quiet_acquireAccessToken url_origin form_encode config (key_of request)
                  (Str.template (resource_metadata (parseWwwAuthenticate h)))
                  (scope (parseWwwAuthenticate h))
                  (after_fetch config ToResource request w0)) as (es & L & Q).
      rewrite Ha in L. cbn [snd] in L.
      rewrite (new_events_app w0 _ ([Fetched ToResource request] ++ es)).
      * rewrite resource_requests_app, Q. reflexivity.
      * rewrite L. cbn [after_fetch record log]. rewrite <- app_assoc. reflexivity.
Qed.

(** X28.  When the acquisition fails after such a challenge, [fetch]
    fails with the error of the acquisition and does not retry: the
    caller's request went to the resource once. *)
Theorem failed_acquisition_aborts_fetch (request : Request) (w w0 w2 : World)
    (c : option string) (challenge : Response) (h e : string) :
  getCachedToken config (key_of request) w = (Ok c, w0) ->
  Str.truthy_opt c = false ->
  outcome (fetch_impl config (log w0) request) = Ok challenge ->
  status challenge = 401 ->
  HeadersOps.get "WWW-Authenticate" (response_headers challenge) = Some h ->
  scheme (parseWwwAuthenticate h) = "Bearer" ->
  Str.truthy_opt (resource_metadata (parseWwwAuthenticate h)) = true ->
  acquireAccessToken url_origin form_encode config (key_of request)
    (Str.template (resource_metadata (parseWwwAuthenticate h)))
    (scope (parseWwwAuthenticate h))
    (after_fetch config ToResource request w0) = (Throw e, w2) ->
  fetch' request w = (Throw e, w2)
  /\ resource_requests (new_events w0 w2) = [request].
Proof.
  intros Hc Ht Ho Hst Hh Hs Hm Ha. split.
  - rewrite fetch_eq, Hc, Ht.
    rewrite (bare_attempt_challenged _ _ _ _ Ho Hst Hh Hs Hm), Ha. reflexivity.
  - destruct (quiet_acquireAccessToken url_origin form_encode config (key_of request)
                (Str.template (resource_metadata (parseWwwAuthenticate h)))
                (scope (parseWwwAuthenticate h))
                (after_fetch config ToResource request w0)) as (es & L & Q).
    rewrite Ha in L. cbn [snd] in L.
    rewrite (new_events_app w0 _ ([Fetched ToResource request] ++ es)).
    + rewrite resource_requests_app, Q. reflexivity.
    + rewrite L. cbn [after_fetch record log]. rewrite <- app_assoc. reflexivity.
Qed.

End FetchPaths.

(** ** The form body *)

(** X24.  An entry whose value is undefined adds nothing to the form
    body, wherever it stands among the entries; a record with no defined
    value gives the empty body. *)
Theorem buildFormData_skips_undefined (form_encode : string -> string)
    (before after : list (string * option string)) (k : string) :
  buildFormData form_encode (before ++ (k, None) :: after)
  = buildFormData form_encode (before ++ after)
  /\ (forall data : list (string * option string),
        Forall (fun e => snd e = None) data ->
        buildFormData form_encode data = EmptyString).
Proof.
  split.
  - unfold buildFormData. rewrite !omap_app. reflexivity.
  - intros data H. unfold buildFormData.
    replace (omap _ data) with (@nil string); [reflexivity|].
    induction H as [|[k' v] l Hv _ IH]; [reflexivity|].
    simpl in Hv. subst v. cbn [omap list_omap]. exact IH.
Qed.

(** ** examples/node.ts: the token manager of the server *)

Module ServerTokenManagerFacts.

Import ServerTokenManager.

Lemma startsWith_append p x : startsWith (p +:+ x) p = true.
Proof.
  induction p as [|c p IH]; [reflexivity|].
  rewrite append_cons. cbn [startsWith]. rewrite IH, Ascii.eqb_refl. reflexivity.
Qed.

Lemma own_key_starts_with_user u r : startsWith (key_of u r) (u +:+ ":") = true.
Proof.
  unfold key_of.
  replace (u +:+ ":" +:+ r) with ((u +:+ ":") +:+ r) by apply append_assoc.
  apply startsWith_append.
Qed.

(** X25.  A token stored by [setAccessToken] at time T with a lifetime
    of [expiresIn] seconds is returned by [getCachedAccessToken] for the
    same user and resource at every time before
    T + expiresIn * 1000 - 60000, with the state unchanged; from that
    time on the lookup returns nothing and deletes the entry, so that
    later lookups return nothing whatever the clock says. *)
Theorem stored_token_is_served_until_margin (T t t' expiresIn : Z)
    (userId resourceUrl tok : string) (s : state) :
  let s1 := setAccessToken T userId resourceUrl tok expiresIn s in
  (t < T + expiresIn * 1000 - 60000 ->
   getCachedAccessToken t userId resourceUrl s1 = (Some tok, s1))
  /\ (T + expiresIn * 1000 - 60000 <= t ->
      let r := getCachedAccessToken t userId resourceUrl s1 in
      fst r = None
      /\ accessTokens (snd r) !! key_of userId resourceUrl = None
      /\ getCachedAccessToken t' userId resourceUrl (snd r) = (None, snd r)).
Proof.
  intros s1. subst s1. unfold getCachedAccessToken, setAccessToken.
  cbn [accessTokens idTokens]. rewrite lookup_insert_eq. cbn [expiresAt token].
  split; intros Ht.
  - replace (t <? _) with true by (symmetry; apply Z.ltb_lt; lia). reflexivity.
  - replace (t <? _) with false by (symmetry; apply Z.ltb_ge; lia).
    cbn [fst snd accessTokens]. rewrite lookup_delete_eq. repeat split.
Qed.

(** X26.  [clearUserTokens] removes the identity token of the user and
    every access token whose key starts with the user and a colon, and
    keeps every other entry.  Afterwards [getIdToken] throws for that
    user and [getCachedAccessToken] returns nothing for that user and any
    resource. *)
Theorem clearUserTokens_clears_by_prefix (userId resourceUrl : string) (t : Z)
    (s : state) :
  let s' := clearUserTokens userId s in
  (forall k,
      accessTokens s' !! k
      = if startsWith k (userId +:+ ":") then None else accessTokens s !! k)
  /\ (forall u, idTokens s' !! u = if decide (u = userId) then None else idTokens s !! u)
  /\ getIdToken userId s' = Throw ("No ID Token found for user " +:+ userId)
  /\ getCachedAccessToken t userId resourceUrl s' = (None, s').
Proof.
  intros s'.
  assert (Hk : forall k,
             accessTokens s' !! k
             = if startsWith k (userId +:+ ":") then None else accessTokens s !! k).
  { intros k. subst s'. unfold clearUserTokens. cbn [accessTokens].
    destruct (startsWith k (userId +:+ ":")) eqn:E.
    - apply map_lookup_filter_None. right. intros x _. cbn. rewrite E. discriminate.
    - destruct (accessTokens s !! k) as [x|] eqn:Hx.
      + apply map_lookup_filter_Some. split; [exact Hx | exact E].
      + apply map_lookup_filter_None. left. exact Hx. }
  split; [exact Hk|]. split; [|split].
  - intros u. subst s'. cbn [clearUserTokens idTokens].
    destruct (decide (u = userId)) as [->|Hne].
    + apply lookup_delete_eq.
    + apply lookup_delete_ne. congruence.
  - unfold getIdToken. subst s'. cbn [clearUserTokens idTokens].
    rewrite lookup_delete_eq. reflexivity.
  - unfold getCachedAccessToken.
    rewrite Hk, own_key_starts_with_user. reflexivity.
Qed.

End ServerTokenManagerFacts.

(** ** The properties above on the deployment *)

Import Scenario3.

Lemma metadata_failure_is_fatal_witness :
  let denied := {| status := 403; statusText := "Forbidden"; response_headers := [];
                   response_json := Some (oauth_error "access_denied" (Some "policy")) |} in
  let cfg := config_with (network_with metadata_url {| elapsed := 5; outcome := Ok denied |})
               (Ok "id-token-1") None in
  (outcome (fetch_impl cfg (log (start 0)) (GET metadata_url)) = Ok denied
   /\ ok denied = false)
  /\ exists msg,
       fetchProtectedResourceMetadata cfg metadata_url (start 0)
       = (Throw ("Failed to fetch protected resource metadata: " +:+ msg),
          after_fetch cfg ToMetadata (GET metadata_url) (start 0)).
Proof.
  intros denied cfg. split; [split; reflexivity|].
  destruct (metadata_failure_is_fatal cfg metadata_url (start 0) denied eq_refl eq_refl)
    as (msg & _ & H & _).
  exists msg. exact H.
Defined.

Lemma acquisition_needs_authorization_server_witness :
  let cfg := config_with (network_with metadata_url
                            {| elapsed := 5; outcome := Ok (okay (Some no_servers_doc)) |})
               (Ok "id-token-1") None in
  (outcome (fetch_impl cfg (log (start 0)) (GET metadata_url))
   = Ok (okay (Some no_servers_doc))
   /\ ok (okay (Some no_servers_doc)) = true
   /\ response_json (okay (Some no_servers_doc)) = Some no_servers_doc
   /\ (Json.authorization_servers no_servers_doc = None
       \/ Json.authorization_servers no_servers_doc = Some []))
  /\ fst (performTokenAcquisition origin encode cfg resource_origin metadata_url None
            (start 0))
     = Throw "No authorization servers found in protected resource metadata".
Proof.
  intros cfg. split; [repeat split; right; reflexivity|].
  rewrite (proj1 (acquisition_needs_authorization_server origin encode cfg
                    resource_origin metadata_url None (start 0)
                    (okay (Some no_servers_doc)) no_servers_doc
                    eq_refl eq_refl eq_refl (or_intror eq_refl))).
  reflexivity.
Defined.

Lemma acquisition_needs_token_endpoint_witness :
  let discovery := "https://auth.example.com/.well-known/oauth-authorization-server" in
  let cfg := config_with (network_with discovery
                            {| elapsed := 5; outcome := Ok (okay (Some Json.empty)) |})
               (Ok "id-token-1") None in
  let w1 := after_fetch cfg ToMetadata (GET metadata_url) (start 0) in
  let w2 := after_fetch cfg ToMetadata (GET discovery) w1 in
  (outcome (fetch_impl cfg (log (start 0)) (GET metadata_url))
   = Ok (okay (Some resource_metadata_doc))
   /\ Json.authorization_servers resource_metadata_doc = Some [issuer]
   /\ discoverAuthorizationServerMetadata cfg issuer w1 = (Ok Json.empty, w2)
   /\ Str.truthy_opt (Json.token_endpoint Json.empty) = false)
  /\ performTokenAcquisition origin encode cfg resource_origin metadata_url None (start 0)
     = (Throw "Authorization server metadata missing token_endpoint", w2).
Proof.
  intros discovery cfg w1 w2.
  assert (Hd : discoverAuthorizationServerMetadata cfg issuer w1 = (Ok Json.empty, w2))
    by (vm_compute; reflexivity).
  split; [repeat split; exact Hd|].
  exact (proj1 (acquisition_needs_token_endpoint origin encode cfg resource_origin
                  metadata_url None (start 0) w2 (okay (Some resource_metadata_doc))
                  resource_metadata_doc Json.empty issuer []
                  eq_refl eq_refl eq_refl eq_refl Hd eq_refl)).
Defined.

Lemma id_token_failure_sends_nothing_witness :
  let cfg := config_with network (Throw "not signed in") None in
  getIdToken cfg (log (start 0)) = Throw "not signed in"
  /\ performTokenExchange encode cfg issuer (Some resource_origin) token_url None
       (start 0)
     = (Throw "not signed in", record AskedIdToken 0 (start 0)).
Proof.
  intros cfg. split; [reflexivity|].
  exact (proj1 (id_token_failure_sends_nothing encode cfg issuer (Some resource_origin)
                  token_url None (start 0) "not signed in" eq_refl)).
Defined.

Lemma token_exchange_checks_issued_type_witness :
  let cfg := config_with (network_with "https://idp.example.com/oauth2/token"
                            {| elapsed := 5; outcome := Ok (okay (Some Json.empty)) |})
               (Ok "id-token-1") None in
  let request := tokenExchangeRequest encode cfg issuer (Some resource_origin)
                   "id-token-1" None in
  let w1 := record AskedIdToken 0 (start 0) in
  (getIdToken cfg (log (start 0)) = Ok "id-token-1"
   /\ outcome (fetch_impl cfg (log w1) request) = Ok (okay (Some Json.empty))
   /\ ok (okay (Some Json.empty)) = true
   /\ response_json (okay (Some Json.empty)) = Some Json.empty
   /\ Json.issued_token_type Json.empty = None)
  /\ fst (performTokenExchange encode cfg issuer (Some resource_origin) token_url None
            (start 0))
     = Throw "Unexpected token type: undefined".
Proof.
  intros cfg request w1. split; [repeat split|].
  exact (proj1 (proj2 (proj2 (proj2
           (token_exchange_checks_issued_type encode cfg issuer (Some resource_origin)
              token_url None (start 0) "id-token-1" (okay (Some Json.empty))
              Json.empty eq_refl eq_refl eq_refl eq_refl)))) eq_refl).
Defined.

Lemma failed_grant_caches_nothing_witness :
  let refused := {| status := 400; statusText := "Bad Request"; response_headers := [];
                    response_json := Some (oauth_error "invalid_grant" None) |} in
  let cfg := config_with (network_with token_url {| elapsed := 5; outcome := Ok refused |})
               (Ok "id-token-1") None in
  let request := jwtBearerGrantRequest encode cfg (Some "id-jag-1") token_url in
  (outcome (fetch_impl cfg (log (start 0)) request) = Ok refused
   /\ ok refused = false)
  /\ exists msg,
       performJwtBearerGrant origin encode cfg (Some "id-jag-1") token_url (start 0)
       = (Throw ("JWT bearer grant failed: " +:+ msg),
          after_token_request cfg request (start 0))
       /\ tokenCache (after_token_request cfg request (start 0)) = tokenCache (start 0).
Proof.
  intros refused cfg request. split; [split; reflexivity|].
  destruct (failed_grant_caches_nothing origin encode cfg (Some "id-jag-1") token_url (start 0)
              refused eq_refl eq_refl) as (msg & _ & H & Hc & _).
  exists msg. split; [exact H | exact Hc].
Defined.



Lemma external_cache_wins_witness :
  let lookup := fun (_ : list Event) (_ : string) => Ok (Some "at-9") in
  let cfg := config_with network (Ok "id-token-1") (Some lookup) in
  (getCachedAccessToken cfg = Some lookup
   /\ lookup (log (start 0)) resource_origin = Ok (Some "at-9")
   /\ "at-9" <> EmptyString)
  /\ getCachedToken cfg resource_origin (start 0)
     = (Ok (Some "at-9"), record (AskedCache resource_origin) 0 (start 0)).
Proof.
  intros lookup cfg.
  assert (Hne : "at-9" <> EmptyString) by discriminate.
  split; [repeat split; exact Hne|].
  exact (external_cache_wins cfg resource_origin (start 0) lookup "at-9"
           eq_refl eq_refl Hne).
Defined.

Lemma external_cache_miss_falls_back_witness :
  let lookup := fun (_ : list Event) (_ : string) => @Ok (option string) None in
  let cfg := config_with network (Ok "id-token-1") (Some lookup) in
  (getCachedAccessToken cfg = Some lookup
   /\ (lookup (log (start 0)) resource_origin = Ok None
       \/ lookup (log (start 0)) resource_origin = Ok (Some EmptyString)))
  /\ getCachedToken cfg resource_origin (start 0)
     = getCachedToken_internal resource_origin
         (record (AskedCache resource_origin) 0 (start 0)).
Proof.
  intros lookup cfg. split; [split; [|left]; reflexivity|].
  exact (external_cache_miss_falls_back cfg resource_origin (start 0) lookup
           eq_refl (or_introl eq_refl)).
Defined.

Lemma external_cache_failure_aborts_fetch_witness :
  let lookup := fun (_ : list Event) (_ : string) =>
                  @Throw (option string) "cache unreachable" in
  let cfg := config_with network (Ok "id-token-1") (Some lookup) in
  (getCachedAccessToken cfg = Some lookup
   /\ lookup (log (start 0)) (getResourceUrl origin request) = Throw "cache unreachable")
  /\ fetch origin encode cfg request (start 0)
     = (Throw "cache unreachable",
        record (AskedCache (getResourceUrl origin request)) 0 (start 0)).
Proof.
  intros lookup cfg. split; [split; reflexivity|].
  exact (proj1 (external_cache_failure_aborts_fetch origin encode cfg request (start 0)
                  lookup "cache unreachable" eq_refl eq_refl)).
Defined.

Lemma other_status_passes_through_witness :
  let cfg := config_with network_open (Ok "id-token-1") None in
  (getCachedToken cfg (getResourceUrl origin request) (start 0) = (Ok None, start 0)
   /\ Str.truthy_opt None = false
   /\ outcome (fetch_impl cfg (log (start 0)) request) = Ok (okay None)
   /\ status (okay None) <> 401)
  /\ fetch origin encode cfg request (start 0)
     = (Ok (okay None), after_fetch cfg ToResource request (start 0)).
Proof.
  intros cfg.
  assert (Hs : status (okay None) <> 401) by discriminate.
  split; [repeat split; exact Hs|].
  exact (proj1 (other_status_passes_through origin encode cfg request (start 0) (start 0)
                  None (okay None) eq_refl eq_refl eq_refl Hs)).
Defined.

Lemma network_error_propagates_witness :
  let cfg := config_with (network_with resource_url
                            {| elapsed := 1; outcome := Throw "fetch failed" |})
               (Ok "id-token-1") None in
  (getCachedToken cfg (getResourceUrl origin request) (start 0) = (Ok None, start 0)
   /\ Str.truthy_opt None = false
   /\ outcome (fetch_impl cfg (log (start 0)) request) = Throw "fetch failed")
  /\ fetch origin encode cfg request (start 0)
     = (Throw "fetch failed", after_fetch cfg ToResource request (start 0)).
Proof.
  intros cfg. split; [repeat split|].
  exact (network_error_propagates origin encode cfg request (start 0) (start 0)
           None "fetch failed" eq_refl eq_refl eq_refl).
Defined.

Lemma accepted_cached_token_is_one_request_witness :
  let lookup := fun (_ : list Event) (_ : string) => Ok (Some "at-1") in
  let cfg := config_with network (Ok "id-token-1") (Some lookup) in
  let w0 := record (AskedCache (getResourceUrl origin request)) 0 (start 0) in
  let authed := new_Request resource_url "GET" [("Authorization", "Bearer at-1")] None in
  (getCachedToken cfg (getResourceUrl origin request) (start 0) = (Ok (Some "at-1"), w0)
   /\ "at-1" <> EmptyString
   /\ cloneRequestWithAuth request (Some "at-1") = Ok authed
   /\ outcome (fetch_impl cfg (log w0) authed) = Ok (okay None)
   /\ status (okay None) <> 401)
  /\ fetch origin encode cfg request (start 0)
     = (Ok (okay None), after_fetch cfg ToResource authed w0).
Proof.
  intros lookup cfg w0 authed.
  assert (Hne : "at-1" <> EmptyString) by discriminate.
  assert (Hs : status (okay None) <> 401) by discriminate.
  split; [repeat split; solve [exact Hne | exact Hs]|].
  exact (proj1 (accepted_cached_token_is_one_request origin encode cfg request authed
                  (start 0) w0 "at-1" (okay None) eq_refl Hne eq_refl eq_refl Hs)).
Defined.

Lemma rejected_cached_token_is_evicted_witness :
  let lookup := fun (_ : list Event) (_ : string) => Ok (Some "stale") in
  let cfg := config_with network_open (Ok "id-token-1") (Some lookup) in
  let w0 := record (AskedCache (getResourceUrl origin request)) 0 (start 0) in
  let authed := new_Request resource_url "GET" [("Authorization", "Bearer stale")] None in
  let w1 := tokenCache_delete_w (getResourceUrl origin request)
              (after_fetch cfg ToResource authed w0) in
  let w2 := after_fetch cfg ToResource request w1 in
  (getCachedToken cfg (getResourceUrl origin request) (start 0) = (Ok (Some "stale"), w0)
   /\ "stale" <> EmptyString
   /\ cloneRequestWithAuth request (Some "stale") = Ok authed
   /\ outcome (fetch_impl cfg (log w0) authed) = Ok unauthorized
   /\ status unauthorized = 401
   /\ outcome (fetch_impl cfg (log w1) request) = Ok (okay None)
   /\ status (okay None) <> 401)
  /\ fetch origin encode cfg request (start 0) = (Ok (okay None), w2)
  /\ new_events w0 w2 = [Fetched ToResource authed; Fetched ToResource request].
Proof.
  intros lookup cfg w0 authed w1 w2.
  assert (Hne : "stale" <> EmptyString) by discriminate.
  assert (Hs : status (okay None) <> 401) by discriminate.
  split; [repeat split; solve [exact Hne | exact Hs]|].
  pose proof (rejected_cached_token_is_evicted origin encode cfg request authed (start 0)
                w0 "stale" unauthorized (okay None) eq_refl Hne eq_refl eq_refl eq_refl
                eq_refl Hs)
    as H.
  split; [exact (proj1 H) | exact (proj2 (proj2 H))].
Defined.

Lemma retry_outcome_is_final_witness :
  let h := challenge_header in
  let w1 := snd (acquireAccessToken origin encode config (getResourceUrl origin request)
                   metadata_url None (start 0)) in
  let retry := new_Request resource_url "GET" [("Authorization", "Bearer at-1")] None in
  (HeadersOps.get "WWW-Authenticate" (response_headers unauthorized) = Some h
   /\ scheme (parseWwwAuthenticate h) = "Bearer"
   /\ Str.truthy_opt (resource_metadata (parseWwwAuthenticate h)) = true
   /\ acquireAccessToken origin encode config (getResourceUrl origin request)
        (Str.template (resource_metadata (parseWwwAuthenticate h)))
        (scope (parseWwwAuthenticate h)) (start 0) = (Ok (Some "at-1"), w1)
   /\ cloneRequestWithAuth request (Some "at-1") = Ok retry)
  /\ handleUnauthorized origin encode config request unauthorized (start 0)
     = (outcome (fetch_impl config (log w1) retry),
        after_fetch config ToResource retry w1).
Proof.
  intros h w1 retry.
  assert (Ha : acquireAccessToken origin encode config (getResourceUrl origin request)
                 (Str.template (resource_metadata (parseWwwAuthenticate h)))
                 (scope (parseWwwAuthenticate h)) (start 0) = (Ok (Some "at-1"), w1))
    by (vm_compute; reflexivity).
  assert (Hs : scheme (parseWwwAuthenticate h) = "Bearer") by (vm_compute; reflexivity).
  assert (Hm : Str.truthy_opt (resource_metadata (parseWwwAuthenticate h)) = true)
    by (vm_compute; reflexivity).
  split; [repeat split; solve [exact Ha | exact Hs | exact Hm]|].
  exact (proj1 (retry_outcome_is_final origin encode config request retry unauthorized
                  (start 0) w1 h (Some "at-1") eq_refl Hs Hm Ha eq_refl)).
Defined.

Lemma challenge_round_trip_witness :
  let h := challenge_header in
  let w1 := after_fetch config ToResource request (start 0) in
  let w2 := snd (acquireAccessToken origin encode config (getResourceUrl origin request)
                   metadata_url None w1) in
  let retry := new_Request resource_url "GET" [("Authorization", "Bearer at-1")] None in
  (getCachedToken config (getResourceUrl origin request) (start 0) = (Ok None, start 0)
   /\ outcome (fetch_impl config (log (start 0)) request) = Ok unauthorized
   /\ status unauthorized = 401
   /\ HeadersOps.get "WWW-Authenticate" (response_headers unauthorized) = Some h
   /\ scheme (parseWwwAuthenticate h) = "Bearer"
   /\ Str.truthy_opt (resource_metadata (parseWwwAuthenticate h)) = true
   /\ acquireAccessToken origin encode config (getResourceUrl origin request)
        (Str.template (resource_metadata (parseWwwAuthenticate h)))
        (scope (parseWwwAuthenticate h)) w1 = (Ok (Some "at-1"), w2)
   /\ cloneRequestWithAuth request (Some "at-1") = Ok retry)
  /\ fetch origin encode config request (start 0)
     = (outcome (fetch_impl config (log w2) retry), after_fetch config ToResource retry w2)
  /\ resource_requests (new_events (start 0) (after_fetch config ToResource retry w2))
     = [request; retry].
Proof.
  intros h w1 w2 retry.
  assert (Ha : acquireAccessToken origin encode config (getResourceUrl origin request)
                 (Str.template (resource_metadata (parseWwwAuthenticate h)))
                 (scope (parseWwwAuthenticate h)) w1 = (Ok (Some "at-1"), w2))
    by (vm_compute; reflexivity).
  assert (Hs : scheme (parseWwwAuthenticate h) = "Bearer") by (vm_compute; reflexivity).
  assert (Hm : Str.truthy_opt (resource_metadata (parseWwwAuthenticate h)) = true)
    by (vm_compute; reflexivity).
  split; [repeat split; solve [exact Ha | exact Hs | exact Hm]|].
  exact (challenge_round_trip origin encode config request retry (start 0) (start 0) w2
           None unauthorized h (Some "at-1")
           eq_refl eq_refl eq_refl eq_refl eq_refl Hs Hm Ha eq_refl).
Defined.

(** A POST with a form body, and a token for its resource in the
    external cache: nothing is sent. *)
Lemma request_with_body_is_never_authenticated_witness :
  let lookup := fun (_ : list Event) (_ : string) => Ok (Some "at-1") in
  let cfg := config_with network (Ok "id-token-1") (Some lookup) in
  let post := POST_form resource_url "q=1" in
  let w0 := record (AskedCache (getResourceUrl origin post)) 0 (start 0) in
  (body post <> None
   /\ getCachedToken cfg (getResourceUrl origin post) (start 0) = (Ok (Some "at-1"), w0)
   /\ Str.truthy_opt (Some "at-1") = true)
  /\ exists e, fetch origin encode cfg post (start 0) = (Throw e, w0)
               /\ resource_requests (new_events (start 0) w0) = [].
Proof.
  intros lookup cfg post w0.
  assert (Hb : body post <> None) by discriminate.
  split; [repeat split; exact Hb|].
  exact (proj1 (proj2 (request_with_body_is_never_authenticated origin encode cfg post Hb))
           (start 0) w0 (Some "at-1") eq_refl eq_refl).
Defined.

Lemma failed_acquisition_aborts_fetch_witness :
  let cfg := config_with network (Throw "not signed in") None in
  let h := challenge_header in
  let w1 := after_fetch cfg ToResource request (start 0) in
  let w2 := snd (acquireAccessToken origin encode cfg (getResourceUrl origin request)
                   metadata_url None w1) in
  (getCachedToken cfg (getResourceUrl origin request) (start 0) = (Ok None, start 0)
   /\ outcome (fetch_impl cfg (log (start 0)) request) = Ok unauthorized
   /\ status unauthorized = 401
   /\ HeadersOps.get "WWW-Authenticate" (response_headers unauthorized) = Some h
   /\ scheme (parseWwwAuthenticate h) = "Bearer"
   /\ Str.truthy_opt (resource_metadata (parseWwwAuthenticate h)) = true
   /\ acquireAccessToken origin encode cfg (getResourceUrl origin request)
        (Str.template (resource_metadata (parseWwwAuthenticate h)))
        (scope (parseWwwAuthenticate h)) w1 = (Throw "not signed in", w2))
  /\ fetch origin encode cfg request (start 0) = (Throw "not signed in", w2)
  /\ resource_requests (new_events (start 0) w2) = [request].
Proof.
  intros cfg h w1 w2.
  assert (Ha : acquireAccessToken origin encode cfg (getResourceUrl origin request)
                 (Str.template (resource_metadata (parseWwwAuthenticate h)))
                 (scope (parseWwwAuthenticate h)) w1 = (Throw "not signed in", w2))
    by (vm_compute; reflexivity).
  assert (Hs : scheme (parseWwwAuthenticate h) = "Bearer") by (vm_compute; reflexivity).
  assert (Hm : Str.truthy_opt (resource_metadata (parseWwwAuthenticate h)) = true)
    by (vm_compute; reflexivity).
  split; [repeat split; solve [exact Ha | exact Hs | exact Hm]|].
  exact (failed_acquisition_aborts_fetch origin encode cfg request (start 0) (start 0) w2
           None unauthorized h "not signed in"
           eq_refl eq_refl eq_refl eq_refl eq_refl Hs Hm Ha).
Defined.
